(** * Citation extractor (app.py): a shallow embedding and its properties

    The citation core of [app.py] is a handful of pure functions over
    Python strings built from [re] calls and [str] methods.  This file
    embeds

    - Python strings as lists of Unicode code points,
    - the fragment of the [re] module the program uses, as a
      backtracking matcher with CPython's priorities (leftmost match,
      alternatives tried left to right, greedy and lazy repetition),
    - the [str] and [int] built-ins the program calls,
    - the functions of [app.py] themselves, under their own names,

    and then states and proves the properties of the extraction core. *)

From Stdlib Require Import String Ascii.
From Stdlib Require Import List NArith ZArith Bool Lia Permutation Sorted.
From Stdlib Require DecimalPos.
Import ListNotations.

(* ================================================================== *)
(** * Python strings *)
(* ================================================================== *)

(** A Python [str] is a sequence of code points. *)
Definition char := N.
Bind Scope N_scope with char.
Definition str := list char.

(** ASCII literals of the source are written as Rocq strings. *)
Definition lit (s : string) : str :=
  List.map N_of_ascii (list_ascii_of_string s).

Fixpoint str_eqb (a b : str) : bool :=
  match a, b with
  | [], [] => true
  | x :: a', y :: b' => N.eqb x y && str_eqb a' b'
  | _, _ => false
  end.

Definition mem (x : str) (l : list str) : bool := existsb (str_eqb x) l.

(** Lexicographic [<] on strings, by code point, as Python compares [str]. *)
Fixpoint str_ltb (a b : str) : bool :=
  match a, b with
  | _, [] => false
  | [], _ :: _ => true
  | x :: a', y :: b' => N.ltb x y || (N.eqb x y && str_ltb a' b')
  end.

(* ------------------------------------------------------------------ *)
(** ** Character tables (Unicode 14.0, the database of CPython 3.11) *)
(* ------------------------------------------------------------------ *)

Module Unicode.

Definition in_range (lo hi c : char) : bool := N.leb lo c && N.leb c hi.

Definition in_ranges (tbl : list (N * N)) (c : char) : bool :=
  existsb (fun r => in_range (fst r) (snd r) c) tbl.

(** [Py_UNICODE_ISSPACE]: what [str.strip()], [str.isspace()] and the
    pattern [\s] test. *)
Definition space_table : list (N * N) :=
  [(9, 13); (28, 32); (133, 133); (160, 160); (5760, 5760);
   (8192, 8202); (8232, 8233); (8239, 8239); (8287, 8287);
   (12288, 12288)]%N.

Definition isspace : char -> bool := in_ranges space_table.

(** General category Nd, as first code points of runs of ten digits
    0..9: what the pattern [\d] tests and what [int] converts. *)
Definition decimal_zeros : list N :=
  [48; 1632; 1776; 1984; 2406; 2534; 2662; 2790; 2918; 3046; 3174;
   3302; 3430; 3558; 3664; 3792; 3872; 4160; 4240; 6112; 6160; 6470;
   6608; 6784; 6800; 6992; 7088; 7232; 7248; 42528; 43216; 43264;
   43472; 43504; 43600; 44016; 65296; 66720; 68912; 69734; 69872;
   69942; 70096; 70384; 70736; 70864; 71248; 71360; 71472; 71904;
   72016; 72784; 73040; 73120; 92768; 92864; 93008;
   120782; 120792; 120802; 120812; 120822;
   123200; 123632; 125264; 130032]%N.

Fixpoint decimal_in (zeros : list N) (c : char) : option N :=
  match zeros with
  | [] => None
  | z :: zs => if in_range z (z + 9)%N c then Some (c - z)%N
               else decimal_in zs c
  end.

(** [Py_UNICODE_TODECIMAL] *)
Definition decimal_value : char -> option N := decimal_in decimal_zeros.

(** [Py_UNICODE_ISDECIMAL] *)
Definition isdecimal (c : char) : bool :=
  match decimal_value c with Some _ => true | None => false end.

(** [Py_UNICODE_ISDIGIT]: the characters [str.isdigit()] accepts, a
    superset of the decimal digits (superscripts, circled digits...). *)
Definition digit_table : list (N * N) :=
  [(48, 57); (178, 179); (185, 185); (1632, 1641); (1776, 1785);
   (1984, 1993); (2406, 2415); (2534, 2543); (2662, 2671);
   (2790, 2799); (2918, 2927); (3046, 3055); (3174, 3183);
   (3302, 3311); (3430, 3439); (3558, 3567); (3664, 3673);
   (3792, 3801); (3872, 3881); (4160, 4169); (4240, 4249);
   (4969, 4977); (6112, 6121); (6160, 6169); (6470, 6479);
   (6608, 6618); (6784, 6793); (6800, 6809); (6992, 7001);
   (7088, 7097); (7232, 7241); (7248, 7257); (8304, 8304);
   (8308, 8313); (8320, 8329); (9312, 9320); (9332, 9340);
   (9352, 9360); (9450, 9450); (9461, 9469); (9471, 9471);
   (10102, 10110); (10112, 10120); (10122, 10130); (42528, 42537);
   (43216, 43225); (43264, 43273); (43472, 43481); (43504, 43513);
   (43600, 43609); (44016, 44025); (65296, 65305); (66720, 66729);
   (68160, 68163); (68912, 68921); (69216, 69224); (69714, 69722);
   (69734, 69743); (69872, 69881); (69942, 69951); (70096, 70105);
   (70384, 70393); (70736, 70745); (70864, 70873); (71248, 71257);
   (71360, 71369); (71472, 71481); (71904, 71913); (72016, 72025);
   (72784, 72793); (73040, 73049); (73120, 73129); (92768, 92777);
   (92864, 92873); (93008, 93017); (120782, 120831);
   (123200, 123209); (123632, 123641); (125264, 125273);
   (127232, 127242); (130032, 130041)]%N.

Definition isdigit_char : char -> bool := in_ranges digit_table.

(** The characters a lowercase ASCII letter of a pattern matches under
    [re.I]: the letter, its capital, and the characters the Unicode
    simple case mappings and [sre]'s case fixes tie to it
    (U+0130 and U+0131 for i, U+212A for k, U+017F for s). *)
Definition ieq_letter (l c : char) : bool :=
  N.eqb c l || N.eqb c (l - 32)%N
  || (N.eqb l 105 && (N.eqb c 304 || N.eqb c 305))
  || (N.eqb l 107 && N.eqb c 8490)
  || (N.eqb l 115 && N.eqb c 383).

Definition is_lower_ascii (c : char) : bool := in_range 97 122 c.
Definition is_upper_ascii (c : char) : bool := in_range 65 90 c.

End Unicode.

(* ------------------------------------------------------------------ *)
(** ** Exceptions *)
(* ------------------------------------------------------------------ *)

Inductive exn : Type := ValueError | TypeError.

Inductive result (A : Type) : Type :=
| Ok (a : A)
| Raise (e : exn).
Arguments Ok {A} a.
Arguments Raise {A} e.

Definition bind {A B} (m : result A) (f : A -> result B) : result B :=
  match m with
  | Ok a => f a
  | Raise e => Raise e
  end.

Notation "x <- m ;; k" := (bind m (fun x => k))
  (at level 61, m at next level, right associativity).

(* ------------------------------------------------------------------ *)
(** ** Built-ins of [str] and [int] *)
(* ------------------------------------------------------------------ *)

Module Py.

Fixpoint lstrip_by (p : char -> bool) (s : str) : str :=
  match s with
  | c :: s' => if p c then lstrip_by p s' else s
  | [] => []
  end.

Definition rstrip_by (p : char -> bool) (s : str) : str :=
  rev (lstrip_by p (rev s)).

Definition strip_by (p : char -> bool) (s : str) : str :=
  rstrip_by p (lstrip_by p s).

(** [s.strip()] *)
Definition strip : str -> str := strip_by Unicode.isspace.

(** [s.strip(chars)] *)
Definition strip_chars (chars : str) : str -> str :=
  strip_by (fun c => existsb (N.eqb c) chars).

(** [s.isdigit()] *)
Definition isdigit (s : str) : bool :=
  match s with
  | [] => false
  | _ => forallb Unicode.isdigit_char s
  end.

(** [s.replace(a, b)] for one-character [a] and [b]. *)
Definition replace_char (a b : char) (s : str) : str :=
  List.map (fun c => if N.eqb c a then b else c) s.

(** The digits of [int(s)]: decimal digits of any script, with single
    underscores allowed between two digits. *)
Fixpoint int_digits (acc : N) (after_digit : bool) (s : str) : option N :=
  match s with
  | [] => if after_digit then Some acc else None
  | c :: s' =>
      if N.eqb c 95 then
        if after_digit then int_digits acc false s' else None
      else
        match Unicode.decimal_value c with
        | Some d => int_digits (10 * acc + d)%N true s'
        | None => None
        end
  end.

(** The white space [int] skips: that of [str.strip()] except the
    four ASCII separators U+001C..U+001F. *)
Definition int_space (c : char) : bool :=
  Unicode.isspace c && negb (Unicode.in_range 28 31 c).

(** The most digits [int] reads and [str] writes: the interpreter's
    default for [sys.get_int_max_str_digits()]. *)
Definition int_max_str_digits : N := 4300.

(** The digits of a string; the sign, the underscores and the white
    space do not count. *)
Definition digit_count (s : str) : nat :=
  List.length (filter Unicode.isdecimal s).

(** The digits of [int(s)], within the limit. *)
Definition int_literal (body : str) : option N :=
  if N.ltb int_max_str_digits (N.of_nat (digit_count body)) then None
  else int_digits 0%N false body.

(** [int(s)]: [None] stands for [ValueError], raised for what is no
    literal and for a literal of more than [int_max_str_digits]
    digits.  Integers are unbounded. *)
Definition int (s : str) : option Z :=
  match strip_by int_space s with
  | 45%N :: body => option_map (fun n => Z.opp (Z.of_N n)) (int_literal body)
  | 43%N :: body => option_map Z.of_N (int_literal body)
  | body => option_map Z.of_N (int_literal body)
  end.

Fixpoint uint_digits (d : Decimal.uint) : str :=
  match d with
  | Decimal.Nil => []
  | Decimal.D0 d' => 48%N :: uint_digits d'
  | Decimal.D1 d' => 49%N :: uint_digits d'
  | Decimal.D2 d' => 50%N :: uint_digits d'
  | Decimal.D3 d' => 51%N :: uint_digits d'
  | Decimal.D4 d' => 52%N :: uint_digits d'
  | Decimal.D5 d' => 53%N :: uint_digits d'
  | Decimal.D6 d' => 54%N :: uint_digits d'
  | Decimal.D7 d' => 55%N :: uint_digits d'
  | Decimal.D8 d' => 56%N :: uint_digits d'
  | Decimal.D9 d' => 57%N :: uint_digits d'
  end.

(** The decimal of an integer. *)
Definition decimal (x : Z) : str :=
  match x with
  | Z0 => [48%N]
  | Zpos p => uint_digits (Pos.to_uint p)
  | Zneg p => 45%N :: uint_digits (Pos.to_uint p)
  end.

(** [str(x)] for an integer [x]: [None] stands for [ValueError], raised
    for an integer of more than [int_max_str_digits] digits. *)
Definition str_of_int (x : Z) : option str :=
  if N.ltb int_max_str_digits (N.of_nat (digit_count (decimal x))) then None
  else Some (decimal x).

(** [range(a, b)] *)
Definition range (a b : Z) : list Z :=
  List.map (fun i => (a + Z.of_nat i)%Z) (seq 0 (Z.to_nat (b - a))).

End Py.

(* ================================================================== *)
(** * The [re] module *)
(* ================================================================== *)

Module Re.

(** Patterns.  A character class, a literal, [.], [\d] and [\s] are all
    [Chr] with the test they stand for. *)
Inductive regex : Type :=
| Eps
| Chr (p : char -> bool)
| Seq (r1 r2 : regex)
| Alt (r1 r2 : regex)
| Star (greedy : bool) (r : regex)
| Grp (i : nat) (r : regex)
| Bol
| Eol.

(** The state of one match attempt: the position in the subject, the
    text from there on, and the text of the groups closed so far. *)
Record mstate : Type := MState {
  m_pos : nat;
  m_rest : str;
  m_groups : list (nat * str)
}.

Definition advance (st : mstate) (rest : str) : mstate :=
  MState (S (m_pos st)) rest (m_groups st).

Definition set_group (i : nat) (txt : str) (st : mstate) : mstate :=
  MState (m_pos st) (m_rest st) ((i, txt) :: m_groups st).

(** Where [$] matches: at the end of the subject and before a line
    feed that ends it. *)
Definition at_end (s : str) : bool :=
  match s with
  | [] => true
  | [c] => N.eqb c 10
  | _ => false
  end.

(** Repetition of [body] before the continuation [k]: a greedy one
    tries another iteration first, a lazy one tries [k] first.  An
    iteration that consumed nothing is not repeated; [n] bounds the
    number of iterations by the length of the text left. *)
Definition star_loop {A : Type}
           (body : (mstate -> option A) -> mstate -> option A)
           (greedy : bool) (k : mstate -> option A)
  : nat -> mstate -> option A :=
  fix loop (n : nat) (st : mstate) {struct n} : option A :=
    match n with
    | O => k st
    | S n' =>
        let again (_ : unit) :=
          body (fun st' => if Nat.ltb (m_pos st) (m_pos st')
                           then loop n' st' else None) st in
        if greedy then
          match again tt with
          | Some a => Some a
          | None => k st
          end
        else
          match k st with
          | Some a => Some a
          | None => again tt
          end
    end.

(** Backtracking matcher in continuation-passing style: [rmatch r k st]
    is the first success of [k] over the ways [r] can match at [st],
    in the engine's order of preference: the left alternative before
    the right one, one more iteration before the rest (one less for a
    lazy repetition).  A group records the text it matched last. *)
Fixpoint rmatch {A : Type} (r : regex) (k : mstate -> option A)
         (st : mstate) {struct r} : option A :=
  match r with
  | Eps => k st
  | Chr p =>
      match m_rest st with
      | c :: rest => if p c then k (advance st rest) else None
      | [] => None
      end
  | Seq r1 r2 => rmatch r1 (rmatch r2 k) st
  | Alt r1 r2 =>
      match rmatch r1 k st with
      | Some a => Some a
      | None => rmatch r2 k st
      end
  | Star greedy r' =>
      star_loop (rmatch r') greedy k (List.length (m_rest st)) st
  | Grp i r' =>
      rmatch r'
        (fun st' =>
           k (set_group i (firstn (m_pos st' - m_pos st) (m_rest st)) st'))
        st
  | Bol => if Nat.eqb (m_pos st) 0 then k st else None
  | Eol => if at_end (m_rest st) then k st else None
  end.

(** One attempt at position [pos], where [s] is the subject from [pos]
    on.  With [must_advance] an empty match is refused. *)
Definition match_at (r : regex) (pos : nat) (s : str)
           (must_advance : bool) : option mstate :=
  rmatch r
    (fun st => if must_advance && Nat.eqb (m_pos st) pos
               then None else Some st)
    (MState pos s []).

(** Match objects. *)
Record match_obj : Type := Match {
  m_start : nat;
  m_end : nat;
  m_text : str;
  m_captures : list (nat * str)
}.

Definition mk_match (pos : nat) (s : str) (st : mstate) : match_obj :=
  Match pos (m_pos st) (firstn (m_pos st - pos) s) (m_groups st).

Fixpoint lookup (i : nat) (l : list (nat * str)) : option str :=
  match l with
  | [] => None
  | (j, t) :: l' => if Nat.eqb i j then Some t else lookup i l'
  end.

(** [m.group(i)].  The groups the program reads lie outside every
    optional part of their pattern, so they are set in every match. *)
Definition group (m : match_obj) (i : nat) : str :=
  match i with
  | O => m_text m
  | _ => match lookup i (m_captures m) with Some t => t | None => [] end
  end.

(** The scan shared by [finditer], [sub] and [split]: attempts at
    successive positions; a character where no match starts is
    skipped; after a match the scan resumes at its end; after an empty
    match the same position is retried for a non-empty one.  [skip]
    counts the characters still covered by the last match.  The result
    lists the skipped characters and the matches in subject order. *)
Inductive token : Type :=
| Skipped (c : char)
| Hit (m : match_obj).

Fixpoint scan (r : regex) (pos : nat) (s : str) (skip : nat)
         {struct s} : list token :=
  let covered (k : nat) :=
    match s with
    | [] => []
    | _ :: s' => scan r (S pos) s' k
    end in
  let unmatched :=
    match s with
    | [] => []
    | c :: s' => Skipped c :: scan r (S pos) s' 0
    end in
  match skip with
  | S k => covered k
  | O =>
      match match_at r pos s false with
      | None => unmatched
      | Some st =>
          if Nat.eqb (m_pos st) pos then
            Hit (mk_match pos s st) ::
            match match_at r pos s true with
            | None => unmatched
            | Some st2 =>
                Hit (mk_match pos s st2) :: covered (m_pos st2 - pos - 1)
            end
          else Hit (mk_match pos s st) :: covered (m_pos st - pos - 1)
      end
  end.

Fixpoint hits (ts : list token) : list match_obj :=
  match ts with
  | [] => []
  | Skipped _ :: ts' => hits ts'
  | Hit m :: ts' => m :: hits ts'
  end.

(** [re.finditer(r, s)] *)
Definition finditer (r : regex) (s : str) : list match_obj :=
  hits (scan r 0 s 0).

(** [re.search(r, s)] *)
Definition search (r : regex) (s : str) : option match_obj :=
  hd_error (finditer r s).

(** [re.search(r, s)] used as a condition. *)
Definition found (r : regex) (s : str) : bool :=
  match search r s with Some _ => true | None => false end.

(** [re.sub(r, repl, s)]: the text outside the matches is kept and
    each match gives way to its replacement. *)
Fixpoint substitute (repl : match_obj -> str) (ts : list token) : str :=
  match ts with
  | [] => []
  | Skipped c :: ts' => c :: substitute repl ts'
  | Hit m :: ts' => repl m ++ substitute repl ts'
  end.

Definition sub (r : regex) (repl : match_obj -> str) (s : str) : str :=
  substitute repl (scan r 0 s 0).

(** [re.split(r, s)] for a pattern without groups: the stretches of
    text between the matches, as the first one and the others. *)
Fixpoint pieces (ts : list token) : str * list str :=
  match ts with
  | [] => ([], [])
  | Skipped c :: ts' => let (p, ps) := pieces ts' in (c :: p, ps)
  | Hit _ :: ts' => let (p, ps) := pieces ts' in ([], p :: ps)
  end.

Definition split (r : regex) (s : str) : list str :=
  let (p, ps) := pieces (scan r 0 s 0) in p :: ps.

(** *** Pattern syntax *)

Definition chr (c : char) : regex := Chr (N.eqb c).
Definition any_of (cs : str) : regex :=
  Chr (fun c => existsb (N.eqb c) cs).
Definition none_of (cs : str) : regex :=
  Chr (fun c => negb (existsb (N.eqb c) cs)).
Definition digit : regex := Chr Unicode.isdecimal.
Definition space : regex := Chr Unicode.isspace.
Definition dot : regex := Chr (fun c => negb (N.eqb c 10)).

(** A literal character under [re.I]. *)
Definition ichr (c : char) : regex :=
  if Unicode.is_lower_ascii c then Chr (Unicode.ieq_letter c)
  else if Unicode.is_upper_ascii c then Chr (Unicode.ieq_letter (c + 32)%N)
  else chr c.

Fixpoint seqs (rs : list regex) : regex :=
  match rs with
  | [] => Eps
  | [r] => r
  | r :: rs' => Seq r (seqs rs')
  end.

Fixpoint alts (rs : list regex) : regex :=
  match rs with
  | [] => Eps
  | [r] => r
  | r :: rs' => Alt r (alts rs')
  end.

Definition text (s : string) : regex := seqs (List.map chr (lit s)).
Definition itext (s : string) : regex := seqs (List.map ichr (lit s)).

Definition star (r : regex) : regex := Star true r.        (* r*    *)
Definition lazy_star (r : regex) : regex := Star false r.  (* r*?   *)
Definition plus (r : regex) : regex := Seq r (Star true r). (* r+   *)
Definition opt (r : regex) : regex := Alt r Eps.           (* r?    *)
Definition twice (r : regex) : regex := Seq r r.           (* r{2}  *)
Definition two_or_more (r : regex) : regex :=              (* r{2,} *)
  Seq r (Seq r (Star true r)).

End Re.

(* ================================================================== *)
(** * Loops, sorting and sets *)
(* ================================================================== *)

(** [for x in xs: body], with a state and exceptions. *)
Fixpoint for_each {A S : Type} (xs : list A) (body : S -> A -> result S)
         (s : S) : result S :=
  match xs with
  | [] => Ok s
  | x :: xs' => s' <- body s x ;; for_each xs' body s'
  end.

Fixpoint map_result {A B : Type} (f : A -> result B) (l : list A)
  : result (list B) :=
  match l with
  | [] => Ok []
  | x :: l' => y <- f x ;; ys <- map_result f l' ;; Ok (y :: ys)
  end.

(** [[f(x) for x in l]] where [f] may fail. *)
Fixpoint map_option {A B : Type} (f : A -> option B) (l : list A)
  : option (list B) :=
  match l with
  | [] => Some []
  | x :: l' =>
      match f x, map_option f l' with
      | Some y, Some ys => Some (y :: ys)
      | _, _ => None
      end
  end.

(** Stable insertion sort for a strict order [lt]: [x] goes in front of
    the first element that is not below it. *)
Fixpoint insert_by {A : Type} (lt : A -> A -> bool) (x : A) (l : list A)
  : list A :=
  match l with
  | [] => [x]
  | y :: l' => if lt y x then y :: insert_by lt x l' else x :: y :: l'
  end.

Definition sort_by {A : Type} (lt : A -> A -> bool) (l : list A) : list A :=
  fold_right (insert_by lt) [] l.

(** The distinct elements of a list, in order of first occurrence. *)
Fixpoint uniq_from (seen : list str) (l : list str) : list str :=
  match l with
  | [] => []
  | x :: l' => if mem x seen then uniq_from seen l'
               else x :: uniq_from (x :: seen) l'
  end.

Definition uniq (l : list str) : list str := uniq_from [] l.

(** What a [sorted] key function may return in this program. *)
Inductive sort_key : Type :=
| KInt (n : Z)
| KStr (s : str).

Definition key_is_int (k : sort_key) : bool :=
  match k with KInt _ => true | KStr _ => false end.

(** [a < b] on keys of one kind. *)
Definition key_ltb (a b : sort_key) : bool :=
  match a, b with
  | KInt x, KInt y => Z.ltb x y
  | KStr x, KStr y => str_ltb x y
  | _, _ => false
  end.

(** [sorted(l, key=key)]: the keys are computed first, in order; an
    [int] and a [str] key in one list cannot be ordered (TypeError);
    the sort is stable. *)
Definition sorted (key : str -> result sort_key) (l : list str)
  : result (list str) :=
  keyed <- map_result (fun x => k <- key x ;; Ok (k, x)) l ;;
  let keys := List.map fst keyed in
  if forallb key_is_int keys || forallb (fun k => negb (key_is_int k)) keys
  then Ok (List.map snd (sort_by (fun a b => key_ltb (fst a) (fst b)) keyed))
  else Raise TypeError.

(* ================================================================== *)
(** * app.py *)
(* ================================================================== *)

Section App.

(** [set(nums)] is iterated in an order the interpreter chooses (string
    hashes are salted per process).  Every order of a given set is the
    order of some ranking of its elements; the development holds for
    all of them. *)
Variable set_order : str -> N.

Definition set_iter (l : list str) : list str :=
  sort_by (fun a b => N.ltb (set_order a) (set_order b)) (uniq l).

(** ** Patterns of the source *)

(** RE_YEAR:  (?:19|20)\d{2}[a-z]?  *)
Definition RE_YEAR : Re.regex :=
  Re.seqs [Re.Alt (Re.text "19") (Re.text "20");
           Re.twice Re.digit;
           Re.opt (Re.Chr (Unicode.in_range 97 122))].

(** RE_NAME:  [A-Z][A-Za-z'\-]+  *)
Definition name_char (c : char) : bool :=
  Unicode.in_range 65 90 c || Unicode.in_range 97 122 c
  || N.eqb c 39 || N.eqb c 45.

Definition RE_NAME : Re.regex :=
  Re.Seq (Re.Chr (Unicode.in_range 65 90)) (Re.plus (Re.Chr name_char)).

(** In [_clean_piece], with [re.I]:
    ^(?:see|e\.g\.|cf\.|e\.g|i\.e\.,?|for example|see also)\s*[:,]?\s*  *)
Definition connector_re : Re.regex :=
  Re.seqs [Re.Bol;
           Re.alts [Re.itext "see"; Re.itext "e.g."; Re.itext "cf.";
                    Re.itext "e.g";
                    Re.Seq (Re.itext "i.e.") (Re.opt (Re.ichr 44));
                    Re.itext "for example"; Re.itext "see also"];
           Re.star Re.space;
           Re.opt (Re.any_of (lit ":,"));
           Re.star Re.space].

(** In [extract_apa_parenthetical] (blanks added between the parts):
    \(  (  [^()]*?  (?:19|20)  \d{2}  [^()]*  )  \)  *)
Definition paren_re : Re.regex :=
  Re.seqs [Re.chr 40;
           Re.Grp 1 (Re.seqs [Re.lazy_star (Re.none_of (lit "()"));
                              Re.Alt (Re.text "19") (Re.text "20");
                              Re.twice Re.digit;
                              Re.star (Re.none_of (lit "()"))]);
           Re.chr 41].

(** Page references, with [re.I]:  ,?\s*p+p?\.?\s*\d+(\-\d+)?  *)
Definition page_re : Re.regex :=
  Re.seqs [Re.opt (Re.ichr 44);
           Re.star Re.space;
           Re.plus (Re.ichr 112);
           Re.opt (Re.ichr 112);
           Re.opt (Re.ichr 46);
           Re.star Re.space;
           Re.plus Re.digit;
           Re.opt (Re.Grp 1 (Re.Seq (Re.ichr 45) (Re.plus Re.digit)))].

(** What follows the year:  ({RE_YEAR}).*$  *)
Definition after_year_re : Re.regex :=
  Re.seqs [Re.Grp 1 RE_YEAR; Re.star Re.dot; Re.Eol].

(** The word and:  \s+and\s+  *)
Definition and_re : Re.regex :=
  Re.seqs [Re.plus Re.space; Re.text "and"; Re.plus Re.space].

(** Runs of blanks:  \s{2,}  *)
Definition spaces_re : Re.regex := Re.two_or_more Re.space.

(** In [extract_apa_narrative]:
    ((?:{RE_NAME}(?:\s*&\s*{RE_NAME})?|{RE_NAME}\s+et al\.))\s*\(\s*({RE_YEAR})\s*\)  *)
Definition narrative_name : Re.regex :=
  Re.Alt
    (Re.Seq RE_NAME
       (Re.opt (Re.seqs [Re.star Re.space; Re.chr 38; Re.star Re.space;
                         RE_NAME])))
    (Re.seqs [RE_NAME; Re.plus Re.space; Re.text "et al."]).

Definition narrative_re : Re.regex :=
  Re.seqs [Re.Grp 1 narrative_name;
           Re.star Re.space; Re.chr 40; Re.star Re.space;
           Re.Grp 2 RE_YEAR;
           Re.star Re.space; Re.chr 41].

(** In [extract_ieee] (blanks added between the parts; the third
    character of the class is the en dash, U+2013):
    \[  (  \d+  (?:  \s*[\-,U+2013]\s*\d+  |  \s*,\s*\d+  )*  )  \]  *)
Definition ieee_blob : Re.regex :=
  Re.Seq (Re.plus Re.digit)
    (Re.star
       (Re.Alt
          (Re.seqs [Re.star Re.space; Re.any_of [45; 44; 8211]%N;
                    Re.star Re.space; Re.plus Re.digit])
          (Re.seqs [Re.star Re.space; Re.chr 44;
                    Re.star Re.space; Re.plus Re.digit]))).

Definition ieee_re : Re.regex :=
  Re.seqs [Re.chr 91; Re.Grp 1 ieee_blob; Re.chr 93].

(** The separators:  ;  and  \s*,\s*  and  [\-U+2013]  *)
Definition semicolon_re : Re.regex := Re.chr 59.
Definition comma_re : Re.regex :=
  Re.seqs [Re.star Re.space; Re.chr 44; Re.star Re.space].
Definition hyphen_re : Re.regex := Re.any_of [45; 8211]%N.

(** ** Citation extraction utils *)

Definition _clean_piece (s : str) : str :=
  let s := Py.strip s in
  let s := Re.sub connector_re (fun _ => []) s in
  let s := Py.strip_chars (lit " .;,") s in
  s.

(** The body of the inner loop of [extract_apa_parenthetical]. *)
Definition apa_piece (results : list str) (part : str) : list str :=
  let piece := _clean_piece part in
  if Re.found RE_YEAR piece then
    let piece := Re.sub page_re (fun _ => []) piece in
    let piece := Re.sub after_year_re (fun m => Re.group m 1) piece in
    let piece := Re.sub and_re (fun _ => lit " & ") piece in
    let piece :=
      Py.strip_chars (lit " ,;")
        (Re.sub spaces_re (fun _ => lit " ") piece) in
    results ++ [piece]
  else results.

Definition extract_apa_parenthetical (text : str) : list str :=
  fold_left
    (fun results m =>
       let inside := Re.group m 1 in
       fold_left apa_piece (Re.split semicolon_re inside) results)
    (Re.finditer paren_re text) [].

Definition extract_apa_narrative (text : str) : list str :=
  fold_left
    (fun results m =>
       let name := Re.group m 1 in
       let year := Re.group m 2 in
       let name := Re.sub and_re (fun _ => lit " & ") name in
       results ++ [name ++ lit ", " ++ year])
    (Re.finditer narrative_re text) [].

(** [lambda x: int(x) if x.isdigit() else x] *)
Definition ieee_key (x : str) : result sort_key :=
  if Py.isdigit x then
    match Py.int x with
    | Some n => Ok (KInt n)
    | None => Raise ValueError
    end
  else Ok (KStr x).

(** The body of the loop over the parts of one bracket group.  The
    unpacking [a,b = ...] stands before the [try]; the [try] covers the
    two conversions, the list of the [str(x)] and the extension of
    [nums], and what is raised there is dropped with the part. *)
Definition ieee_part (nums : list str) (p : str) : result (list str) :=
  if Re.found hyphen_re p then
    match Re.split hyphen_re p with
    | [a; b] =>
        match Py.int (Py.strip a) with
        | Some a =>
            match Py.int (Py.strip b) with
            | Some b =>
                if Z.leb a b then
                  match map_option Py.str_of_int (Py.range a (b + 1)) with
                  | Some strs => Ok (nums ++ strs)
                  | None => Ok nums
                  end
                else Ok nums
            | None => Ok nums
            end
        | None => Ok nums
        end
    | _ => Raise ValueError
    end
  else Ok (nums ++ [Py.strip p]).

(** The f-string that puts [n] between brackets. *)
Definition bracketed (n : str) : str := lit "[" ++ n ++ lit "]".

Definition extract_ieee (text : str) : result (list str) :=
  nums <- for_each (Re.finditer ieee_re text)
            (fun nums m =>
               let blob := Re.group m 1 in
               let parts := Re.split comma_re blob in
               for_each parts ieee_part nums)
            [] ;;
  uniq <- sorted ieee_key (set_iter nums) ;;
  Ok (List.map bracketed uniq).

(** [dedupe], local to [extract_citations_from_text]. *)
Definition dedupe_step (acc : list str * list str) (s : str)
  : list str * list str :=
  let (seen, out) := acc in
  let s := Py.strip s in
  match s with
  | [] => (seen, out)
  | _ => if mem s seen then (seen, out) else (s :: seen, out ++ [s])
  end.

Definition dedupe (seq : list str) : list str :=
  snd (fold_left dedupe_step seq ([], [])).

(** The Citation Table is a [dict] with three keys, kept in the order
    of the literal. *)
Definition table := list (str * list str).

(** The three keys. *)
Definition APA_parenthetical : str := lit "APA_parenthetical".
Definition APA_narrative : str := lit "APA_narrative".
Definition IEEE_numeric : str := lit "IEEE_numeric".

Definition extract_citations_from_text (text : str) : result table :=
  let apa_p := extract_apa_parenthetical text in
  let apa_n := extract_apa_narrative text in
  ieee <- extract_ieee text ;;
  Ok [(APA_parenthetical, dedupe apa_p);
      (APA_narrative, dedupe apa_n);
      (IEEE_numeric, dedupe ieee)].

(** ** The rows of the [/extract] route *)

Record row : Type := Row {
  Type_ : str;
  Citation : str;
  Count : nat
}.

(** A [Counter]: missing keys count 0. *)
Definition counter := list (str * nat).

Fixpoint counter_get (c : counter) (k : str) : nat :=
  match c with
  | [] => 0
  | (k', n) :: c' => if str_eqb k k' then n else counter_get c' k
  end.

Fixpoint counter_incr (c : counter) (k : str) : counter :=
  match c with
  | [] => [(k, 1)]
  | (k', n) :: c' =>
      if str_eqb k k' then (k', S n) :: c' else (k', n) :: counter_incr c' k
  end.

(** [rows] before the counts are filled in: [(Type, Citation)]. *)
Definition flatten (buckets : table) : list (str * str) :=
  flat_map
    (fun kv => List.map (fun it => (Py.replace_char 95 32 (fst kv), it))
                 (snd kv))
    buckets.

Definition count_citations (rows : list (str * str)) : counter :=
  fold_left (fun counts r => counter_incr counts (snd r)) rows [].

(** [rows] as handed to the data frame. *)
Definition extract_rows (buckets : table) : list row :=
  let rows := flatten buckets in
  let counts := count_citations rows in
  List.map (fun r => Row (fst r) (snd r) (counter_get counts (snd r))) rows.

End App.

(* ================================================================== *)
(** * The text of a document and the data frame *)
(* ================================================================== *)

(** ** [read_docx_text] *)

(** What [read_docx_text] reads off the document [python-docx] has
    parsed: the text of each paragraph, and for each table the text of
    its cells, row by row.  The parsing of the bytes is the library's. *)
Record document : Type := Document {
  paragraphs : list str;
  tables : list (list (list str))
}.

(** [sep.join(texts)] *)
Fixpoint join (sep : str) (texts : list str) : str :=
  match texts with
  | [] => []
  | [t] => t
  | t :: ts => t ++ sep ++ join sep ts
  end.

Definition read_docx_text (doc : document) : str :=
  let texts := paragraphs doc in
  let texts :=
    texts ++ flat_map (fun tbl => flat_map (fun row => row) tbl) (tables doc) in
  join [10%N] texts.

(** ** The data frame of the [/extract] route

    [pd.DataFrame(rows).drop_duplicates().sort_values(["Type","Citation"])
    .reset_index(drop=True)], as the list of its records. *)

Definition row_eqb (a b : row) : bool :=
  str_eqb (Type_ a) (Type_ b) && str_eqb (Citation a) (Citation b)
  && Nat.eqb (Count a) (Count b).

(** [drop_duplicates()]: of rows equal in every column the first stays. *)
Fixpoint drop_duplicates_from (seen rows : list row) : list row :=
  match rows with
  | [] => []
  | r :: rows' =>
      if existsb (row_eqb r) seen then drop_duplicates_from seen rows'
      else r :: drop_duplicates_from (r :: seen) rows'
  end.

Definition drop_duplicates : list row -> list row := drop_duplicates_from [].

(** The order of [sort_values(["Type","Citation"])]: by type, then by
    citation, both compared as strings. *)
Definition by_type_citation (a b : row) : bool :=
  str_ltb (Type_ a) (Type_ b)
  || (str_eqb (Type_ a) (Type_ b) && str_ltb (Citation a) (Citation b)).

Definition sort_values : list row -> list row := sort_by by_type_citation.

(** The frame, or the [KeyError] of [sort_values] for a column the frame
    lacks. *)
Inductive frame : Type :=
| Frame (records : list row)
| KeyError (key : str).

(** [df]: a frame made of no rows has no columns, and sorting it by
    [Type] fails; [reset_index] renumbers the rows and keeps their
    order. *)
Definition df (rows : list row) : frame :=
  match rows with
  | [] => KeyError (lit "Type")
  | _ => Frame (sort_values (drop_duplicates rows))
  end.

(* ================================================================== *)
(** * The vocabulary of the properties *)
(* ================================================================== *)

(** ** Words and runs of a pattern *)

Module ReSpec.
Import Re.

(** The words of a pattern; the anchors stand for the empty word. *)
Inductive lang : regex -> str -> Prop :=
| lang_eps : lang Eps []
| lang_chr p c : p c = true -> lang (Chr p) [c]
| lang_seq r1 r2 w1 w2 :
    lang r1 w1 -> lang r2 w2 -> lang (Seq r1 r2) (w1 ++ w2)
| lang_alt_l r1 r2 w : lang r1 w -> lang (Alt r1 r2) w
| lang_alt_r r1 r2 w : lang r2 w -> lang (Alt r1 r2) w
| lang_star_nil g r : lang (Star g r) []
| lang_star_cons g r w1 w2 :
    lang r w1 -> lang (Star g r) w2 -> lang (Star g r) (w1 ++ w2)
| lang_grp i r w : lang r w -> lang (Grp i r) w
| lang_bol : lang Bol []
| lang_eol : lang Eol [].

(** One way through a pattern, from state to state. *)
Inductive run : regex -> mstate -> mstate -> Prop :=
| run_eps st : run Eps st st
| run_chr p c rest st :
    m_rest st = c :: rest -> p c = true -> run (Chr p) st (advance st rest)
| run_seq r1 r2 st st1 st2 :
    run r1 st st1 -> run r2 st1 st2 -> run (Seq r1 r2) st st2
| run_alt_l r1 r2 st st' : run r1 st st' -> run (Alt r1 r2) st st'
| run_alt_r r1 r2 st st' : run r2 st st' -> run (Alt r1 r2) st st'
| run_star_nil g r st : run (Star g r) st st
| run_star_cons g r st st1 st2 :
    run r st st1 -> run (Star g r) st1 st2 -> run (Star g r) st st2
| run_grp i r st st' :
    run r st st' ->
    run (Grp i r) st
        (set_group i (firstn (m_pos st' - m_pos st) (m_rest st)) st')
| run_bol st : m_pos st = 0 -> run Bol st st
| run_eol st : at_end (m_rest st) = true -> run Eol st st.

(** Patterns without groups. *)
Fixpoint groups_free (r : regex) : bool :=
  match r with
  | Seq r1 r2 | Alt r1 r2 => groups_free r1 && groups_free r2
  | Star _ r' => groups_free r'
  | Grp _ _ => false
  | _ => true
  end.

End ReSpec.

(** ** Lists *)

(** The index of the first occurrence of [x] in [l] ([length l] when
    there is none). *)
Fixpoint first_index (x : str) (l : list str) : nat :=
  match l with
  | [] => 0
  | y :: l' => if str_eqb x y then 0 else S (first_index x l')
  end.

Definition nonempty (s : str) : bool :=
  match s with [] => false | _ => true end.

(** [out] lists its strings in the order of their first occurrences in
    [cands]. *)
Definition in_order_of (cands out : list str) : Prop :=
  StronglySorted (fun a b => first_index a cands < first_index b cands) out.

(** How often [k] occurs in [l]. *)
Definition occurrences (k : str) (l : list str) : nat :=
  List.length (filter (str_eqb k) l).

(** The number of families whose sequence holds [k]. *)
Definition families_with (k : str) (buckets : table) : nat :=
  List.length (filter (fun kv => mem k (snd kv)) buckets).

(** No element stands before a smaller one. *)
Definition ascending {A : Type} (lt : A -> A -> bool) : list A -> Prop :=
  StronglySorted (fun a b => lt b a = false).

(** The value of a token, for tokens [int] reads. *)
Definition value (t : str) : Z :=
  match Py.int t with Some v => v | None => 0%Z end.

(** ** Characters *)

Section RangeTests.
Import Unicode.

Definition ranges_disjoint (t1 t2 : list (N * N)) : bool :=
  forallb (fun r1 =>
             forallb (fun r2 => N.ltb (snd r1) (fst r2)
                                || N.ltb (snd r2) (fst r1)) t2) t1.

Definition ranges_subset (t1 t2 : list (N * N)) : bool :=
  forallb (fun r1 =>
             existsb (fun r2 => N.leb (fst r2) (fst r1)
                                && N.leb (snd r1) (snd r2)) t2) t1.

Definition decimal_ranges : list (N * N) :=
  List.map (fun z => (z, z + 9)%N) decimal_zeros.

(** The signs, the comma, the underscore and the en dash. *)
Definition marks : list (N * N) :=
  [(43, 43); (44, 44); (45, 45); (95, 95); (8211, 8211)]%N.

End RangeTests.

(** The characters of the cleanup rule: space, full stop, semicolon and
    comma. *)
Definition punct (c : char) : bool := existsb (N.eqb c) (lit " .;,").

(** A string that is not empty and neither starts nor ends with a
    character for which [bad] holds. *)
Definition clean_ends (bad : char -> bool) (s : str) : Prop :=
  s <> []
  /\ (forall c t, s = c :: t -> bad c = false)
  /\ (forall u c, s = u ++ [c] -> bad c = false).

(** A string of decimal digits, at least one. *)
Definition digits (s : str) : Prop :=
  s <> [] /\ forallb Unicode.isdecimal s = true.

(** What [ieee_key] needs to return an integer. *)
Definition numeric (s : str) : Prop :=
  Py.isdigit s = true /\ exists n, Py.int s = Some n.

(** ** Names of the narrative extractor *)

(** A blank followed by the letters a and n. *)
Definition starts_an (t : str) : bool :=
  match t with
  | a :: n :: _ => N.eqb a 97 && N.eqb n 110
  | _ => false
  end.

Fixpoint blank_an (w : str) : bool :=
  match w with
  | [] => false
  | c :: t => (Unicode.isspace c && starts_an t) || blank_an t
  end.

Definition blanks (s : str) : Prop := forallb Unicode.isspace s = true.

(** A capitalized token: a capital letter, then letters, apostrophes
    or hyphens, at least one. *)
Definition capitalized (w : str) : Prop :=
  exists c t, w = c :: t /\ Unicode.in_range 65 90 c = true
              /\ t <> [] /\ forallb name_char t = true.

(** The three forms of a captured name. *)
Definition name_shape (w : str) : Prop :=
  capitalized w
  \/ (exists n1 s1 s2 n2,
         w = n1 ++ s1 ++ lit "&" ++ s2 ++ n2
         /\ capitalized n1 /\ blanks s1 /\ blanks s2 /\ capitalized n2)
  \/ (exists n1 s,
         w = n1 ++ s ++ lit "et al."
         /\ capitalized n1 /\ s <> [] /\ blanks s).

(** ** Bracket groups of the IEEE extractor *)

Section BracketGroups.
Import Re.

(** The test of [hyphen_re]. *)
Definition is_dash (c : char) : bool := existsb (N.eqb c) [45; 8211]%N.
Definition has_dash (s : str) : Prop := existsb is_dash s = true.

Definition plain (c : char) : Prop :=
  Unicode.isspace c = false /\ c <> 44%N.

(** [unmatched x s]: the separator matches at no position of [x] when
    [s] follows. *)
Definition unmatched (x s : str) : Prop :=
  forall x1 x2 pos, x = x1 ++ x2 -> x2 <> [] ->
                    match_at comma_re pos (x2 ++ s) false = None.

(** What follows the first number of a bracket group. *)
Inductive tail : str -> Prop :=
| tail_nil : tail []
| tail_item s1 sep s2 d t :
    blanks s1 -> In sep [45; 44; 8211]%N -> blanks s2 -> digits d ->
    tail t -> tail (s1 ++ sep :: s2 ++ d ++ t).

(** A part of a bracket group is a number or holds a dash. *)
Definition part_ok (p : str) : Prop := digits p \/ has_dash p.

(** The numbers the loops of [extract_ieee] gather from a text. *)
Definition gathered (text : str) : result (list str) :=
  for_each (finditer ieee_re text)
    (fun nums m => for_each (split comma_re (group m 1)) ieee_part nums) [].

(** A part of a bracket group of the text holds a dash and has not two
    sides. *)
Definition bad_part (text : str) : Prop :=
  exists m p,
    In m (finditer ieee_re text)
    /\ In p (split comma_re (group m 1))
    /\ found hyphen_re p = true
    /\ forall a b, split hyphen_re p <> [a; b].

(** A number gathered from the text has more digits than [int] reads. *)
Definition long_number (text : str) : Prop :=
  exists nums t,
    gathered text = Ok nums /\ In t nums
    /\ (Py.int_max_str_digits < N.of_nat (List.length t))%N.

(** A part that is a range from one integer to another that is not
    smaller. *)
Definition expands (p : str) : Prop :=
  exists a b x y,
    split hyphen_re p = [a; b]
    /\ Py.int (Py.strip a) = Some x /\ Py.int (Py.strip b) = Some y
    /\ (x <= y)%Z.

(** A bracket group of one number of 4301 digits. *)
Definition long_text : str := lit "[" ++ repeat 49%N 4301 ++ lit "]".

(** The range from 1 to a number of 4301 digits. *)
Definition long_range : str := lit "1-" ++ repeat 57%N 4301.

End BracketGroups.

(** ** Tables, and the properties as the specification words them *)

(** The Citation Table with the given three sequences. *)
Definition table_of (apa_p apa_n ieee : list str) : table :=
  [(APA_parenthetical, apa_p); (APA_narrative, apa_n); (IEEE_numeric, ieee)].

(** A set order for the examples; no example depends on it. *)
Definition any_order : str -> N := fun _ => 0%N.

(** The text [(.<tab>Smith 2020) (Lee 2019) (Smith 2020)]. *)
Definition tab_text : str :=
  lit "(." ++ [9%N] ++ lit "Smith 2020) (Lee 2019) (Smith 2020)".

(** The property as the specification words it: every row counts 1. *)
Definition count_always_one : Prop :=
  forall set_order text tbl r,
    extract_citations_from_text set_order text = Ok tbl ->
    In r (extract_rows tbl) -> Count r = 1.

(** The property as the specification words it. *)
Definition citations_clean : Prop :=
  forall set_order text tbl fam l s,
    extract_citations_from_text set_order text = Ok tbl ->
    In (fam, l) tbl -> In s l -> clean_ends punct s.

(** The example as the specification words it. *)
Definition abc_passed_through : Prop :=
  forall set_order,
  exists tbl l,
    extract_citations_from_text set_order (lit "[abc]") = Ok tbl
    /\ In (IEEE_numeric, l) tbl /\ In (lit "[abc]") l.

(** The property as the specification words it, the order being that of
    the candidates as the extractors return them. *)
Definition dedupe_follows_candidates : Prop :=
  forall set_order text tbl,
    extract_citations_from_text set_order text = Ok tbl ->
    exists ieee,
      extract_ieee set_order text = Ok ieee
      /\ Forall2
           (fun kv cands =>
              NoDup (snd kv) /\ ~ In [] (snd kv) /\ in_order_of cands (snd kv))
           tbl
           [extract_apa_parenthetical text; extract_apa_narrative text; ieee].

(** ** What a pattern needs and what it allows *)

(** Every word of [r] holds a character for which [P] holds. *)
Definition needs (P : char -> bool) (r : Re.regex) : Prop :=
  forall w, ReSpec.lang r w -> existsb P w = true.

(** Every word of [r] is made of characters for which [P] holds. *)
Definition only (P : char -> bool) (r : Re.regex) : Prop :=
  forall w, ReSpec.lang r w -> forallb P w = true.

Definition no_bracket (c : char) : bool := negb (existsb (N.eqb c) (lit "()")).

(** ** Parts of strings *)

(** [a] is a contiguous part of [s]. *)
Definition part_of (a s : str) : Prop := exists u v, s = u ++ a ++ v.

(** No two white-space characters stand side by side. *)
Fixpoint collapsed (s : str) : bool :=
  match s with
  | [] => true
  | c :: t =>
      match t with
      | d :: _ => negb (Unicode.isspace c && Unicode.isspace d)
      | [] => true
      end && collapsed t
  end.

(** ** Citations of the narrative and of the IEEE family *)

(** A year token: 19 or 20, two decimal digits, and at most one small
    letter. *)
Definition year_shape (y : str) : Prop :=
  exists d1 d2 l,
    (y = lit "19" ++ d1 :: d2 :: l \/ y = lit "20" ++ d1 :: d2 :: l)
    /\ Unicode.isdecimal d1 = true /\ Unicode.isdecimal d2 = true
    /\ (l = [] \/ exists x, l = [x] /\ Unicode.in_range 97 122 x = true).

(** The string [name, year] of a match of the narrative pattern. *)
Definition name_and_year (m : Re.match_obj) : str :=
  Re.group m 1 ++ lit ", " ++ Re.group m 2.

(** [t] is written in a bracket group of [text]: it is a part without a
    dash of some group, stripped, or [str(z)] for an integer [z] between
    the two sides of a part with one dash. *)
Definition written (text t : str) : Prop :=
  exists m p,
    In m (Re.finditer ieee_re text)
    /\ In p (Re.split comma_re (Re.group m 1))
    /\ ((Re.found hyphen_re p = false /\ t = Py.strip p)
        \/ (exists a b x y z,
               Re.found hyphen_re p = true
               /\ Re.split hyphen_re p = [a; b]
               /\ Py.int (Py.strip a) = Some x
               /\ Py.int (Py.strip b) = Some y
               /\ (x <= z <= y)%Z
               /\ Py.str_of_int z = Some t)).

(** A set order that puts the strings of two or more characters
    first. *)
Definition longest_first : str -> N :=
  fun s => if Nat.leb 2 (List.length s) then 0%N else 1%N.

(** ** Documents and rows *)

(** The texts of a document in the order [read_docx_text] reads them. *)
Definition texts_of (doc : document) : list str :=
  paragraphs doc
  ++ flat_map (fun tbl => flat_map (fun row => row) tbl) (tables doc).

(** A document of two paragraphs and one table, without a digit. *)
Definition plain_doc : document :=
  Document [lit "No citation here."; lit ""]
           [[[lit "a"; lit "b"]; [lit "c"]]].

(** The columns a frame is sorted by. *)
Definition row_key (r : row) : str * str := (Type_ r, Citation r).

(* ================================================================== *)
(** * Properties of the built-ins *)
(* ================================================================== *)

Lemma str_eqb_eq (a b : str) : str_eqb a b = true <-> a = b.
Proof.
  revert b; induction a as [|x a IH]; intros [|y b]; simpl;
    try (split; intro H; congruence).
  rewrite andb_true_iff, N.eqb_eq, IH.
  split; [intros [-> ->]; reflexivity | intros H; inversion H; auto].
Qed.

Lemma str_eqb_refl (a : str) : str_eqb a a = true.
Proof. apply str_eqb_eq; reflexivity. Qed.

Lemma mem_In (x : str) (l : list str) : mem x l = true <-> In x l.
Proof.
  unfold mem; rewrite existsb_exists; split.
  - intros (y & Hy & E); apply str_eqb_eq in E; subst; assumption.
  - intros H; exists x; split; [assumption | apply str_eqb_refl].
Qed.

Lemma mem_false (x : str) (l : list str) : mem x l = false <-> ~ In x l.
Proof.
  rewrite <- mem_In; destruct (mem x l); split; congruence.
Qed.

Module PyFacts.
Import Py.

Lemma lstrip_by_suffix p s : exists w, s = w ++ lstrip_by p s /\ forallb p w = true.
Proof.
  induction s as [|c s IH]; simpl.
  - exists []; auto.
  - destruct (p c) eqn:E.
    + destruct IH as (w & Hw & Hp); exists (c :: w); simpl.
      rewrite E, Hp, <- Hw; auto.
    + exists []; auto.
Qed.

Lemma lstrip_by_head p s c t : lstrip_by p s = c :: t -> p c = false.
Proof.
  induction s as [|x s IH]; simpl; [discriminate|].
  destruct (p x) eqn:E; [exact IH|].
  intros H; inversion H; subst; exact E.
Qed.

Lemma lstrip_by_fix p c t : p c = false -> lstrip_by p (c :: t) = c :: t.
Proof. intros H; simpl; rewrite H; reflexivity. Qed.

(** What is left after [strip] neither starts nor ends with a stripped
    character. *)
Lemma strip_by_head p s c t : strip_by p s = c :: t -> p c = false.
Proof.
  unfold strip_by, rstrip_by; intros H.
  destruct (lstrip_by p s) as [|x u] eqn:E.
  - discriminate H.
  - pose proof (lstrip_by_head _ _ _ _ E) as Hx.
    destruct (lstrip_by_suffix p (rev (x :: u))) as (w & Hw & _).
    apply (f_equal (@rev char)) in Hw.
    rewrite rev_involutive, rev_app_distr, H in Hw.
    simpl in Hw; inversion Hw; subst; exact Hx.
Qed.

Lemma strip_by_last p s u c : strip_by p s = u ++ [c] -> p c = false.
Proof.
  unfold strip_by, rstrip_by; intros H.
  apply (f_equal (@rev char)) in H.
  rewrite rev_involutive, rev_app_distr in H; simpl in H.
  exact (lstrip_by_head _ _ _ _ H).
Qed.

(** [strip] leaves alone a string that has nothing to strip. *)
Lemma strip_by_fix p c u d :
  p c = false -> p d = false -> strip_by p (c :: u ++ [d]) = c :: u ++ [d].
Proof.
  intros Hc Hd; unfold strip_by, rstrip_by.
  rewrite (lstrip_by_fix _ _ _ Hc).
  replace (rev (c :: u ++ [d])) with (d :: rev (c :: u))
    by (change (c :: u ++ [d]) with ((c :: u) ++ [d]);
        rewrite rev_app_distr; reflexivity).
  rewrite (lstrip_by_fix _ _ _ Hd).
  change (d :: rev (c :: u)) with (rev [d] ++ rev (c :: u)).
  rewrite <- rev_app_distr, rev_involutive; reflexivity.
Qed.

End PyFacts.

(* ================================================================== *)
(** * Deduplication *)
(* ================================================================== *)

Lemma StronglySorted_weaken {A} (R R' : A -> A -> Prop) (l : list A) :
  (forall a b, In a l -> In b l -> R a b -> R' a b) ->
  StronglySorted R l -> StronglySorted R' l.
Proof.
  intros H S; induction S as [|a l S IH F]; constructor.
  - apply IH; intros x y Hx Hy; apply H; right; assumption.
  - rewrite Forall_forall in *; intros x Hx.
    apply H; [left; reflexivity | right; assumption | apply F; assumption].
Qed.

Lemma uniq_from_In seen l x :
  In x (uniq_from seen l) <-> In x l /\ ~ In x seen.
Proof.
  revert seen; induction l as [|y l IH]; intros seen; simpl.
  - tauto.
  - destruct (mem y seen) eqn:E.
    + apply mem_In in E; rewrite IH.
      split; [tauto|]. intros [[->|H] N]; tauto.
    + apply mem_false in E; simpl; rewrite IH; simpl.
      split.
      * intros [->|[H N]]; [tauto|]. split; [tauto|]. intros H'; apply N; tauto.
      * intros [[->|H] N]; [tauto|].
        destruct (list_eq_dec N.eq_dec y x) as [->|D]; [tauto|].
        right; split; [assumption|]. intros [?|?]; tauto.
Qed.

Lemma uniq_from_NoDup seen l : NoDup (uniq_from seen l).
Proof.
  revert seen; induction l as [|y l IH]; intros seen; simpl.
  - constructor.
  - destruct (mem y seen) eqn:E; [apply IH|].
    constructor; [|apply IH].
    rewrite uniq_from_In; simpl; tauto.
Qed.

Lemma first_index_cons_neq x y l :
  x <> y -> first_index x (y :: l) = S (first_index x l).
Proof.
  intros D; simpl. destruct (str_eqb x y) eqn:E; [|reflexivity].
  apply str_eqb_eq in E; contradiction.
Qed.

Lemma uniq_from_order seen l :
  StronglySorted (fun a b => first_index a l < first_index b l)
                 (uniq_from seen l).
Proof.
  revert seen; induction l as [|y l IH]; intros seen; simpl uniq_from.
  - constructor.
  - destruct (mem y seen) eqn:E.
    + apply mem_In in E.
      apply StronglySorted_weaken with (2 := IH seen).
      intros a b Ha Hb Hab.
      apply uniq_from_In in Ha, Hb.
      rewrite !first_index_cons_neq by (intros ->; tauto). lia.
    + constructor.
      * apply StronglySorted_weaken with (2 := IH (y :: seen)).
        intros a b Ha Hb Hab.
        apply uniq_from_In in Ha, Hb; simpl in Ha, Hb.
        rewrite !first_index_cons_neq by (intros ->; tauto). lia.
      * rewrite Forall_forall; intros b Hb.
        apply uniq_from_In in Hb; simpl in Hb.
        rewrite (first_index_cons_neq b y) by (intros ->; tauto).
        simpl; rewrite str_eqb_refl; lia.
Qed.

(** [dedupe] keeps, in order of first occurrence, the distinct non-empty
    strings among the stripped candidates. *)
Lemma dedupe_fold seq seen out :
  snd (fold_left dedupe_step seq (seen, out))
  = out ++ uniq_from seen (filter nonempty (List.map Py.strip seq)).
Proof.
  revert seen out; induction seq as [|s seq IH]; intros seen out; simpl.
  - rewrite app_nil_r; reflexivity.
  - destruct (Py.strip s) as [|c t] eqn:E; simpl.
    + apply IH.
    + destruct (mem (c :: t) seen) eqn:M; simpl.
      * apply IH.
      * rewrite IH, <- app_assoc; reflexivity.
Qed.

Lemma dedupe_uniq seq :
  dedupe seq = uniq (filter nonempty (List.map Py.strip seq)).
Proof. unfold dedupe; rewrite dedupe_fold; reflexivity. Qed.

Lemma dedupe_NoDup seq : NoDup (dedupe seq).
Proof. rewrite dedupe_uniq; apply uniq_from_NoDup. Qed.

Lemma dedupe_In seq x :
  In x (dedupe seq) <-> x <> [] /\ In x (List.map Py.strip seq).
Proof.
  rewrite dedupe_uniq; unfold uniq; rewrite uniq_from_In, filter_In.
  destruct x; simpl; split; intros H; intuition congruence.
Qed.

Lemma first_index_filter x y l :
  x <> [] -> y <> [] ->
  first_index x (filter nonempty l) < first_index y (filter nonempty l) ->
  first_index x l < first_index y l.
Proof.
  intros Hx Hy; induction l as [|h l IH]; simpl; [lia|].
  destruct h as [|c t]; simpl.
  - destruct (str_eqb x []) eqn:E1; [apply str_eqb_eq in E1; contradiction|].
    destruct (str_eqb y []) eqn:E2; [apply str_eqb_eq in E2; contradiction|].
    intros H; apply IH in H; lia.
  - destruct (str_eqb x (c :: t)), (str_eqb y (c :: t)); lia.
Qed.

Lemma dedupe_order seq :
  StronglySorted
    (fun a b => first_index a (List.map Py.strip seq)
                < first_index b (List.map Py.strip seq))
    (dedupe seq).
Proof.
  apply StronglySorted_weaken
    with (R := fun a b =>
                 first_index a (filter nonempty (List.map Py.strip seq))
                 < first_index b (filter nonempty (List.map Py.strip seq))).
  - intros a b Ha Hb; apply dedupe_In in Ha, Hb.
    apply first_index_filter; tauto.
  - rewrite dedupe_uniq; apply uniq_from_order.
Qed.

(* ================================================================== *)
(** * The rows and their counts *)
(* ================================================================== *)

Lemma counter_get_incr c k k' :
  counter_get (counter_incr c k) k'
  = if str_eqb k' k then S (counter_get c k') else counter_get c k'.
Proof.
  induction c as [|[k0 n] c IH]; simpl.
  - destruct (str_eqb k' k); reflexivity.
  - destruct (str_eqb k k0) eqn:E; simpl.
    + apply str_eqb_eq in E; subst k0.
      destruct (str_eqb k' k); reflexivity.
    + destruct (str_eqb k' k0) eqn:E'.
      * apply str_eqb_eq in E'; subst k0.
        destruct (str_eqb k' k) eqn:E''; [|reflexivity].
        apply str_eqb_eq in E''; subst k'; rewrite str_eqb_refl in E; discriminate.
      * apply IH.
Qed.

Lemma count_citations_fold (rows : list (str * str)) c k :
  counter_get (fold_left (fun counts r => counter_incr counts (snd r)) rows c) k
  = counter_get c k + occurrences k (List.map snd rows).
Proof.
  revert c; induction rows as [|[ty cit] rows IH]; intros c; simpl.
  - unfold occurrences; simpl; lia.
  - rewrite IH, counter_get_incr; unfold occurrences; simpl.
    destruct (str_eqb k cit); simpl; lia.
Qed.

Lemma occurrences_app k l1 l2 :
  occurrences k (l1 ++ l2) = occurrences k l1 + occurrences k l2.
Proof. unfold occurrences; rewrite filter_app, length_app; reflexivity. Qed.

Lemma occurrences_NoDup k l :
  NoDup l -> occurrences k l = if mem k l then 1 else 0.
Proof.
  unfold occurrences; induction 1 as [|x l Hx ND IH]; simpl; [reflexivity|].
  destruct (str_eqb k x) eqn:E; simpl.
  - apply str_eqb_eq in E; subst x. rewrite IH.
    apply mem_false in Hx; rewrite Hx; reflexivity.
  - exact IH.
Qed.

Lemma flatten_citations buckets :
  List.map snd (flatten buckets) = concat (List.map snd buckets).
Proof.
  unfold flatten; induction buckets as [|[k l] b IH]; simpl; [reflexivity|].
  rewrite map_app, IH, map_map; simpl; rewrite map_id; reflexivity.
Qed.

Lemma occurrences_families k buckets :
  Forall (fun kv => NoDup (snd kv)) buckets ->
  occurrences k (concat (List.map snd buckets)) = families_with k buckets.
Proof.
  unfold families_with; induction 1 as [|[f l] b ND _ IH]; simpl; [reflexivity|].
  rewrite occurrences_app, IH, (occurrences_NoDup _ _ ND); simpl.
  destruct (mem k l); reflexivity.
Qed.

(** In every row the count is the number of families that list the
    row's citation. *)
Lemma extract_rows_count buckets r :
  Forall (fun kv => NoDup (snd kv)) buckets ->
  In r (extract_rows buckets) ->
  Count r = families_with (Citation r) buckets
  /\ 1 <= Count r <= List.length buckets.
Proof.
  intros ND Hr; unfold extract_rows in Hr.
  apply in_map_iff in Hr; destruct Hr as ([ty cit] & <- & Hin); simpl.
  unfold count_citations.
  rewrite count_citations_fold, flatten_citations, occurrences_families by assumption.
  simpl; split; [reflexivity|].
  unfold families_with; split.
  - unfold flatten in Hin; apply in_flat_map in Hin.
    destruct Hin as ([f l] & Hfl & Hit); simpl in Hit.
    apply in_map_iff in Hit; destruct Hit as (it & E & Hit); inversion E; subst.
    assert (In (f, l) (filter (fun kv => mem cit (snd kv)) buckets)) as H.
    { apply filter_In; split; [assumption|]. simpl; apply mem_In; assumption. }
    destruct (filter _ buckets); [contradiction | simpl; lia].
  - apply filter_length_le.
Qed.

(* ================================================================== *)
(** * Sorting *)
(* ================================================================== *)

Section Sorting.

Context {A : Type} (lt : A -> A -> bool).

Lemma insert_by_perm x l : Permutation (insert_by lt x l) (x :: l).
Proof.
  induction l as [|y l IH]; simpl; [reflexivity|].
  destruct (lt y x); [|reflexivity].
  rewrite IH; apply perm_swap.
Qed.

Lemma sort_by_perm l : Permutation (sort_by lt l) l.
Proof.
  induction l as [|x l IH]; simpl; [reflexivity|].
  rewrite insert_by_perm; constructor; exact IH.
Qed.

Lemma sort_by_In l x : In x (sort_by lt l) <-> In x l.
Proof.
  split; apply Permutation_in;
    [apply sort_by_perm | symmetry; apply sort_by_perm].
Qed.

(** On a set where [lt] is asymmetric and its complement transitive,
    the sort puts no element before a smaller one. *)
Variable dom : A -> Prop.
Hypothesis lt_asym : forall a b, dom a -> dom b -> lt a b = true -> lt b a = false.
Hypothesis le_trans : forall a b c, dom a -> dom b -> dom c ->
  lt b a = false -> lt c b = false -> lt c a = false.

Lemma insert_by_ascending x l :
  dom x -> Forall dom l -> ascending lt l -> ascending lt (insert_by lt x l).
Proof.
  intros Hx Hl S; induction S as [|y l S IH F]; simpl.
  - repeat constructor.
  - inversion Hl as [|? ? Hy Hl']; subst.
    destruct (lt y x) eqn:E.
    + constructor; [apply IH; assumption|].
      rewrite Forall_forall; intros z Hz.
      apply (Permutation_in _ (insert_by_perm x l)) in Hz.
      destruct Hz as [<-|Hz]; [apply lt_asym; assumption|].
      rewrite Forall_forall in F; apply F; assumption.
    + constructor; [constructor; assumption|].
      constructor; [assumption|].
      rewrite Forall_forall in *; intros z Hz.
      apply le_trans with (b := y); auto.
Qed.

Lemma sort_by_ascending l : Forall dom l -> ascending lt (sort_by lt l).
Proof.
  induction 1 as [|x l Hx Hl IH]; simpl; [constructor|].
  apply insert_by_ascending; [assumption| |assumption].
  rewrite Forall_forall in *; intros z Hz; apply Hl, sort_by_In, Hz.
Qed.

End Sorting.

Lemma str_ltb_asym a b : str_ltb a b = true -> str_ltb b a = false.
Proof.
  revert b; induction a as [|x a IH]; intros [|y b]; simpl; try congruence.
  destruct (N.ltb_spec x y), (N.ltb_spec y x), (N.eqb_spec x y), (N.eqb_spec y x);
    simpl; try lia; try congruence.
  apply IH.
Qed.

Lemma str_leb_trans a b c :
  str_ltb b a = false -> str_ltb c b = false -> str_ltb c a = false.
Proof.
  revert b c; induction a as [|x a IH]; intros [|y b] [|z c]; simpl;
    try congruence.
  destruct (N.ltb_spec y x), (N.ltb_spec z y), (N.ltb_spec z x),
    (N.eqb_spec y x), (N.eqb_spec z y), (N.eqb_spec z x);
    simpl; try lia; try congruence.
  apply IH.
Qed.

Lemma map_result_Ok {A B} (f : A -> result B) l out :
  map_result f l = Ok out -> Forall2 (fun x y => f x = Ok y) l out.
Proof.
  revert out; induction l as [|x l IH]; simpl; intros out H.
  - inversion H; constructor.
  - destruct (f x) as [y|] eqn:E; simpl in H; [|discriminate].
    destruct (map_result f l) as [ys|]; simpl in H; [|discriminate].
    inversion H; subst; constructor; auto.
Qed.

(** What [sorted] returns, when it returns: the same strings, so ordered
    that no key is followed by a smaller one; all keys are of one kind. *)
Lemma sorted_Ok key l out :
  sorted key l = Ok out ->
  exists keys,
    Forall2 (fun x k => key x = Ok k) out keys
    /\ Permutation out l
    /\ (Forall (fun k => key_is_int k = true) keys
        \/ Forall (fun k => key_is_int k = false) keys)
    /\ StronglySorted (fun a b => key_ltb b a = false) keys.
Proof.
  unfold sorted; intros H.
  destruct (map_result _ l) as [keyed|] eqn:E; simpl in H; [|discriminate].
  apply map_result_Ok in E.
  destruct (forallb key_is_int (List.map fst keyed)
            || forallb (fun k => negb (key_is_int k)) (List.map fst keyed)) eqn:Hom;
    [|discriminate].
  inversion H; subst out; clear H.
  set (cmp := fun a b : sort_key * str => key_ltb (fst a) (fst b)).
  assert (Hk : Forall (fun p => key (snd p) = Ok (fst p)) keyed).
  { clear Hom; induction E as [|x [k y] l keyed Hx E IH]; constructor; auto.
    simpl; destruct (key x) eqn:K; simpl in Hx; inversion Hx; subst; exact K. }
  assert (Hl : List.map snd keyed = l).
  { clear Hom Hk; induction E as [|x [k y] l keyed Hx E IH]; simpl; [reflexivity|].
    destruct (key x); simpl in Hx; inversion Hx; subst; f_equal; exact IH. }
  exists (List.map fst (sort_by cmp keyed)).
  assert (P : Permutation (sort_by cmp keyed) keyed) by apply sort_by_perm.
  split; [|split; [|split]].
  - assert (Hk' : Forall (fun p => key (snd p) = Ok (fst p)) (sort_by cmp keyed)).
    { rewrite Forall_forall in *; intros p Hp; apply Hk, (Permutation_in _ P), Hp. }
    clear - Hk'; revert Hk'; generalize (sort_by cmp keyed); intros ps Hps.
    induction Hps; simpl; constructor; auto.
  - rewrite <- Hl; apply Permutation_map; exact P.
  - apply orb_true_iff in Hom; destruct Hom as [Hom|Hom]; [left|right];
      rewrite forallb_forall in Hom; rewrite Forall_forall; intros k Hk0;
      apply in_map_iff in Hk0; destruct Hk0 as (p & <- & Hp);
      apply (Permutation_in _ P) in Hp;
      specialize (Hom (fst p) (in_map fst _ _ Hp)).
    + exact Hom.
    + destruct (key_is_int (fst p)); [discriminate|reflexivity].
  - assert (S : ascending cmp (sort_by cmp keyed)).
    { apply orb_true_iff in Hom; destruct Hom as [Hom|Hom];
        rewrite forallb_forall in Hom.
      - apply sort_by_ascending
          with (dom := fun p => key_is_int (fst p) = true).
        + intros [[a|a] x] [[b|b] y]; simpl; try discriminate.
          unfold cmp; simpl; intros _ _ H; apply Z.ltb_lt in H; apply Z.ltb_ge; lia.
        + intros [[a|a] x] [[b|b] y] [[c|c] z]; simpl; try discriminate.
          unfold cmp; simpl; intros _ _ _ H1 H2.
          apply Z.ltb_ge in H1, H2; apply Z.ltb_ge; lia.
        + rewrite Forall_forall; intros p Hp; apply Hom, in_map, Hp.
      - apply sort_by_ascending
          with (dom := fun p => key_is_int (fst p) = false).
        + intros [[a|a] x] [[b|b] y]; simpl; try discriminate.
          unfold cmp; simpl; intros _ _; apply str_ltb_asym.
        + intros [[a|a] x] [[b|b] y] [[c|c] z]; simpl; try discriminate.
          unfold cmp; simpl; intros _ _ _; apply str_leb_trans.
        + rewrite Forall_forall; intros p Hp.
          specialize (Hom _ (in_map fst _ _ Hp)).
          destruct (key_is_int (fst p)); [discriminate|reflexivity]. }
    unfold ascending in S; clear - S.
    induction S as [|p ps S IH F]; simpl; constructor; [exact IH|].
    rewrite Forall_forall in *; intros k Hk.
    apply in_map_iff in Hk; destruct Hk as (q & <- & Hq); apply (F q Hq).
Qed.

(* ================================================================== *)
(** * What a match tells about the text *)
(* ================================================================== *)

Module ReFacts.
Import Re ReSpec.

(** Every success of the matcher is a success of its continuation
    after some way through the pattern. *)
Theorem rmatch_sound r :
  forall (A : Type) (k : mstate -> option A) st a,
    rmatch r k st = Some a ->
    exists st', run r st st' /\ k st' = Some a.
Proof.
  induction r as [|p|r1 IH1 r2 IH2|r1 IH1 r2 IH2|g r IH|i r IH| |];
    intros A k st a H; simpl in H.
  - exists st; split; [constructor | assumption].
  - destruct (m_rest st) as [|c rest] eqn:E; [discriminate|].
    destruct (p c) eqn:P; [|discriminate].
    exists (advance st rest); split; [apply run_chr with (c := c); assumption | assumption].
  - apply IH1 in H; destruct H as (st1 & R1 & H).
    apply IH2 in H; destruct H as (st2 & R2 & H).
    exists st2; split; [econstructor; eassumption | assumption].
  - destruct (rmatch r1 k st) as [a'|] eqn:E.
    + inversion H; subst a'.
      apply IH1 in E; destruct E as (st' & R & E).
      exists st'; split; [apply run_alt_l; assumption | assumption].
    + apply IH2 in H; destruct H as (st' & R & H).
      exists st'; split; [apply run_alt_r; assumption | assumption].
  - revert a H; generalize (List.length (m_rest st)); intros n; revert st.
    induction n as [|n IHn]; intros st a H; simpl in H.
    + exists st; split; [constructor | assumption].
    + assert (Again : forall a0,
                 rmatch r (fun st' => if Nat.ltb (m_pos st) (m_pos st')
                                      then star_loop (rmatch r) g k n st'
                                      else None) st = Some a0 ->
                 exists st', run (Star g r) st st' /\ k st' = Some a0).
      { intros a0 Ha. apply IH in Ha; destruct Ha as (st1 & R1 & Ha).
        destruct (Nat.ltb (m_pos st) (m_pos st1)); [|discriminate].
        apply IHn in Ha; destruct Ha as (st2 & R2 & Ha).
        exists st2; split; [econstructor; eassumption | assumption]. }
      destruct g.
      * destruct (rmatch r _ st) as [a'|] eqn:E.
        -- inversion H; subst a'; apply Again; reflexivity.
        -- exists st; split; [constructor | assumption].
      * destruct (k st) as [a'|] eqn:E.
        -- inversion H; subst a'.
           exists st; split; [constructor | assumption].
        -- apply Again; exact H.
  - apply IH in H; destruct H as (st' & R & H).
    eexists; split; [apply run_grp; eassumption | assumption].
  - destruct (Nat.eqb (m_pos st) 0) eqn:E; [|discriminate].
    apply Nat.eqb_eq in E.
    exists st; split; [constructor; assumption | assumption].
  - destruct (at_end (m_rest st)) eqn:E; [|discriminate].
    exists st; split; [constructor; assumption | assumption].
Qed.

(** A way through a pattern consumes one of its words. *)
Lemma run_consumes r st st' :
  run r st st' ->
  exists w, m_rest st = w ++ m_rest st'
            /\ m_pos st' = m_pos st + List.length w
            /\ lang r w.
Proof.
  induction 1 as [st|p c rest st E P|r1 r2 st st1 st2 _ IH1 _ IH2
                  |r1 r2 st st' _ IH|r1 r2 st st' _ IH|g r st
                  |g r st st1 st2 _ IH1 _ IH2|i r st st' _ IH|st E|st E].
  - exists []; simpl; repeat split; [lia | constructor].
  - exists [c]; simpl; repeat split; [assumption | lia | constructor; assumption].
  - destruct IH1 as (w1 & E1 & P1 & L1), IH2 as (w2 & E2 & P2 & L2).
    exists (w1 ++ w2); rewrite <- app_assoc, <- E2, length_app.
    repeat split; [assumption | lia | constructor; assumption].
  - destruct IH as (w & E & P & L); exists w; repeat split; auto.
    apply lang_alt_l; assumption.
  - destruct IH as (w & E & P & L); exists w; repeat split; auto.
    apply lang_alt_r; assumption.
  - exists []; simpl; repeat split; [lia | constructor].
  - destruct IH1 as (w1 & E1 & P1 & L1), IH2 as (w2 & E2 & P2 & L2).
    exists (w1 ++ w2); rewrite <- app_assoc, <- E2, length_app.
    repeat split; [assumption | lia | constructor; assumption].
  - destruct IH as (w & E & P & L); exists w; simpl; repeat split; auto.
    constructor; assumption.
  - exists []; simpl; repeat split; [lia | constructor].
  - exists []; simpl; repeat split; [lia | constructor].
Qed.

(** *** Inversion of the language of the pattern forms *)

Lemma lang_eps_inv w : lang Eps w -> w = [].
Proof. inversion 1; reflexivity. Qed.

Lemma lang_chr_inv p w : lang (Chr p) w -> exists c, w = [c] /\ p c = true.
Proof. inversion 1; subst; eauto. Qed.

Lemma lang_seq_inv r1 r2 w :
  lang (Seq r1 r2) w ->
  exists w1 w2, w = w1 ++ w2 /\ lang r1 w1 /\ lang r2 w2.
Proof. inversion 1; subst; eauto. Qed.

Lemma lang_alt_inv r1 r2 w : lang (Alt r1 r2) w -> lang r1 w \/ lang r2 w.
Proof. inversion 1; subst; auto. Qed.

Lemma lang_opt_inv r w : lang (opt r) w -> lang r w \/ w = [].
Proof.
  intros H; apply lang_alt_inv in H; destruct H as [H|H]; auto.
  right; apply lang_eps_inv; assumption.
Qed.

Lemma lang_star_inv g r w :
  lang (Star g r) w ->
  exists ws, w = List.concat ws /\ Forall (lang r) ws.
Proof.
  intros H; remember (Star g r) as r0 eqn:E.
  induction H as [|p c P|r1 r2 w1 w2 _ _ _ _|r1 r2 w _ _|r1 r2 w _ _
                  |g' r'|g' r' w1 w2 H1 _ H2 IH2|i r' w _ _| |];
    try discriminate.
  - exists []; split; [reflexivity | constructor].
  - inversion E; subst g' r'; clear E.
    destruct (IH2 eq_refl) as (ws & -> & F).
    exists (w1 :: ws); split; [reflexivity | constructor; assumption].
Qed.

Lemma lang_star_chr g p w :
  lang (Star g (Chr p)) w -> forallb p w = true.
Proof.
  intros H; apply lang_star_inv in H; destruct H as (ws & -> & F).
  induction F as [|w ws H _ IH]; simpl; [reflexivity|].
  apply lang_chr_inv in H; destruct H as (c & -> & P); simpl.
  rewrite P, IH; reflexivity.
Qed.

Lemma lang_plus_chr p w :
  lang (plus (Chr p)) w ->
  exists c t, w = c :: t /\ p c = true /\ forallb p t = true.
Proof.
  intros H; apply lang_seq_inv in H; destruct H as (w1 & w2 & -> & H1 & H2).
  apply lang_chr_inv in H1; destruct H1 as (c & -> & P).
  apply lang_star_chr in H2; exists c, w2; auto.
Qed.

Lemma lang_chars cs w : lang (seqs (List.map chr cs)) w -> w = cs.
Proof.
  revert w; induction cs as [|c cs IH]; intros w H.
  - apply lang_eps_inv; assumption.
  - destruct cs as [|d cs].
    + simpl in H; apply lang_chr_inv in H; destruct H as (x & -> & E).
      apply N.eqb_eq in E; subst; reflexivity.
    + change (seqs (List.map chr (c :: d :: cs)))
        with (Seq (chr c) (seqs (List.map chr (d :: cs)))) in H.
      apply lang_seq_inv in H; destruct H as (w1 & w2 & -> & H1 & H2).
      apply lang_chr_inv in H1; destruct H1 as (x & -> & E).
      apply N.eqb_eq in E; subst x.
      rewrite (IH _ H2); reflexivity.
Qed.

Lemma lang_text s w : lang (text s) w -> w = lit s.
Proof. apply lang_chars. Qed.

(** *** Groups *)

Lemma run_groups_free r st st' :
  run r st st' -> groups_free r = true -> m_groups st' = m_groups st.
Proof.
  induction 1; simpl; intros G; try reflexivity;
    try (apply andb_true_iff in G; destruct G as [G1 G2]);
    try discriminate; auto.
  - rewrite IHrun2, IHrun1; auto.
  - rewrite IHrun2, IHrun1; auto.
Qed.

(** A group holds a word of its pattern. *)
Lemma run_grp_inv i r st st2 :
  run (Grp i r) st st2 ->
  exists w st',
    run r st st' /\ lang r w /\ m_rest st = w ++ m_rest st'
    /\ st2 = set_group i w st'.
Proof.
  inversion 1 as [| | | | | | |i' r' st0 st' R| |]; subst.
  destruct (run_consumes _ _ _ R) as (w & E & P & L).
  exists w, st'; repeat split; auto.
  rewrite E, P.
  replace (m_pos st + List.length w - m_pos st) with (List.length w + 0) by lia.
  rewrite firstn_app_2; simpl; rewrite app_nil_r; reflexivity.
Qed.

Lemma run_seq_inv r1 r2 st st2 :
  run (Seq r1 r2) st st2 -> exists st1, run r1 st st1 /\ run r2 st1 st2.
Proof. inversion 1; subst; eauto. Qed.

(** *** The scan *)

Lemma match_at_sound r pos s adv st :
  match_at r pos s adv = Some st -> run r (MState pos s []) st.
Proof.
  unfold match_at; intros H; apply rmatch_sound in H.
  destruct H as (st' & R & H).
  destruct (adv && Nat.eqb (m_pos st') pos); [discriminate|].
  inversion H; subst; assumption.
Qed.

(** Every match found by a scan comes from a successful attempt. *)
Lemma scan_hits r s :
  forall pos skip m,
    In m (hits (scan r pos s skip)) ->
    exists pos' s' adv st,
      match_at r pos' s' adv = Some st /\ m = mk_match pos' s' st.
Proof.
  induction s as [|c s IH]; intros pos skip m.
  - simpl. destruct skip; [|intros []].
    destruct (match_at r pos [] false) as [st|] eqn:E; [|intros []].
    destruct (Nat.eqb (m_pos st) pos).
    + simpl; intros [<-|H]; [eauto 6|].
      destruct (match_at r pos [] true) as [st2|] eqn:E2; [|destruct H].
      destruct H as [<-|[]]; eauto 6.
    + simpl; intros [<-|[]]; eauto 6.
  - simpl. destruct skip as [|k]; [|apply IH].
    destruct (match_at r pos (c :: s) false) as [st|] eqn:E.
    + destruct (Nat.eqb (m_pos st) pos).
      * simpl; intros [<-|H]; [eauto 6|].
        destruct (match_at r pos (c :: s) true) as [st2|] eqn:E2.
        -- destruct H as [<-|H]; [eauto 6 | eapply IH; eassumption].
        -- simpl in H; eapply IH; eassumption.
      * simpl; intros [<-|H]; [eauto 6 | eapply IH; eassumption].
    + simpl; apply IH.
Qed.

Lemma finditer_sound r s m :
  In m (finditer r s) ->
  exists pos s' st,
    run r (MState pos s' []) st /\ m = mk_match pos s' st.
Proof.
  intros H; apply scan_hits in H.
  destruct H as (pos & s' & adv & st & H & ->).
  apply match_at_sound in H; eauto.
Qed.

(** Where no attempt succeeds, nothing is found and [sub] changes
    nothing. *)
Lemma scan_no_hit r s :
  forall pos,
    (forall x s', s = x ++ s' ->
                  match_at r (pos + List.length x) s' false = None) ->
    scan r pos s 0 = List.map Skipped s.
Proof.
  induction s as [|c s IH]; intros pos H.
  - simpl. specialize (H [] [] eq_refl); simpl in H.
    rewrite Nat.add_0_r in H; rewrite H; reflexivity.
  - simpl. pose proof (H [] (c :: s) eq_refl) as H0; simpl in H0.
    rewrite Nat.add_0_r in H0; rewrite H0.
    f_equal; apply IH.
    intros x s' E. specialize (H (c :: x) s'); simpl in H.
    rewrite <- Nat.add_succ_comm in H; apply H; rewrite E; reflexivity.
Qed.

Lemma substitute_skipped repl s : substitute repl (List.map Skipped s) = s.
Proof. induction s; simpl; congruence. Qed.

End ReFacts.

(* ================================================================== *)
(** * Facts about the character tables *)
(* ================================================================== *)

Ltac bool_to_prop :=
  repeat match goal with
    | H : _ || _ = true |- _ => apply orb_true_iff in H
    | H : _ && _ = true |- _ => apply andb_true_iff in H
    | H : _ \/ _ |- _ => destruct H
    | H : _ /\ _ |- _ => destruct H
    | H : N.leb _ _ = true |- _ => apply N.leb_le in H
    | H : N.eqb _ _ = true |- _ => apply N.eqb_eq in H
    | H : false = true |- _ => discriminate H
    end.

Ltac unfold_tables :=
  cbv [Unicode.isspace Unicode.in_ranges Unicode.space_table existsb
       Unicode.in_range fst snd name_char Unicode.is_lower_ascii
       Unicode.is_upper_ascii] in *.

(** [table_fact] settles [p c = true -> q c = false] for tests [p], [q]
    made of comparisons with constants. *)
Ltac table_fact :=
  intros;
  match goal with
  | |- ?q = false => destruct q eqn:?Q; [exfalso | reflexivity]
  end;
  unfold_tables; bool_to_prop; subst; try lia; try discriminate.

Lemma name_char_not_space c : name_char c = true -> Unicode.isspace c = false.
Proof. table_fact. Qed.

Lemma upper_not_space c :
  Unicode.in_range 65 90 c = true -> Unicode.isspace c = false.
Proof. table_fact. Qed.

Lemma upper_not_a c : Unicode.in_range 65 90 c = true -> N.eqb c 97 = false.
Proof. table_fact. Qed.

Lemma space_not_a c : Unicode.isspace c = true -> N.eqb c 97 = false.
Proof. table_fact. Qed.

(* ================================================================== *)
(** * The narrative extractor *)
(* ================================================================== *)

Section Narrative.
Import Re ReSpec ReFacts.

(** The name and the year of a match are words of their patterns. *)
Lemma narrative_groups text m :
  In m (finditer narrative_re text) ->
  lang narrative_name (group m 1) /\ lang RE_YEAR (group m 2).
Proof.
  intros H; apply finditer_sound in H.
  destruct H as (pos & s' & st & R & ->).
  cbn [narrative_re seqs] in R.
  apply run_seq_inv in R; destruct R as (st1 & R1 & R).
  apply run_seq_inv in R; destruct R as (st2 & R2 & R).
  apply run_seq_inv in R; destruct R as (st3 & R3 & R).
  apply run_seq_inv in R; destruct R as (st4 & R4 & R).
  apply run_seq_inv in R; destruct R as (st5 & R5 & R).
  apply run_seq_inv in R; destruct R as (st6 & R6 & R7).
  apply run_grp_inv in R1; destruct R1 as (w & st0 & R0 & L1 & _ & ->).
  apply run_grp_inv in R5; destruct R5 as (y & st4' & R5 & L2 & _ & ->).
  apply run_groups_free in R0, R2, R3, R4, R5, R6, R7; try reflexivity.
  unfold group, mk_match; simpl in *.
  rewrite R7, R6, R5, R4, R3, R2, R0; simpl.
  split; assumption.
Qed.

Lemma starts_an_head c t : N.eqb c 97 = false -> starts_an (c :: t) = false.
Proof. intros H; destruct t; simpl; [|rewrite H]; reflexivity. Qed.

Lemma blank_an_suffix x s : blank_an s = true -> blank_an (x ++ s) = true.
Proof.
  intros H; induction x as [|c x IH]; simpl; [assumption|].
  rewrite IH; apply orb_true_r.
Qed.

Lemma blank_an_no_blank a b :
  forallb (fun c => negb (Unicode.isspace c)) a = true ->
  blank_an (a ++ b) = blank_an b.
Proof.
  induction a as [|c a IH]; simpl; [reflexivity|].
  intros H; apply andb_true_iff in H; destruct H as [Hc Ha].
  destruct (Unicode.isspace c); [discriminate|]. simpl; auto.
Qed.

Lemma blank_an_blanks a b :
  forallb Unicode.isspace a = true -> starts_an b = false ->
  blank_an (a ++ b) = blank_an b.
Proof.
  intros Ha Hb; induction a as [|c a IH]; simpl; [reflexivity|].
  simpl in Ha; apply andb_true_iff in Ha; destruct Ha as [Hc Ha].
  rewrite (IH Ha).
  replace (starts_an (a ++ b)) with false; [rewrite andb_false_r; reflexivity|].
  destruct a as [|d a]; simpl; [symmetry; assumption|].
  simpl in Ha; apply andb_true_iff in Ha; destruct Ha as [Hd _].
  symmetry; apply starts_an_head, space_not_a, Hd.
Qed.

Lemma blank_an_start ws t :
  ws <> [] -> forallb Unicode.isspace ws = true ->
  blank_an (ws ++ 97%N :: 110%N :: t) = true.
Proof.
  induction ws as [|c ws IH]; [congruence|]. intros _ H.
  simpl in H; apply andb_true_iff in H; destruct H as [Hc Hws].
  destruct ws as [|d ws].
  - simpl; rewrite Hc; reflexivity.
  - change ((c :: d :: ws) ++ 97%N :: 110%N :: t)
      with (c :: ((d :: ws) ++ 97%N :: 110%N :: t)).
    cbn [blank_an]. rewrite IH by (congruence || assumption).
    apply orb_true_r.
Qed.

Lemma name_no_blank w :
  lang RE_NAME w ->
  forallb (fun c => negb (Unicode.isspace c)) w = true
  /\ exists c t, w = c :: t /\ Unicode.in_range 65 90 c = true.
Proof.
  intros H; apply lang_seq_inv in H; destruct H as (w1 & w2 & -> & H1 & H2).
  apply lang_chr_inv in H1; destruct H1 as (c & -> & U).
  apply lang_plus_chr in H2; destruct H2 as (d & t & -> & D & T).
  split; [|exists c, (d :: t); split; [reflexivity | assumption]].
  simpl; rewrite (upper_not_space _ U), (name_char_not_space _ D); simpl.
  apply forallb_forall; intros x Hx.
  rewrite forallb_forall in T; rewrite (name_char_not_space _ (T _ Hx)).
  reflexivity.
Qed.

Lemma name_not_an w : lang RE_NAME w -> starts_an w = false.
Proof.
  intros H; apply name_no_blank in H; destruct H as (_ & c & t & -> & U).
  apply starts_an_head, upper_not_a, U.
Qed.

(** No name has a blank followed by a and n. *)
Lemma narrative_name_no_blank_an w :
  lang narrative_name w -> blank_an w = false.
Proof.
  intros H; apply lang_alt_inv in H; destruct H as [H|H].
  - apply lang_seq_inv in H; destruct H as (n1 & w2 & -> & N1 & H).
    rewrite blank_an_no_blank by (apply name_no_blank; assumption).
    apply lang_opt_inv in H; destruct H as [H| ->]; [|reflexivity].
    cbn [seqs] in H.
    apply lang_seq_inv in H; destruct H as (s1 & w3 & -> & S1 & H).
    apply lang_seq_inv in H; destruct H as (amp & w4 & -> & A & H).
    apply lang_seq_inv in H; destruct H as (s2 & n2 & -> & S2 & N2).
    apply lang_star_chr in S1, S2.
    apply lang_chr_inv in A; destruct A as (c & -> & A).
    apply N.eqb_eq in A; subst c.
    rewrite blank_an_blanks
      by (assumption || (apply starts_an_head; reflexivity)).
    change ([38%N] ++ s2 ++ n2) with (38%N :: (s2 ++ n2)).
    cbn [blank_an]. simpl Unicode.isspace. cbn [andb orb].
    rewrite blank_an_blanks by (assumption || (apply name_not_an; assumption)).
    rewrite <- (app_nil_r n2), blank_an_no_blank
      by (apply name_no_blank; assumption).
    reflexivity.
  - cbn [seqs] in H.
    apply lang_seq_inv in H; destruct H as (n1 & w2 & -> & N1 & H).
    apply lang_seq_inv in H; destruct H as (s1 & w3 & -> & S1 & H).
    apply lang_text in H; subst w3.
    rewrite blank_an_no_blank by (apply name_no_blank; assumption).
    apply lang_plus_chr in S1; destruct S1 as (c & t & -> & C & T).
    rewrite blank_an_blanks; [reflexivity | | reflexivity].
    simpl; rewrite C, T; reflexivity.
Qed.

(** The pattern for the word and finds nothing in a name. *)
Lemma and_re_start pos s st :
  match_at and_re pos s false = Some st -> blank_an s = true.
Proof.
  intros H; apply match_at_sound, run_consumes in H.
  destruct H as (w & E & _ & L); simpl in E; subst s.
  cbn [and_re seqs] in L.
  apply lang_seq_inv in L; destruct L as (s1 & w1 & -> & S1 & L).
  apply lang_seq_inv in L; destruct L as (a & s2 & -> & A & S2).
  apply lang_text in A; subst a.
  apply lang_plus_chr in S1; destruct S1 as (c & t & -> & C & T).
  rewrite <- !app_assoc.
  change (lit "and" ++ s2 ++ m_rest st)
    with (97%N :: 110%N :: 100%N :: s2 ++ m_rest st).
  apply blank_an_start; [discriminate|]. simpl; rewrite C, T; reflexivity.
Qed.

Lemma and_re_identity w :
  blank_an w = false -> sub and_re (fun _ => lit " & ") w = w.
Proof.
  intros H; unfold sub; rewrite scan_no_hit; [apply substitute_skipped|].
  intros x s' ->.
  destruct (match_at and_re (0 + List.length x) s' false) as [st|] eqn:E;
    [|reflexivity].
  apply and_re_start, (blank_an_suffix x) in E; congruence.
Qed.

End Narrative.

(* ================================================================== *)
(** * Decimal digits *)
(* ================================================================== *)

Section Ranges.
Import Unicode.

Lemma ranges_disjoint_spec t1 t2 c :
  ranges_disjoint t1 t2 = true ->
  in_ranges t1 c = true -> in_ranges t2 c = false.
Proof.
  unfold ranges_disjoint, in_ranges, in_range; intros D H.
  apply existsb_exists in H; destruct H as (r1 & H1 & I1).
  rewrite forallb_forall in D; specialize (D _ H1).
  rewrite forallb_forall in D.
  match goal with |- ?x = false => destruct x eqn:E end; [|reflexivity].
  apply existsb_exists in E; destruct E as (r2 & H2 & I2).
  specialize (D _ H2).
  apply andb_true_iff in I1, I2; destruct I1 as [A1 B1], I2 as [A2 B2].
  apply N.leb_le in A1, B1, A2, B2.
  unfold char in *.
  apply orb_true_iff in D; destruct D as [D|D]; apply N.ltb_lt in D; lia.
Qed.

Lemma ranges_subset_spec t1 t2 c :
  ranges_subset t1 t2 = true ->
  in_ranges t1 c = true -> in_ranges t2 c = true.
Proof.
  unfold ranges_subset, in_ranges, in_range; intros S H.
  apply existsb_exists in H; destruct H as (r1 & H1 & I1).
  rewrite forallb_forall in S; specialize (S _ H1).
  apply existsb_exists in S; destruct S as (r2 & H2 & I2).
  apply existsb_exists; exists r2; split; [assumption|].
  apply andb_true_iff in I1, I2; destruct I1 as [A1 B1], I2 as [A2 B2].
  apply N.leb_le in A1, B1, A2, B2.
  unfold char in *; apply andb_true_iff; split; apply N.leb_le; lia.
Qed.

Lemma isdecimal_ranges c : isdecimal c = in_ranges decimal_ranges c.
Proof.
  unfold isdecimal, decimal_value, decimal_ranges.
  induction decimal_zeros as [|z zs IH]; simpl; [reflexivity|].
  destruct (in_range z (z + 9) c); [reflexivity | exact IH].
Qed.

Lemma decimal_not_space c : isdecimal c = true -> isspace c = false.
Proof.
  rewrite isdecimal_ranges; apply ranges_disjoint_spec.
  vm_compute; reflexivity.
Qed.

Lemma decimal_isdigit c : isdecimal c = true -> isdigit_char c = true.
Proof.
  rewrite isdecimal_ranges; apply ranges_subset_spec.
  vm_compute; reflexivity.
Qed.

Lemma decimal_not_mark c : isdecimal c = true -> in_ranges marks c = false.
Proof.
  rewrite isdecimal_ranges; apply ranges_disjoint_spec.
  vm_compute; reflexivity.
Qed.

Lemma space_not_mark c : isspace c = true -> in_ranges marks c = false.
Proof. apply ranges_disjoint_spec; vm_compute; reflexivity. Qed.

Lemma not_mark c :
  in_ranges marks c = false ->
  c <> 43%N /\ c <> 44%N /\ c <> 45%N /\ c <> 95%N /\ c <> 8211%N.
Proof.
  intros H; repeat split; intros ->; vm_compute in H; discriminate.
Qed.

End Ranges.

Module IntFacts.
Import Py.

Lemma lstrip_by_none p s :
  forallb (fun c => negb (p c)) s = true -> lstrip_by p s = s.
Proof.
  destruct s as [|c s]; simpl; [reflexivity|].
  intros H; apply andb_true_iff in H; destruct H as [H _].
  destruct (p c); [discriminate | reflexivity].
Qed.

Lemma strip_by_none p s :
  forallb (fun c => negb (p c)) s = true -> strip_by p s = s.
Proof.
  intros H; unfold strip_by, rstrip_by.
  rewrite (lstrip_by_none _ _ H), lstrip_by_none, rev_involutive; [reflexivity|].
  rewrite forallb_forall in *; intros c Hc; apply H, in_rev, Hc.
Qed.

Lemma lstrip_by_incl p s c : In c (lstrip_by p s) -> In c s.
Proof.
  induction s as [|x s IH]; simpl; [tauto|].
  destruct (p x); [intros H; right; auto | simpl; tauto].
Qed.

Lemma strip_by_incl p s c : In c (strip_by p s) -> In c s.
Proof.
  unfold strip_by, rstrip_by; intros H.
  apply in_rev, lstrip_by_incl, in_rev, lstrip_by_incl in H; exact H.
Qed.

Lemma int_digits_decimal s :
  forallb Unicode.isdecimal s = true ->
  forall acc b, (s <> [] \/ b = true) ->
                exists n, int_digits acc b s = Some n.
Proof.
  induction s as [|c s IH]; simpl; intros H acc b Hb.
  - destruct Hb as [Hb| ->]; [congruence | eauto].
  - apply andb_true_iff in H; destruct H as [Hc Hs].
    destruct (not_mark _ (decimal_not_mark _ Hc)) as (_ & _ & _ & U & _).
    apply N.eqb_neq in U; rewrite U.
    unfold Unicode.isdecimal in Hc.
    destruct (Unicode.decimal_value c); [|discriminate].
    apply IH; auto.
Qed.

(** The branch of [int] for a string that starts with no sign. *)
Lemma sign_match {A : Type} (f g h : str -> A) c t :
  c <> 45%N -> c <> 43%N ->
  match c :: t with
  | 45%N :: body => f body
  | 43%N :: body => g body
  | body => h body
  end = h (c :: t).
Proof.
  intros M P; destruct c as [|p]; [reflexivity|].
  repeat (destruct p as [p|p|]; try reflexivity; try congruence).
Qed.

Lemma digit_count_cons c s :
  digit_count (c :: s)
  = if Unicode.isdecimal c then S (digit_count s) else digit_count s.
Proof.
  unfold digit_count; cbn [filter].
  destruct (Unicode.isdecimal c); reflexivity.
Qed.

Lemma digit_count_decimal s :
  forallb Unicode.isdecimal s = true -> digit_count s = List.length s.
Proof.
  induction s as [|c s IH]; [reflexivity|]; cbn [forallb]; intros H.
  apply andb_true_iff in H; destruct H as [Hc Hs].
  rewrite digit_count_cons, Hc, (IH Hs); reflexivity.
Qed.

Lemma int_literal_short s :
  (N.of_nat (digit_count s) <= int_max_str_digits)%N ->
  int_literal s = int_digits 0 false s.
Proof.
  intros H; unfold int_literal.
  destruct (N.ltb_spec int_max_str_digits (N.of_nat (digit_count s))) as [L|L];
    [|reflexivity].
  apply N.lt_nge in L; contradiction.
Qed.

Lemma int_literal_long s :
  (int_max_str_digits < N.of_nat (digit_count s))%N -> int_literal s = None.
Proof.
  intros H; unfold int_literal.
  destruct (N.ltb_spec int_max_str_digits (N.of_nat (digit_count s))) as [L|L];
    [reflexivity|].
  apply N.lt_nge in H; contradiction.
Qed.

Lemma int_literal_Some s n :
  int_literal s = Some n ->
  (N.of_nat (digit_count s) <= int_max_str_digits)%N
  /\ int_digits 0 false s = Some n.
Proof.
  unfold int_literal.
  destruct (N.ltb_spec int_max_str_digits (N.of_nat (digit_count s))) as [L|L];
    [discriminate | auto].
Qed.

Lemma digits_not_int_space s :
  forallb Unicode.isdecimal s = true ->
  forallb (fun c => negb (int_space c)) s = true.
Proof.
  rewrite !forallb_forall; intros H c Hc; unfold int_space.
  rewrite (decimal_not_space _ (H _ Hc)); reflexivity.
Qed.

(** A string of decimal digits passes [isdigit]. *)
Lemma digits_isdigit s : digits s -> isdigit s = true.
Proof.
  intros [Hne Hd]; unfold isdigit; destruct s as [|c s]; [congruence|].
  rewrite forallb_forall in *; intros x Hx; apply decimal_isdigit, Hd, Hx.
Qed.

(** [int] of an unsigned string of digits. *)
Lemma int_unsigned s :
  digits s -> int s = option_map Z.of_N (int_literal s).
Proof.
  intros [Hne Hd]; unfold int.
  rewrite (strip_by_none _ _ (digits_not_int_space _ Hd)).
  destruct s as [|c s]; [congruence|].
  assert (Hc : Unicode.isdecimal c = true)
    by (cbn [forallb] in Hd; apply andb_true_iff in Hd; tauto).
  destruct (not_mark _ (decimal_not_mark _ Hc)) as (P & _ & M & _ & _).
  exact (sign_match
           (fun body => option_map (fun n => Z.opp (Z.of_N n)) (int_literal body))
           (fun body => option_map Z.of_N (int_literal body))
           (fun body => option_map Z.of_N (int_literal body)) c s M P).
Qed.

(** A string of decimal digits within the limit is read by [int]. *)
Lemma digits_int s :
  digits s -> (N.of_nat (List.length s) <= int_max_str_digits)%N ->
  exists n, int s = Some n.
Proof.
  intros D L; rewrite (int_unsigned _ D); destruct D as [Hne Hd].
  rewrite int_literal_short by (rewrite (digit_count_decimal _ Hd); exact L).
  destruct (int_digits_decimal s Hd 0%N false) as (n & E); [left; exact Hne|].
  exists (Z.of_N n); rewrite E; reflexivity.
Qed.

(** A string of decimal digits above the limit is not. *)
Lemma digits_long s :
  digits s -> (int_max_str_digits < N.of_nat (List.length s))%N ->
  int s = None.
Proof.
  intros D L; rewrite (int_unsigned _ D); destruct D as [Hne Hd].
  rewrite int_literal_long by (rewrite (digit_count_decimal _ Hd); exact L).
  reflexivity.
Qed.

Lemma digits_numeric s :
  digits s -> (N.of_nat (List.length s) <= int_max_str_digits)%N -> numeric s.
Proof.
  intros D L; split; [apply digits_isdigit, D | apply digits_int; assumption].
Qed.

Lemma digits_strip s : digits s -> strip s = s.
Proof.
  intros [_ H]; apply strip_by_none.
  rewrite forallb_forall in *; intros x Hx.
  rewrite (decimal_not_space _ (H _ Hx)); reflexivity.
Qed.

(** Without a minus sign, [int] returns no negative number. *)
Lemma int_nonneg s n : ~ In 45%N s -> int s = Some n -> (0 <= n)%Z.
Proof.
  unfold int; intros H.
  assert (G : forall m, option_map Z.of_N m = Some n -> (0 <= n)%Z).
  { intros [m|]; simpl; intros X; inversion X; lia. }
  destruct (strip_by int_space s) as [|c t] eqn:E; [apply G|].
  - assert (D : c <> 45%N).
    { intros ->; apply H, (strip_by_incl int_space); rewrite E; left; reflexivity. }
    destruct c as [|p]; [apply G|].
    repeat (destruct p as [p|p|]; try apply G; try congruence).
Qed.

Lemma uint_digits_decimal d :
  forallb Unicode.isdecimal (uint_digits d) = true.
Proof. induction d; simpl; auto. Qed.

Lemma uint_digits_nonnil p : uint_digits (Pos.to_uint p) <> [].
Proof.
  pose proof (DecimalPos.Unsigned.to_uint_nonnil p) as H.
  destruct (Pos.to_uint p); [congruence|..]; discriminate.
Qed.

(** The decimal of a natural number is a string of decimal digits. *)
Lemma decimal_digits z : (0 <= z)%Z -> digits (decimal z).
Proof.
  destruct z as [|p|p]; cbn [decimal]; intros H; [| |lia].
  - split; [discriminate | reflexivity].
  - split; [apply uint_digits_nonnil | apply uint_digits_decimal].
Qed.

Lemma str_of_int_Some z t : str_of_int z = Some t -> t = decimal z.
Proof.
  unfold str_of_int.
  destruct (N.ltb int_max_str_digits (N.of_nat (digit_count (decimal z))));
    [discriminate | intros E; inversion E; reflexivity].
Qed.

(** What [str] returns for a natural number is a string of decimal
    digits. *)
Lemma str_of_int_digits z t :
  (0 <= z)%Z -> str_of_int z = Some t -> digits t.
Proof.
  intros H E; rewrite (str_of_int_Some _ _ E); apply decimal_digits, H.
Qed.

End IntFacts.

(* ================================================================== *)
(** * Where a scan finds its matches *)
(* ================================================================== *)

Module ScanFacts.
Import Re.

Lemma star_loop_0 {A} body g (k : mstate -> option A) st :
  star_loop body g k 0 st = k st.
Proof. reflexivity. Qed.

Lemma star_loop_greedy_S {A} body (k : mstate -> option A) n st :
  star_loop body true k (S n) st
  = match body (fun st' => if Nat.ltb (m_pos st) (m_pos st')
                           then star_loop body true k n st' else None) st
    with
    | Some a => Some a
    | None => k st
    end.
Proof. reflexivity. Qed.

Lemma rmatch_chr_cons {A} p (k : mstate -> option A) pos c s g :
  rmatch (Chr p) k (MState pos (c :: s) g)
  = if p c then k (MState (S pos) s g) else None.
Proof. reflexivity. Qed.

Lemma rmatch_chr_nil {A} p (k : mstate -> option A) pos g :
  rmatch (Chr p) k (MState pos [] g) = None.
Proof. reflexivity. Qed.

(** A greedy repetition of a character class that runs over [run] and
    stops before [t] hands the continuation the whole run first. *)
Lemma star_chr_first {A} p (k : mstate -> option A) a run :
  forall t pos g n,
    forallb p run = true ->
    match t with [] => True | c :: _ => p c = false end ->
    List.length (run ++ t) <= n ->
    k (MState (pos + List.length run) t g) = Some a ->
    star_loop (rmatch (Chr p)) true k n (MState pos (run ++ t) g) = Some a.
Proof.
  induction run as [|c run IH]; intros t pos g n Hr Ht Hn Hk.
  - simpl in Hk; rewrite Nat.add_0_r in Hk.
    destruct n as [|n]; [exact Hk|].
    rewrite star_loop_greedy_S; cbn [app].
    destruct t as [|c t];
      [rewrite rmatch_chr_nil | rewrite rmatch_chr_cons, Ht]; assumption.
  - simpl in Hr; apply andb_true_iff in Hr; destruct Hr as [Hc Hr].
    destruct n as [|n]; [simpl in Hn; lia|].
    rewrite star_loop_greedy_S; cbn [app].
    rewrite rmatch_chr_cons, Hc; cbn [m_pos].
    replace (Nat.ltb pos (S pos)) with true
      by (symmetry; apply Nat.ltb_lt; lia).
    rewrite (IH t (S pos) g n Hr Ht); [reflexivity | simpl in Hn; lia |].
    simpl in Hk; rewrite <- Nat.add_succ_comm in Hk; exact Hk.
Qed.

(** It fails when the continuation fails after every part of the run. *)
Lemma star_chr_none {A} p (k : mstate -> option A) g n :
  forall pos s,
    (forall x s', s = x ++ s' -> forallb p x = true ->
                  k (MState (pos + List.length x) s' g) = None) ->
    star_loop (rmatch (Chr p)) true k n (MState pos s g) = None.
Proof.
  induction n as [|n IH]; intros pos s H.
  - rewrite star_loop_0. specialize (H [] s eq_refl eq_refl); simpl in H.
    rewrite Nat.add_0_r in H; exact H.
  - rewrite star_loop_greedy_S.
    assert (K : k (MState pos s g) = None).
    { specialize (H [] s eq_refl eq_refl); simpl in H.
      rewrite Nat.add_0_r in H; exact H. }
    destruct s as [|c s]; [rewrite rmatch_chr_nil; exact K|].
    rewrite rmatch_chr_cons.
    destruct (p c) eqn:Hc; [|exact K].
    cbn [m_pos].
    replace (Nat.ltb pos (S pos)) with true
      by (symmetry; apply Nat.ltb_lt; lia).
    rewrite IH; [exact K|].
    intros x s' E Hx. specialize (H (c :: x) s'); simpl in H.
    rewrite <- Nat.add_succ_comm in H; apply H; [rewrite E; reflexivity|].
    rewrite Hc, Hx; reflexivity.
Qed.

(** *** The scan over a stretch of text *)

Lemma scan_skip r x :
  forall pos s,
    scan r pos (x ++ s) (List.length x) = scan r (pos + List.length x) s 0.
Proof.
  induction x as [|c x IH]; intros pos s; simpl.
  - rewrite Nat.add_0_r; reflexivity.
  - rewrite IH, Nat.add_succ_comm; reflexivity.
Qed.

Lemma scan_fail_prefix r x :
  forall pos s,
    (forall x1 x2, x = x1 ++ x2 -> x2 <> [] ->
                   match_at r (pos + List.length x1) (x2 ++ s) false = None) ->
    scan r pos (x ++ s) 0
    = List.map Skipped x ++ scan r (pos + List.length x) s 0.
Proof.
  induction x as [|c x IH]; intros pos s H.
  - simpl; rewrite Nat.add_0_r; reflexivity.
  - pose proof (H [] (c :: x) eq_refl) as H0; simpl in H0.
    rewrite Nat.add_0_r in H0.
    simpl. rewrite H0 by discriminate.
    rewrite IH, Nat.add_succ_comm; [reflexivity|].
    intros x1 x2 E Hx2. specialize (H (c :: x1) x2); simpl in H.
    rewrite <- Nat.add_succ_comm in H; apply H; [rewrite E; reflexivity | assumption].
Qed.

Lemma scan_hit r m s pos st :
  m <> [] ->
  match_at r pos (m ++ s) false = Some st ->
  m_pos st = pos + List.length m ->
  scan r pos (m ++ s) 0
  = Hit (mk_match pos (m ++ s) st) :: scan r (pos + List.length m) s 0.
Proof.
  intros Hm H P. destruct m as [|c m]; [congruence|].
  simpl in *. rewrite H, P.
  replace (Nat.eqb (pos + S (List.length m)) pos) with false
    by (symmetry; apply Nat.eqb_neq; lia).
  f_equal.
  replace (pos + S (List.length m) - pos - 1) with (List.length m) by lia.
  rewrite scan_skip, Nat.add_succ_comm; reflexivity.
Qed.

Lemma pieces_skipped x ts :
  pieces (List.map Skipped x ++ ts)
  = (x ++ fst (pieces ts), snd (pieces ts)).
Proof.
  induction x as [|c x IH]; simpl.
  - destruct (pieces ts); reflexivity.
  - rewrite IH; reflexivity.
Qed.

Lemma pieces_hit m ts :
  pieces (Hit m :: ts) = ([], fst (pieces ts) :: snd (pieces ts)).
Proof. simpl; destruct (pieces ts); reflexivity. Qed.

(** *** Splitting on one character of a class *)

Lemma match_at_chr p pos c s :
  match_at (Chr p) pos (c :: s) false
  = if p c then Some (MState (S pos) s []) else None.
Proof. reflexivity. Qed.

Lemma scan_chr p s :
  forall pos,
    Forall (fun x => forallb (fun c => negb (p c)) x = true)
           (fst (pieces (scan (Chr p) pos s 0))
                :: snd (pieces (scan (Chr p) pos s 0)))
    /\ (existsb p s = true -> hits (scan (Chr p) pos s 0) <> []).
Proof.
  induction s as [|c s IH]; intros pos.
  - simpl; split; [repeat constructor | discriminate].
  - destruct (IH (S pos)) as [IHp IHh].
    cbn [scan]. rewrite match_at_chr.
    destruct (p c) eqn:Hc.
    + cbn [m_pos].
      replace (Nat.eqb (S pos) pos) with false
        by (symmetry; apply Nat.eqb_neq; lia).
      replace (S pos - pos - 1) with 0 by lia.
      rewrite pieces_hit; simpl fst; simpl snd.
      split; [constructor; [reflexivity | exact IHp] | discriminate].
    + change (Skipped c :: scan (Chr p) (S pos) s 0)
        with (List.map Skipped [c] ++ scan (Chr p) (S pos) s 0).
      rewrite pieces_skipped; simpl fst; simpl snd.
      inversion IHp as [|? ? H1 H2]; subst.
      split.
      * constructor; [simpl; rewrite Hc, H1; reflexivity | exact H2].
      * simpl; rewrite Hc; exact IHh.
Qed.

Lemma split_chr p s :
  Forall (fun x => forallb (fun c => negb (p c)) x = true) (split (Chr p) s).
Proof.
  unfold split. pose proof (proj1 (scan_chr p s 0)) as H.
  destruct (pieces (scan (Chr p) 0 s 0)); exact H.
Qed.

Lemma found_chr p s : existsb p s = true -> found (Chr p) s = true.
Proof.
  intros H; apply (proj2 (scan_chr p s 0)) in H.
  unfold found, search, finditer.
  destruct (hits (scan (Chr p) 0 s 0)); [congruence | reflexivity].
Qed.

End ScanFacts.

(* ================================================================== *)
(** * The IEEE extractor: the parts of a bracket group *)
(* ================================================================== *)

Section IeeeParts.
Import Re ReSpec ReFacts ScanFacts IntFacts.

Lemma rmatch_seq {A} r1 r2 (k : mstate -> option A) st :
  rmatch (Seq r1 r2) k st = rmatch r1 (rmatch r2 k) st.
Proof. reflexivity. Qed.

Lemma rmatch_star {A} g r (k : mstate -> option A) st :
  rmatch (Star g r) k st
  = star_loop (rmatch r) g k (List.length (m_rest st)) st.
Proof. reflexivity. Qed.

(** The separator pattern matches blanks, a comma and all the blanks
    after it. *)
Lemma comma_match pos s1 s2 rest :
  blanks s1 -> blanks s2 ->
  match rest with [] => True | c :: _ => Unicode.isspace c = false end ->
  match_at comma_re pos (s1 ++ 44%N :: s2 ++ rest) false
  = Some (MState (pos + List.length (s1 ++ 44%N :: s2)) rest []).
Proof.
  intros B1 B2 Hr. unfold match_at, comma_re, star, space; cbn [seqs].
  rewrite rmatch_seq, rmatch_star; cbn [m_rest].
  apply star_chr_first; [exact B1 | reflexivity | lia |].
  rewrite rmatch_seq. unfold chr at 1. rewrite rmatch_chr_cons.
  cbn [N.eqb Pos.eqb]. rewrite rmatch_star; cbn [m_rest].
  apply star_chr_first; [exact B2 | exact Hr | lia |].
  cbn [andb]. f_equal; f_equal.
  rewrite length_app; simpl; lia.
Qed.

Lemma blank_prefix_head s1 t :
  blanks s1 ->
  match t with [] => True | c :: _ => plain c end ->
  forall x s', s1 ++ t = x ++ s' -> forallb Unicode.isspace x = true ->
               match s' with [] => True | c :: _ => c <> 44%N end.
Proof.
  induction s1 as [|b s1 IH]; intros B Ht x s' E Hx.
  - simpl in E; subst t. destruct x as [|c x]; simpl in *.
    + destruct s'; [exact I | apply Ht].
    + apply andb_true_iff in Hx; destruct Ht as [Ht _]; destruct Hx; congruence.
  - unfold blanks in B; simpl in B; apply andb_true_iff in B; destruct B as [Bb B].
    destruct x as [|c x]; simpl in E.
    + subst s'. apply (not_mark _ (space_not_mark _ Bb)).
    + inversion E; subst c. simpl in Hx; apply andb_true_iff in Hx.
      apply (IH B Ht x s'); tauto.
Qed.

(** It matches nowhere else. *)
Lemma comma_no_match pos s1 t :
  blanks s1 ->
  match t with [] => True | c :: _ => plain c end ->
  match_at comma_re pos (s1 ++ t) false = None.
Proof.
  intros B Ht. unfold match_at, comma_re, star, space; cbn [seqs].
  rewrite rmatch_seq, rmatch_star; cbn [m_rest].
  apply star_chr_none. intros x s' E Hx.
  pose proof (blank_prefix_head s1 t B Ht x s' E Hx) as Hs.
  rewrite rmatch_seq. unfold chr at 1.
  destruct s' as [|c s']; [apply rmatch_chr_nil|].
  rewrite rmatch_chr_cons.
  destruct (N.eqb_spec 44 c) as [<-|_]; [congruence | reflexivity].
Qed.

Lemma unmatched_app a b s :
  unmatched a (b ++ s) -> unmatched b s -> unmatched (a ++ b) s.
Proof.
  intros Ha Hb x1 x2 pos E Hx2.
  apply app_eq_app in E; destruct E as (l & [[-> ->]|[-> ->]]).
  - destruct l as [|c l].
    + simpl. apply (Hb [] b); [reflexivity | simpl in Hx2; assumption].
    + rewrite <- app_assoc. apply (Ha x1 (c :: l)); [reflexivity | discriminate].
  - apply (Hb l x2); [reflexivity | assumption].
Qed.

Lemma unmatched_blanks a s :
  blanks a -> match s with [] => True | c :: _ => plain c end ->
  unmatched a s.
Proof.
  intros B Hs x1 x2 pos -> _. apply comma_no_match; [|exact Hs].
  unfold blanks in *; rewrite forallb_app in B.
  apply andb_true_iff in B; tauto.
Qed.

Lemma unmatched_plain a s : Forall plain a -> unmatched a s.
Proof.
  intros P x1 x2 pos -> Hx2. destruct x2 as [|c x2]; [congruence|].
  apply (comma_no_match pos [] ((c :: x2) ++ s)); [reflexivity|].
  apply Forall_app in P; destruct P as [_ P]; inversion P; assumption.
Qed.

Lemma decimal_plain c : Unicode.isdecimal c = true -> plain c.
Proof.
  intros H; split; [apply decimal_not_space, H|].
  apply (not_mark _ (decimal_not_mark _ H)).
Qed.

Lemma digits_plain d : forallb Unicode.isdecimal d = true -> Forall plain d.
Proof.
  rewrite forallb_forall, Forall_forall; intros H c Hc.
  apply decimal_plain, H, Hc.
Qed.

Lemma digits_head d t :
  digits d -> match d ++ t with [] => True | c :: _ => plain c end.
Proof.
  intros [Hne H]; destruct d as [|c d]; [congruence|]; simpl.
  simpl in H; apply andb_true_iff in H; apply decimal_plain; tauto.
Qed.

Lemma lang_digits w : lang (plus digit) w -> digits w.
Proof.
  intros H; apply lang_plus_chr in H; destruct H as (c & t & -> & C & T).
  split; [discriminate | simpl; rewrite C, T; reflexivity].
Qed.

Lemma any_of_In cs c : existsb (N.eqb c) cs = true -> In c cs.
Proof.
  intros H; apply existsb_exists in H; destruct H as (x & Hx & E).
  apply N.eqb_eq in E; subst; assumption.
Qed.

Lemma blob_shape w :
  lang ieee_blob w -> exists d0 t, w = d0 ++ t /\ digits d0 /\ tail t.
Proof.
  intros H; apply lang_seq_inv in H; destruct H as (d0 & t & -> & D & T).
  exists d0, t; split; [reflexivity|]. split; [apply lang_digits, D|].
  apply lang_star_inv in T; destruct T as (ws & -> & F).
  induction F as [|w ws H _ IH]; simpl; [constructor|].
  assert (exists s1 sep s2 d,
             w = s1 ++ sep :: s2 ++ d /\ blanks s1
             /\ In sep [45; 44; 8211]%N /\ blanks s2 /\ digits d)
    as (s1 & sep & s2 & d & -> & B1 & S & B2 & Dd).
  { apply lang_alt_inv in H; destruct H as [H|H]; cbn [seqs] in H;
      apply lang_seq_inv in H; destruct H as (s1 & w1 & -> & S1 & H);
      apply lang_seq_inv in H; destruct H as (c & w2 & -> & C & H);
      apply lang_seq_inv in H; destruct H as (s2 & d & -> & S2 & Dd);
      apply lang_star_chr in S1, S2; apply lang_digits in Dd;
      apply lang_chr_inv in C; destruct C as (sep & -> & C);
      exists s1, sep, s2, d;
      (split; [reflexivity|]); (split; [assumption|]);
      (split; [|split; assumption]).
    - apply any_of_In, C.
    - apply N.eqb_eq in C; subst sep; simpl; tauto. }
  rewrite <- app_assoc; simpl; rewrite <- app_assoc.
  constructor; assumption.
Qed.

Lemma has_dash_app_r a b : has_dash b -> has_dash (a ++ b).
Proof.
  unfold has_dash; rewrite existsb_app; intros ->; apply orb_true_r.
Qed.

Lemma tail_pieces t :
  tail t ->
  forall pos,
    (fst (pieces (scan comma_re pos t 0)) = []
     \/ has_dash (fst (pieces (scan comma_re pos t 0))))
    /\ Forall part_ok (snd (pieces (scan comma_re pos t 0))).
Proof.
  induction 1 as [|s1 sep s2 d t B1 S B2 D T IH]; intros pos.
  - pose proof (comma_no_match pos [] [] eq_refl I) as E; cbn [app] in E.
    cbn [scan]; rewrite E; simpl; auto.
  - assert (Ud : unmatched d t) by (apply unmatched_plain, digits_plain, D).
    destruct S as [<-|[<-|[<-|[]]]].
    + (* a hyphen: the part goes on *)
      change (s1 ++ 45%N :: s2 ++ d ++ t)
        with (s1 ++ [45%N] ++ s2 ++ d ++ t).
      rewrite !app_assoc.
      rewrite scan_fail_prefix, pieces_skipped; cbn [fst snd].
      * match goal with
        | |- context [scan comma_re ?q t 0] => destruct (IH q) as [IH1 IH2]
        end.
        split; [right | exact IH2].
        rewrite <- !app_assoc; apply has_dash_app_r; reflexivity.
      * assert (U : unmatched (((s1 ++ [45%N]) ++ s2) ++ d) t);
          [|intros x1 x2 E Hx2; apply (U x1 x2); assumption].
        repeat apply unmatched_app; try assumption.
        -- apply unmatched_blanks; [exact B1|]. simpl; split; [reflexivity | discriminate].
        -- apply unmatched_plain; repeat constructor; discriminate.
        -- apply unmatched_blanks; [exact B2 | apply digits_head, D].
    + (* a comma: the part ends *)
      replace (s1 ++ 44%N :: s2 ++ d ++ t)
        with ((s1 ++ 44%N :: s2) ++ d ++ t)
        by (rewrite <- app_assoc; reflexivity).
      assert (M : match_at comma_re pos ((s1 ++ 44%N :: s2) ++ d ++ t) false
                  = Some (MState (pos + List.length (s1 ++ 44%N :: s2))
                                 (d ++ t) [])).
      { rewrite <- app_assoc; simpl.
        apply comma_match; [assumption..|].
        pose proof (digits_head d t D) as Hd.
        destruct (d ++ t); [exact I | apply Hd]. }
      assert (Ne : s1 ++ 44%N :: s2 <> []) by (destruct s1; simpl; discriminate).
      rewrite (scan_hit comma_re _ _ _ _ Ne M eq_refl).
      rewrite pieces_hit; cbn [fst snd].
      rewrite scan_fail_prefix, pieces_skipped; cbn [fst snd].
      * match goal with
        | |- context [scan comma_re ?q t 0] => destruct (IH q) as [IH1 IH2]
        end.
        split; [left; reflexivity|]. constructor; [|exact IH2].
        destruct IH1 as [->|IH1].
        -- rewrite app_nil_r; left; exact D.
        -- right; apply has_dash_app_r; exact IH1.
      * intros x1 x2 E Hx2; apply (Ud x1 x2); assumption.
    + (* an en dash: the part goes on *)
      change (s1 ++ 8211%N :: s2 ++ d ++ t)
        with (s1 ++ [8211%N] ++ s2 ++ d ++ t).
      rewrite !app_assoc.
      rewrite scan_fail_prefix, pieces_skipped; cbn [fst snd].
      * match goal with
        | |- context [scan comma_re ?q t 0] => destruct (IH q) as [IH1 IH2]
        end.
        split; [right | exact IH2].
        rewrite <- !app_assoc; apply has_dash_app_r; reflexivity.
      * assert (U : unmatched (((s1 ++ [8211%N]) ++ s2) ++ d) t);
          [|intros x1 x2 E Hx2; apply (U x1 x2); assumption].
        repeat apply unmatched_app; try assumption.
        -- apply unmatched_blanks; [exact B1|]. simpl; split; [reflexivity | discriminate].
        -- apply unmatched_plain; repeat constructor; discriminate.
        -- apply unmatched_blanks; [exact B2 | apply digits_head, D].
Qed.

Lemma blob_split w : lang ieee_blob w -> Forall part_ok (split comma_re w).
Proof.
  intros H; apply blob_shape in H; destruct H as (d0 & t & -> & D & T).
  unfold split.
  destruct (tail_pieces t T (0 + List.length d0)) as [H1 H2].
  rewrite scan_fail_prefix.
  - rewrite pieces_skipped. constructor; [|exact H2].
    destruct H1 as [->|H1].
    + rewrite app_nil_r; left; exact D.
    + right; apply has_dash_app_r; exact H1.
  - intros x1 x2 E Hx2.
    apply (unmatched_plain d0 t (digits_plain _ (proj2 D)) x1 x2); assumption.
Qed.

End IeeeParts.

(* ================================================================== *)
(** * The IEEE extractor: numbers only *)
(* ================================================================== *)

Lemma for_each_invariant {A S} (P : S -> Prop) (Q : A -> Prop)
      (body : S -> A -> result S) xs :
  (forall s x s', Q x -> P s -> body s x = Ok s' -> P s') ->
  Forall Q xs ->
  forall s s', P s -> for_each xs body s = Ok s' -> P s'.
Proof.
  intros Step F; induction F as [|x xs Hx _ IH]; intros s s' Hs H; simpl in H.
  - inversion H; subst; assumption.
  - destruct (body s x) as [s1|] eqn:E; simpl in H; [|discriminate].
    apply (IH s1); [apply (Step s x) | ]; assumption.
Qed.

Section IeeeNumbers.
Import Re ReSpec ReFacts ScanFacts IntFacts.

Lemma ieee_group text m :
  In m (finditer ieee_re text) -> lang ieee_blob (group m 1).
Proof.
  intros H; apply finditer_sound in H.
  destruct H as (pos & s' & st & R & ->).
  cbn [ieee_re seqs] in R.
  apply run_seq_inv in R; destruct R as (st1 & R1 & R).
  apply run_seq_inv in R; destruct R as (st2 & R2 & R3).
  apply run_grp_inv in R2; destruct R2 as (w & st0 & R0 & L & _ & ->).
  apply run_groups_free in R0, R1, R3; try reflexivity.
  unfold group, mk_match; simpl in *.
  rewrite R3, R0, R1; simpl. exact L.
Qed.

Lemma no_dash_found p : found hyphen_re p = false -> ~ has_dash p.
Proof.
  intros H D; apply (found_chr is_dash) in D.
  change (Chr is_dash) with hyphen_re in D; congruence.
Qed.

Lemma dash_free_int a n :
  forallb (fun c => negb (is_dash c)) a = true ->
  Py.int (Py.strip a) = Some n -> (0 <= n)%Z.
Proof.
  intros H; apply int_nonneg. intros I.
  apply (strip_by_incl Unicode.isspace) in I.
  rewrite forallb_forall in H; specialize (H _ I); discriminate.
Qed.

Lemma map_option_In {A B : Type} (f : A -> option B) l ys y :
  map_option f l = Some ys -> In y ys -> exists x, In x l /\ f x = Some y.
Proof.
  revert ys; induction l as [|x l IH]; intros ys; cbn [map_option].
  - intros E; inversion E; intros [].
  - destruct (f x) as [y0|] eqn:Ex; [|discriminate].
    destruct (map_option f l) as [ys0|]; [|discriminate].
    intros E; inversion E; subst ys; clear E.
    intros [<-|Hy].
    + exists x; split; [left; reflexivity | exact Ex].
    + destruct (IH ys0 eq_refl Hy) as (x0 & Hx & Ey).
      exists x0; split; [right; exact Hx | exact Ey].
Qed.

(** One part adds strings of decimal digits only. *)
Lemma ieee_part_digits nums p nums' :
  part_ok p -> Forall digits nums ->
  ieee_part nums p = Ok nums' -> Forall digits nums'.
Proof.
  intros Hp Hn; unfold ieee_part.
  destruct (found hyphen_re p) eqn:F.
  - pose proof (split_chr is_dash p) as Sp.
    change (Chr is_dash) with hyphen_re in Sp.
    destruct (split hyphen_re p) as [|a [|b [|c l]]]; try discriminate.
    inversion Sp as [|? ? Ha Sp']; subst.
    destruct (Py.int (Py.strip a)) as [x|] eqn:Ea;
      [|intros H; inversion H; subst; assumption].
    destruct (Py.int (Py.strip b)) as [y|];
      [|intros H; inversion H; subst; assumption].
    destruct (Z.leb x y); [|intros H; inversion H; subst; assumption].
    destruct (map_option Py.str_of_int (Py.range x (y + 1))) as [strs|] eqn:Es;
      intros H; inversion H; subst; [|assumption].
    apply Forall_app; split; [assumption|].
    apply Forall_forall; intros s Hs.
    destruct (map_option_In _ _ _ _ Es Hs) as (z & Hz & Ez).
    unfold Py.range in Hz; apply in_map_iff in Hz.
    destruct Hz as (i & <- & _).
    apply (str_of_int_digits _ _) in Ez; [exact Ez|].
    pose proof (dash_free_int a x Ha Ea); lia.
  - intros H; inversion H; subst.
    apply Forall_app; split; [assumption|]. constructor; [|constructor].
    destruct Hp as [D|D]; [|exfalso; apply (no_dash_found p F), D].
    rewrite (digits_strip _ D); exact D.
Qed.

(** The loops of [extract_ieee] gather strings of decimal digits only. *)
Lemma ieee_nums_digits text nums :
  for_each (finditer ieee_re text)
    (fun nums m => for_each (split comma_re (group m 1)) ieee_part nums) []
  = Ok nums ->
  Forall digits nums.
Proof.
  apply (for_each_invariant (Forall digits)
           (fun m => In m (finditer ieee_re text))).
  - intros s m s' Hm Hs.
    apply (for_each_invariant (Forall digits) part_ok); [| |exact Hs].
    + intros s0 p s1 Hp Hs0; apply ieee_part_digits; assumption.
    + apply blob_split, ieee_group with (text := text), Hm.
  - apply Forall_forall; auto.
  - constructor.
Qed.

Variable set_order : str -> N.

Lemma set_iter_In l x : In x (set_iter set_order l) <-> In x l.
Proof.
  unfold set_iter; rewrite sort_by_In; unfold uniq.
  rewrite uniq_from_In; simpl; tauto.
Qed.

Lemma set_iter_NoDup l : NoDup (set_iter set_order l).
Proof.
  unfold set_iter.
  apply (Permutation_NoDup (l := uniq l));
    [symmetry; apply sort_by_perm | apply uniq_from_NoDup].
Qed.

Lemma numeric_key s :
  numeric s -> exists n, ieee_key s = Ok (KInt n) /\ Py.int s = Some n.
Proof.
  intros [D (n & E)]; exists n; unfold ieee_key; rewrite D, E; auto.
Qed.

(** The key of a string of decimal digits, when there is one, is the
    integer [int] reads. *)
Lemma digits_key s k :
  digits s -> ieee_key s = Ok k ->
  exists n, k = KInt n /\ Py.isdigit s = true /\ Py.int s = Some n.
Proof.
  intros D; unfold ieee_key; rewrite (digits_isdigit _ D).
  destruct (Py.int s) as [n|]; [|discriminate].
  intros E; inversion E; exists n; auto.
Qed.

(** The key of a string of decimal digits above the limit raises. *)
Lemma long_key s :
  digits s -> (Py.int_max_str_digits < N.of_nat (List.length s))%N ->
  ieee_key s = Raise ValueError.
Proof.
  intros D L; unfold ieee_key.
  rewrite (digits_isdigit _ D), (digits_long _ D L); reflexivity.
Qed.

(** What [extract_ieee] returns, when it returns: the distinct numbers
    gathered, each between brackets, in ascending order of their
    values. *)
Lemma extract_ieee_Ok text out :
  extract_ieee set_order text = Ok out ->
  exists nums toks vals,
    for_each (finditer ieee_re text)
      (fun nums m => for_each (split comma_re (group m 1)) ieee_part nums) []
    = Ok nums
    /\ out = List.map bracketed toks
    /\ NoDup toks
    /\ (forall x, In x toks <-> In x nums)
    /\ Forall2 (fun t v => Py.isdigit t = true /\ Py.int t = Some v) toks vals
    /\ StronglySorted Z.le vals.
Proof.
  unfold extract_ieee; intros H.
  destruct (for_each _ _ []) as [nums|] eqn:En; simpl in H; [|discriminate].
  destruct (sorted ieee_key (set_iter set_order nums)) as [toks|] eqn:Es;
    simpl in H; [|discriminate].
  inversion H; subst out; clear H.
  pose proof (ieee_nums_digits _ _ En) as Num.
  apply sorted_Ok in Es; destruct Es as (keys & K & P & _ & S).
  assert (In_toks : forall x, In x toks <-> In x nums).
  { intros x; rewrite <- (set_iter_In nums x).
    split; apply Permutation_in; [assumption | symmetry; assumption]. }
  assert (Num' : Forall digits toks).
  { rewrite Forall_forall in *; intros x Hx; apply Num, In_toks, Hx. }
  exists nums, toks.
  assert (V : exists vals,
             keys = List.map KInt vals
             /\ Forall2 (fun t v => Py.isdigit t = true /\ Py.int t = Some v)
                        toks vals).
  { clear - K Num'. induction K as [|t k toks keys Hk K IH].
    - exists []; split; constructor.
    - inversion Num' as [|? ? Ht Num'']; subst.
      destruct (IH Num'') as (vals & -> & F).
      destruct (digits_key _ _ Ht Hk) as (n & -> & D & I).
      exists (n :: vals); split; [reflexivity|].
      constructor; [split; [exact D | exact I] | exact F]. }
  destruct V as (vals & -> & V).
  exists vals; repeat split; try assumption.
  - apply (Permutation_NoDup (l := set_iter set_order nums));
      [symmetry; assumption | apply set_iter_NoDup].
  - apply In_toks.
  - apply In_toks.
  - clear - S. remember (List.map KInt vals) as ks eqn:E.
    revert vals E; induction S as [|k ks S IH F]; intros vals E.
    + destruct vals; [constructor | discriminate].
    + destruct vals as [|v vals]; [discriminate|].
      inversion E; subst. constructor; [apply IH; reflexivity|].
      rewrite Forall_forall in *; intros z Hz.
      specialize (F (KInt z) (in_map KInt _ _ Hz)); simpl in F.
      apply Z.ltb_ge in F; exact F.
Qed.

End IeeeNumbers.

(* ================================================================== *)
(** * The aggregator *)
(* ================================================================== *)

Section Aggregator.
Import Re ReSpec ReFacts IntFacts.

Variable set_order : str -> N.

Lemma table_Ok text tbl :
  extract_citations_from_text set_order text = Ok tbl ->
  exists ieee,
    extract_ieee set_order text = Ok ieee
    /\ tbl = [(APA_parenthetical, dedupe (extract_apa_parenthetical text));
              (APA_narrative, dedupe (extract_apa_narrative text));
              (IEEE_numeric, dedupe ieee)].
Proof.
  unfold extract_citations_from_text; intros H.
  destruct (extract_ieee set_order text) as [ieee|]; simpl in H; [|discriminate].
  inversion H; eauto.
Qed.

Lemma table_NoDup text tbl :
  extract_citations_from_text set_order text = Ok tbl ->
  Forall (fun kv => NoDup (snd kv)) tbl.
Proof.
  intros H; apply table_Ok in H; destruct H as (ieee & _ & ->).
  repeat constructor; apply dedupe_NoDup.
Qed.

(** Every sequence of the table is some [dedupe seq]. *)
Lemma table_family text tbl fam l :
  extract_citations_from_text set_order text = Ok tbl ->
  In (fam, l) tbl -> exists seq, l = dedupe seq.
Proof.
  intros H I; apply table_Ok in H; destruct H as (ieee & _ & ->).
  destruct I as [I|[I|[I|[]]]]; inversion I; eauto.
Qed.

Lemma table_ieee text tbl l :
  extract_citations_from_text set_order text = Ok tbl ->
  In (IEEE_numeric, l) tbl ->
  exists ieee, extract_ieee set_order text = Ok ieee /\ l = dedupe ieee.
Proof.
  intros H I; apply table_Ok in H; destruct H as (ieee & E & ->).
  destruct I as [I|[I|[I|[]]]]; inversion I; eauto.
Qed.

End Aggregator.

Lemma uniq_from_id seen l :
  NoDup l -> (forall x, In x l -> ~ In x seen) -> uniq_from seen l = l.
Proof.
  intros ND; revert seen; induction ND as [|x l Hx ND IH]; intros seen H; simpl.
  - reflexivity.
  - replace (mem x seen) with false
      by (symmetry; apply mem_false, H; left; reflexivity).
    f_equal; apply IH. intros y Hy [<-|Hs]; [contradiction|].
    apply (H y); [right; assumption | assumption].
Qed.

Lemma bracketed_inj a b : bracketed a = bracketed b -> a = b.
Proof.
  unfold bracketed; simpl; intros H; inversion H as [E].
  apply app_inj_tail in E; tauto.
Qed.

Lemma bracketed_strip n : Py.strip (bracketed n) = bracketed n.
Proof.
  unfold bracketed, Py.strip; simpl.
  apply PyFacts.strip_by_fix; reflexivity.
Qed.

(** [dedupe] leaves the output of [extract_ieee] as it is. *)
Lemma dedupe_bracketed toks :
  NoDup toks -> dedupe (List.map bracketed toks) = List.map bracketed toks.
Proof.
  intros ND; rewrite dedupe_uniq, map_map.
  rewrite (map_ext _ bracketed) by apply bracketed_strip.
  replace (filter nonempty (List.map bracketed toks))
    with (List.map bracketed toks).
  - apply uniq_from_id; [|intros x _ []].
    clear - ND; induction ND as [|t toks Ht ND IH]; simpl; constructor; auto.
    intros H; apply in_map_iff in H; destruct H as (u & E & Hu).
    apply bracketed_inj in E; subst; contradiction.
  - clear; induction toks as [|t toks IH]; simpl; [reflexivity|].
    rewrite <- IH; reflexivity.
Qed.

(** Two lists with the same elements, one without repetition and in
    ascending order of [f], the other in strictly ascending order, are
    equal. *)
Lemma sorted_unique {A} (f : A -> Z) (l2 : list A) :
  forall l1,
    NoDup l1 -> (forall x, In x l1 <-> In x l2) ->
    StronglySorted (fun a b => (f a <= f b)%Z) l1 ->
    StronglySorted (fun a b => (f a < f b)%Z) l2 ->
    l1 = l2.
Proof.
  induction l2 as [|y l2 IH]; intros l1 ND E S1 S2.
  - destruct l1 as [|x l1]; [reflexivity|].
    destruct (proj1 (E x) (or_introl eq_refl)).
  - destruct l1 as [|x l1]; [destruct (proj2 (E y) (or_introl eq_refl))|].
    inversion ND as [|? ? Nx ND']; subst.
    inversion S1 as [|? ? S1' F1]; subst.
    inversion S2 as [|? ? S2' F2]; subst.
    rewrite Forall_forall in F1, F2.
    assert (x = y) as ->.
    { destruct (proj1 (E x) (or_introl eq_refl)) as [->|Hx]; [reflexivity|].
      destruct (proj2 (E y) (or_introl eq_refl)) as [->|Hy]; [reflexivity|].
      specialize (F1 _ Hy); specialize (F2 _ Hx); lia. }
    f_equal; apply IH; try assumption.
    intros z; split; intros Hz.
    + destruct (proj1 (E z) (or_intror Hz)) as [<-|H]; [contradiction | assumption].
    + destruct (proj2 (E z) (or_intror Hz)) as [<-|H]; [|assumption].
      specialize (F2 _ Hz); lia.
Qed.

(* ================================================================== *)
(** * The ends of a Citation String *)
(* ================================================================== *)

Lemma punct_cases c :
  punct c = true -> c = 32%N \/ c = 46%N \/ c = 59%N \/ c = 44%N.
Proof.
  unfold punct; intros H; apply existsb_exists in H.
  destruct H as (x & Hx & E); apply N.eqb_eq in E; subst x.
  vm_compute in Hx; destruct Hx as [<-|[<-|[<-|[<-|[]]]]]; auto.
Qed.

Ltac punct_fact :=
  intros;
  match goal with
  | |- punct ?c = false =>
      destruct (punct c) eqn:?P; [exfalso | reflexivity];
      match goal with
      | P : punct c = true |- _ =>
          apply punct_cases in P;
          destruct P as [-> | [-> | [-> | ->]]];
          match goal with H : _ = true |- _ => vm_compute in H; discriminate H end
      end
  end.

Lemma upper_not_punct c : Unicode.in_range 65 90 c = true -> punct c = false.
Proof. punct_fact. Qed.

Lemma lower_not_punct c : Unicode.in_range 97 122 c = true -> punct c = false.
Proof. punct_fact. Qed.

Lemma decimal_not_punct c : Unicode.isdecimal c = true -> punct c = false.
Proof. punct_fact. Qed.

Lemma lower_not_space c :
  Unicode.in_range 97 122 c = true -> Unicode.isspace c = false.
Proof. table_fact. Qed.

Lemma clean_ends_intro bad c u e :
  bad c = false -> bad e = false -> clean_ends bad (c :: u ++ [e]).
Proof.
  intros Hc He; split; [discriminate|]. split.
  - intros c' t E; inversion E; subst; assumption.
  - intros u' c' E. change (c :: u ++ [e]) with ((c :: u) ++ [e]) in E.
    apply app_inj_tail in E; destruct E as [_ <-]; assumption.
Qed.

(** [dedupe] yields stripped strings. *)
Lemma dedupe_clean seq s :
  In s (dedupe seq) -> clean_ends Unicode.isspace s.
Proof.
  intros H; apply dedupe_In in H; destruct H as [Hne H].
  apply in_map_iff in H; destruct H as (y & <- & _).
  split; [assumption|]. split.
  - intros c t E; apply (PyFacts.strip_by_head _ _ _ _ E).
  - intros u c E; apply (PyFacts.strip_by_last _ _ _ _ E).
Qed.

Section NarrativeShape.
Import Re ReSpec ReFacts.

Lemma lang_name w : lang RE_NAME w -> capitalized w.
Proof.
  intros H; apply lang_seq_inv in H; destruct H as (w1 & w2 & -> & H1 & H2).
  apply lang_chr_inv in H1; destruct H1 as (c & -> & U).
  apply lang_plus_chr in H2; destruct H2 as (d & t & -> & D & T).
  exists c, (d :: t); repeat split; [assumption | discriminate |].
  simpl; rewrite D, T; reflexivity.
Qed.

Lemma narrative_name_shape w : lang narrative_name w -> name_shape w.
Proof.
  intros H; apply lang_alt_inv in H; destruct H as [H|H].
  - apply lang_seq_inv in H; destruct H as (n1 & w2 & -> & N1 & H).
    apply lang_name in N1.
    apply lang_opt_inv in H; destruct H as [H| ->];
      [|rewrite app_nil_r; left; assumption].
    cbn [seqs] in H.
    apply lang_seq_inv in H; destruct H as (s1 & w3 & -> & S1 & H).
    apply lang_seq_inv in H; destruct H as (amp & w4 & -> & A & H).
    apply lang_seq_inv in H; destruct H as (s2 & n2 & -> & S2 & N2).
    apply lang_star_chr in S1, S2; apply lang_name in N2.
    apply lang_chr_inv in A; destruct A as (c & -> & A).
    apply N.eqb_eq in A; subst c.
    right; left; exists n1, s1, s2, n2; auto.
  - cbn [seqs] in H.
    apply lang_seq_inv in H; destruct H as (n1 & w2 & -> & N1 & H).
    apply lang_seq_inv in H; destruct H as (s1 & w3 & -> & S1 & H).
    apply lang_text in H; subst w3. apply lang_name in N1.
    apply lang_plus_chr in S1; destruct S1 as (c & t & -> & C & T).
    right; right; exists n1, (c :: t); repeat split; try assumption.
    + discriminate.
    + unfold blanks; simpl; rewrite C, T; reflexivity.
Qed.

Lemma name_shape_head w :
  name_shape w -> exists c t, w = c :: t /\ Unicode.in_range 65 90 c = true.
Proof.
  intros [H|[H|H]].
  - destruct H as (c & t & -> & U & _); eauto.
  - destruct H as (n1 & s1 & s2 & n2 & -> & (c & t & -> & U & _) & _).
    simpl; eauto.
  - destruct H as (n1 & s & -> & (c & t & -> & U & _) & _).
    simpl; eauto.
Qed.

(** A year ends with a digit or a small letter. *)
Lemma year_last w :
  lang RE_YEAR w ->
  exists u e, w = u ++ [e]
              /\ (Unicode.isdecimal e = true
                  \/ Unicode.in_range 97 122 e = true).
Proof.
  cbn [RE_YEAR seqs]; intros H.
  apply lang_seq_inv in H; destruct H as (cc & w1 & -> & _ & H).
  apply lang_seq_inv in H; destruct H as (dd & o & -> & D & O).
  apply lang_seq_inv in D; destruct D as (d1 & d2 & -> & D1 & D2).
  apply lang_chr_inv in D1, D2.
  destruct D1 as (x1 & -> & X1), D2 as (x2 & -> & X2).
  apply lang_opt_inv in O; destruct O as [O| ->].
  - apply lang_chr_inv in O; destruct O as (l & -> & L).
    exists (cc ++ [x1; x2]), l; split; [|right; assumption].
    rewrite <- !app_assoc; reflexivity.
  - exists (cc ++ [x1]), x2; split; [|left; assumption].
    rewrite app_nil_r, <- !app_assoc; reflexivity.
Qed.

Lemma fold_left_append {A} (f : A -> str) ms :
  forall acc,
    fold_left (fun results m => results ++ [f m]) ms acc
    = acc ++ List.map f ms.
Proof.
  induction ms as [|m ms IH]; intros acc; simpl.
  - rewrite app_nil_r; reflexivity.
  - rewrite IH, <- app_assoc; reflexivity.
Qed.

(** The candidates of the narrative extractor: a name of one of the
    three forms, unchanged by the normalization, a comma and a year. *)
Lemma narrative_candidates text y :
  In y (extract_apa_narrative text) ->
  exists m,
    In m (finditer narrative_re text)
    /\ name_shape (group m 1)
    /\ sub and_re (fun _ => lit " & ") (group m 1) = group m 1
    /\ lang RE_YEAR (group m 2)
    /\ y = group m 1 ++ lit ", " ++ group m 2.
Proof.
  unfold extract_apa_narrative; rewrite fold_left_append; cbn [app].
  intros H; apply in_map_iff in H; destruct H as (m & <- & Hm).
  cbv zeta.
  destruct (narrative_groups _ _ Hm) as [L1 L2].
  pose proof (and_re_identity _ (narrative_name_no_blank_an _ L1)) as E.
  exists m; repeat split; try assumption.
  - apply narrative_name_shape, L1.
  - rewrite E; reflexivity.
Qed.

Lemma narrative_clean text s :
  In s (dedupe (extract_apa_narrative text)) -> clean_ends punct s.
Proof.
  intros H; apply dedupe_In in H; destruct H as [_ H].
  apply in_map_iff in H; destruct H as (y & <- & Hy).
  apply narrative_candidates in Hy.
  destruct Hy as (m & _ & Sh & _ & Y & ->).
  apply name_shape_head in Sh; destruct Sh as (c & t & -> & U).
  apply year_last in Y; destruct Y as (u & e & -> & E).
  replace ((c :: t) ++ lit ", " ++ u ++ [e])
    with (c :: (t ++ lit ", " ++ u) ++ [e])
    by (simpl; rewrite <- !app_assoc; reflexivity).
  unfold Py.strip; rewrite PyFacts.strip_by_fix.
  - apply clean_ends_intro; [apply upper_not_punct, U|].
    destruct E as [E|E]; [apply decimal_not_punct | apply lower_not_punct]; exact E.
  - apply upper_not_space, U.
  - destruct E as [E|E]; [apply decimal_not_space | apply lower_not_space]; exact E.
Qed.

End NarrativeShape.

(* ================================================================== *)
(** * When [extract_ieee] returns *)
(* ================================================================== *)

Section IeeeReturns.
Import Re.

Variable set_order : str -> N.

Lemma keys_of_numbers l :
  Forall numeric l ->
  exists keyed,
    map_result (fun x => k <- ieee_key x ;; Ok (k, x)) l = Ok keyed
    /\ forallb key_is_int (List.map fst keyed) = true.
Proof.
  induction 1 as [|x l Hx _ IH]; simpl.
  - exists []; auto.
  - destruct (numeric_key _ Hx) as (n & E & _); rewrite E; simpl.
    destruct IH as (keyed & -> & K); simpl.
    exists ((KInt n, x) :: keyed); simpl; auto.
Qed.

(** The sort of [extract_ieee] returns when [int] reads the numbers
    gathered. *)
Lemma extract_ieee_returns_numeric text nums :
  for_each (finditer ieee_re text)
    (fun nums m => for_each (split comma_re (group m 1)) ieee_part nums) []
  = Ok nums ->
  Forall numeric nums ->
  exists out, extract_ieee set_order text = Ok out.
Proof.
  intros E Num0; unfold extract_ieee; rewrite E; simpl.
  assert (Num : Forall numeric (set_iter set_order nums)).
  { rewrite Forall_forall in *; intros x Hx; apply Num0.
    apply (set_iter_In set_order), Hx. }
  destruct (keys_of_numbers _ Num) as (keyed & K & I).
  unfold sorted; rewrite K; simpl; rewrite I; simpl; eauto.
Qed.

(** It does when no number gathered is above the limit of [int]. *)
Lemma extract_ieee_returns text nums :
  for_each (finditer ieee_re text)
    (fun nums m => for_each (split comma_re (group m 1)) ieee_part nums) []
  = Ok nums ->
  (forall t, In t nums ->
             (N.of_nat (List.length t) <= Py.int_max_str_digits)%N) ->
  exists out, extract_ieee set_order text = Ok out.
Proof.
  intros E B; apply (extract_ieee_returns_numeric _ _ E).
  pose proof (ieee_nums_digits _ _ E) as D.
  rewrite Forall_forall in *; intros t Ht.
  apply IntFacts.digits_numeric; [apply D, Ht | apply B, Ht].
Qed.

(** A list comprehension raises what its function raises. *)
Lemma map_result_Raise {A B} (f : A -> result B) l x e :
  In x l -> f x = Raise e -> (forall y e', f y = Raise e' -> e' = e) ->
  map_result f l = Raise e.
Proof.
  intros Hx Ex U; induction l as [|y l IH]; [destruct Hx|]; simpl.
  destruct (f y) as [b|e'] eqn:Ey; simpl.
  - destruct Hx as [->|Hx]; [congruence|]. rewrite (IH Hx); reflexivity.
  - rewrite (U _ _ Ey); reflexivity.
Qed.

(** A number above the limit of [int] among the numbers gathered makes
    the sort raise. *)
Lemma extract_ieee_long text nums t :
  for_each (finditer ieee_re text)
    (fun nums m => for_each (split comma_re (group m 1)) ieee_part nums) []
  = Ok nums ->
  In t nums -> (Py.int_max_str_digits < N.of_nat (List.length t))%N ->
  extract_ieee set_order text = Raise ValueError.
Proof.
  intros E Ht L; unfold extract_ieee; rewrite E; simpl.
  pose proof (ieee_nums_digits _ _ E) as D; rewrite Forall_forall in D.
  unfold sorted.
  rewrite (map_result_Raise (fun x => k <- ieee_key x ;; Ok (k, x)) _ t ValueError).
  - reflexivity.
  - apply (set_iter_In set_order), Ht.
  - rewrite (long_key _ (D _ Ht) L); reflexivity.
  - intros y e'; unfold ieee_key.
    destruct (Py.isdigit y); [|discriminate].
    destruct (Py.int y); [discriminate|].
    simpl; intros X; inversion X; reflexivity.
Qed.

(** A loop raises what its body raises. *)
Lemma for_each_Raise {A S} (body : S -> A -> result S) xs :
  forall s e,
    for_each xs body s = Raise e ->
    exists x s', In x xs /\ body s' x = Raise e.
Proof.
  induction xs as [|x xs IH]; intros s e H; simpl in H; [discriminate|].
  destruct (body s x) as [s1|e1] eqn:E; simpl in H.
  - destruct (IH _ _ H) as (y & s' & Hy & Hb); exists y, s'.
    split; [right; exact Hy | exact Hb].
  - inversion H; subst; exists x, s; split; [left; reflexivity | exact E].
Qed.

(** A loop raises when its body raises at one element whatever the
    state, and raises nothing else. *)
Lemma for_each_raises {A S} (body : S -> A -> result S) xs x e :
  In x xs -> (forall s, body s x = Raise e) ->
  (forall s y e', body s y = Raise e' -> e' = e) ->
  forall s, for_each xs body s = Raise e.
Proof.
  intros Hx Ex U; induction xs as [|y xs IH]; [destruct Hx|]; intros s; simpl.
  destruct (body s y) as [s1|e'] eqn:Ey; simpl.
  - destruct Hx as [->|Hx]; [rewrite Ex in Ey; discriminate | apply (IH Hx)].
  - rewrite (U _ _ _ Ey); reflexivity.
Qed.

(** A part raises only when it holds a dash and has not two sides. *)
Lemma ieee_part_Raise nums p e :
  ieee_part nums p = Raise e ->
  e = ValueError /\ found hyphen_re p = true
  /\ forall a b, split hyphen_re p <> [a; b].
Proof.
  unfold ieee_part. destruct (found hyphen_re p); [|discriminate].
  destruct (split hyphen_re p) as [|a [|b [|c l]]];
    try (intros H; inversion H; repeat split; congruence).
  destruct (Py.int (Py.strip a)) as [x|]; [|discriminate].
  destruct (Py.int (Py.strip b)) as [y|]; [|discriminate].
  destruct (Z.leb _ _); [|discriminate].
  destruct (map_option Py.str_of_int (Py.range x (y + 1))); discriminate.
Qed.

(** And it does raise then. *)
Lemma ieee_part_bad nums p :
  found hyphen_re p = true -> (forall a b, split hyphen_re p <> [a; b]) ->
  ieee_part nums p = Raise ValueError.
Proof.
  unfold ieee_part; intros -> S.
  destruct (split hyphen_re p) as [|a [|b [|c l]]]; try reflexivity.
  destruct (S a b eq_refl).
Qed.

(** A part with a dash and without two sides makes [extract_ieee]
    raise. *)
Lemma extract_ieee_bad text m p :
  In m (finditer ieee_re text) -> In p (split comma_re (group m 1)) ->
  found hyphen_re p = true -> (forall a b, split hyphen_re p <> [a; b]) ->
  extract_ieee set_order text = Raise ValueError.
Proof.
  intros Hm Hp F S.
  assert (E : for_each (finditer ieee_re text)
                (fun nums m =>
                   for_each (split comma_re (group m 1)) ieee_part nums) []
              = Raise ValueError).
  { apply (for_each_raises _ _ m ValueError Hm).
    - intros s; apply (for_each_raises _ _ p ValueError Hp).
      + intros s0; apply ieee_part_bad; assumption.
      + intros s0 y e' E; apply ieee_part_Raise in E; tauto.
    - intros s y e' E.
      apply for_each_Raise in E; destruct E as (q & s' & _ & E).
      apply ieee_part_Raise in E; tauto. }
  unfold extract_ieee; rewrite E; reflexivity.
Qed.

(** [extract_ieee] raises only from a part with a dash and without two
    sides, or from the sort key of a number above the limit of [int]. *)
Lemma extract_ieee_Raise text e :
  extract_ieee set_order text = Raise e ->
  e = ValueError
  /\ ((exists m p,
          In m (finditer ieee_re text)
          /\ In p (split comma_re (group m 1))
          /\ found hyphen_re p = true
          /\ forall a b, split hyphen_re p <> [a; b])
      \/ (exists nums t,
             for_each (finditer ieee_re text)
               (fun nums m =>
                  for_each (split comma_re (group m 1)) ieee_part nums) []
             = Ok nums
             /\ In t nums /\ digits t
             /\ (Py.int_max_str_digits < N.of_nat (List.length t))%N)).
Proof.
  intros H.
  destruct (for_each (finditer ieee_re text)
              (fun nums m =>
                 for_each (split comma_re (group m 1)) ieee_part nums) [])
    as [nums|e'] eqn:E.
  - destruct (existsb (fun t => N.ltb Py.int_max_str_digits
                                      (N.of_nat (List.length t))) nums) eqn:X.
    + apply existsb_exists in X; destruct X as (t & Ht & L).
      apply N.ltb_lt in L.
      rewrite (extract_ieee_long _ _ _ E Ht L) in H.
      split; [congruence|]. right; exists nums, t.
      pose proof (ieee_nums_digits _ _ E) as D; rewrite Forall_forall in D.
      auto.
    + destruct (extract_ieee_returns _ _ E) as (out & O); [|congruence].
      intros t Ht; apply N.le_ngt; intros L.
      assert (Y : existsb (fun t => N.ltb Py.int_max_str_digits
                                          (N.of_nat (List.length t))) nums
                  = true)
        by (apply existsb_exists; exists t; split;
            [exact Ht | apply N.ltb_lt, L]).
      congruence.
  - assert (e' = e) as ->
        by (unfold extract_ieee in H; rewrite E in H; inversion H; reflexivity).
    apply for_each_Raise in E; destruct E as (m & s1 & Hm & E).
    apply for_each_Raise in E; destruct E as (p & s2 & Hp & E).
    apply ieee_part_Raise in E; destruct E as (-> & F & S).
    split; [reflexivity|]. left; exists m, p; auto.
Qed.

Lemma values_ascending toks vals :
  Forall2 (fun t v => Py.isdigit t = true /\ Py.int t = Some v) toks vals ->
  StronglySorted Z.le vals ->
  StronglySorted (fun a b => (value a <= value b)%Z) toks.
Proof.
  intros F; induction F as [|t v toks vals [_ Hv] F IH]; intros S.
  - constructor.
  - inversion S as [|? ? S' Fv]; subst. constructor; [apply IH, S'|].
    unfold value at 1; rewrite Hv. clear - F Fv.
    induction F as [|t' v' toks vals [_ Hv'] F IH]; constructor.
    + unfold value; rewrite Hv'; inversion Fv; assumption.
    + apply IH; inversion Fv; assumption.
Qed.

(** The example of the specification. *)
Lemma ieee_example :
  extract_ieee set_order (lit "[1,3] and [2-4]")
  = Ok [lit "[1]"; lit "[2]"; lit "[3]"; lit "[4]"].
Proof.
  assert (En : for_each (finditer ieee_re (lit "[1,3] and [2-4]"))
                 (fun nums m =>
                    for_each (split comma_re (group m 1)) ieee_part nums) []
               = Ok [lit "1"; lit "3"; lit "2"; lit "3"; lit "4"])
    by (vm_compute; reflexivity).
  destruct (extract_ieee_returns _ _ En) as (out & E).
  { intros t [<-|[<-|[<-|[<-|[<-|[]]]]]]; vm_compute; discriminate. }
  rewrite E; apply extract_ieee_Ok in E.
  destruct E as (nums & toks & vals & En' & -> & ND & I & F & S).
  rewrite En in En'; inversion En'; subst nums; clear En'.
  rewrite (sorted_unique value [lit "1"; lit "2"; lit "3"; lit "4"] toks).
  - reflexivity.
  - exact ND.
  - intros x; rewrite I; simpl; tauto.
  - apply values_ascending with (vals := vals); assumption.
  - repeat (apply SSorted_cons || apply SSorted_nil
            || apply Forall_cons || apply Forall_nil);
      vm_compute; reflexivity.
Qed.

End IeeeReturns.

(* ================================================================== *)
(** * The properties of the specification *)
(* ================================================================== *)

(* ------------------------------------------------------------------ *)
(** ** Counts of the rows (C1) *)

(** C1, counterexample to [count_always_one].  The text
    [Smith (2020) (Smith, 2020)] puts the string [Smith, 2020] in the
    parenthetical and in the narrative family; the counter is keyed on
    the string alone, and both rows count 2. *)
Lemma count_always_one_fails : ~ count_always_one.
Proof.
  intros H.
  assert (E : Count (Row (lit "APA narrative") (lit "Smith, 2020") 2) = 1).
  { apply (H any_order (lit "Smith (2020) (Smith, 2020)")
             (table_of [lit "2020"; lit "Smith, 2020"] [lit "Smith, 2020"] [])).
    - vm_compute; reflexivity.
    - vm_compute; right; right; left; reflexivity. }
  discriminate E.
Qed.

(** C1, as amended.  For every text on which the aggregator returns, the
    count of a row is the number of families whose sequence holds the
    citation of the row: at least 1, at most 3, and 1 exactly when no
    other family holds the same string. *)
Theorem count_is_number_of_families set_order text tbl r :
  extract_citations_from_text set_order text = Ok tbl ->
  In r (extract_rows tbl) ->
  Count r = families_with (Citation r) tbl /\ 1 <= Count r <= 3.
Proof.
  intros H Hr.
  destruct (extract_rows_count tbl r (table_NoDup _ _ _ H) Hr) as [E B].
  split; [exact E|].
  apply table_Ok in H; destruct H as (ieee & _ & ->); exact B.
Qed.

(** The theorem at the text of the counterexample and its narrative
    row. *)
Lemma count_is_number_of_families_witness :
  extract_citations_from_text any_order (lit "Smith (2020) (Smith, 2020)")
  = Ok (table_of [lit "2020"; lit "Smith, 2020"] [lit "Smith, 2020"] [])
  /\ In (Row (lit "APA narrative") (lit "Smith, 2020") 2)
        (extract_rows
           (table_of [lit "2020"; lit "Smith, 2020"] [lit "Smith, 2020"] []))
  /\ Count (Row (lit "APA narrative") (lit "Smith, 2020") 2)
     = families_with
         (Citation (Row (lit "APA narrative") (lit "Smith, 2020") 2))
         (table_of [lit "2020"; lit "Smith, 2020"] [lit "Smith, 2020"] [])
  /\ 1 <= Count (Row (lit "APA narrative") (lit "Smith, 2020") 2) <= 3.
Proof.
  assert (H1 : extract_citations_from_text any_order
                 (lit "Smith (2020) (Smith, 2020)")
               = Ok (table_of [lit "2020"; lit "Smith, 2020"]
                              [lit "Smith, 2020"] []))
    by (vm_compute; reflexivity).
  assert (H2 : In (Row (lit "APA narrative") (lit "Smith, 2020") 2)
                  (extract_rows
                     (table_of [lit "2020"; lit "Smith, 2020"]
                               [lit "Smith, 2020"] [])))
    by (vm_compute; right; right; left; reflexivity).
  split; [exact H1|]. split; [exact H2|].
  exact (count_is_number_of_families _ _ _ _ H1 H2).
Defined.

(* ------------------------------------------------------------------ *)
(** ** The ends of the Citation Strings (C2) *)

(** C2, counterexample to [citations_clean].  In [(p. 5. Smith 2020)]
    the page reference goes after the first cleanup, the last cleanup
    strips blanks, commas and semicolons only, and the parenthetical
    family gets [. Smith 2020], which starts with a full stop. *)
Lemma citations_clean_fails : ~ citations_clean.
Proof.
  intros H.
  destruct (H any_order (lit "(p. 5. Smith 2020)")
              (table_of [lit ". Smith 2020"] [] [])
              APA_parenthetical [lit ". Smith 2020"] (lit ". Smith 2020"))
    as (_ & Hd & _).
  - vm_compute; reflexivity.
  - left; reflexivity.
  - left; reflexivity.
  - specialize (Hd 46%N (lit " Smith 2020") eq_refl); discriminate Hd.
Qed.

(** C2, as amended.  For every text on which the aggregator returns,
    every Citation String of the table is non-empty and neither starts
    nor ends with white space; in the narrative and the IEEE family it
    neither starts nor ends with a space, a full stop, a semicolon or a
    comma either. *)
Theorem citations_stripped set_order text tbl fam l s :
  extract_citations_from_text set_order text = Ok tbl ->
  In (fam, l) tbl -> In s l ->
  clean_ends Unicode.isspace s
  /\ (fam <> APA_parenthetical -> clean_ends punct s).
Proof.
  intros H Hl Hs; split.
  - destruct (table_family _ _ _ _ _ H Hl) as (seq & ->).
    apply dedupe_clean with (seq := seq), Hs.
  - intros Hf. pose proof H as H'.
    apply table_Ok in H'; destruct H' as (ieee & E & ->).
    destruct Hl as [I|[I|[I|[]]]]; inversion I; subst; clear I.
    + congruence.
    + apply narrative_clean with (text := text), Hs.
    + apply extract_ieee_Ok in E.
      destruct E as (nums & toks & vals & _ & -> & ND & _).
      rewrite (dedupe_bracketed _ ND) in Hs.
      apply in_map_iff in Hs; destruct Hs as (n & <- & _).
      apply (clean_ends_intro punct 91%N n 93%N); reflexivity.
Qed.

(** The theorem at a text with one citation of each family, for the
    narrative one. *)
Lemma citations_stripped_witness :
  extract_citations_from_text any_order (lit "Smith (2020) [3]")
  = Ok (table_of [lit "2020"] [lit "Smith, 2020"] [lit "[3]"])
  /\ In (APA_narrative, [lit "Smith, 2020"])
        (table_of [lit "2020"] [lit "Smith, 2020"] [lit "[3]"])
  /\ In (lit "Smith, 2020") [lit "Smith, 2020"]
  /\ clean_ends Unicode.isspace (lit "Smith, 2020")
  /\ (APA_narrative <> APA_parenthetical
      -> clean_ends punct (lit "Smith, 2020")).
Proof.
  assert (H1 : extract_citations_from_text any_order (lit "Smith (2020) [3]")
               = Ok (table_of [lit "2020"] [lit "Smith, 2020"] [lit "[3]"]))
    by (vm_compute; reflexivity).
  assert (H2 : In (APA_narrative, [lit "Smith, 2020"])
                  (table_of [lit "2020"] [lit "Smith, 2020"] [lit "[3]"]))
    by (right; left; reflexivity).
  assert (H3 : In (lit "Smith, 2020") [lit "Smith, 2020"])
    by (left; reflexivity).
  split; [exact H1|]. split; [exact H2|]. split; [exact H3|].
  exact (citations_stripped _ _ _ _ _ _ H1 H2 H3).
Defined.

(* ------------------------------------------------------------------ *)
(** ** Tokens that are not numbers (C3) *)

(** C3, counterexample to [abc_passed_through].  The bracket pattern
    asks for digits: [[abc]] is no match, and the IEEE sequence is
    empty. *)
Lemma abc_passed_through_fails : ~ abc_passed_through.
Proof.
  intros H; destruct (H any_order) as (tbl & l & E & I & A).
  vm_compute in E; inversion E; subst tbl; clear E.
  destruct I as [I|[I|[I|[]]]]; inversion I; subst; destruct A.
Qed.

(** C3, as amended.  For every text on which the aggregator returns,
    every string of the IEEE family is a string of digits between
    brackets, which [int] reads: no token that is not a number gets
    through, and [[abc]] yields none.  A part without a dash is kept as
    it is written, stripped of white space, without being read and
    printed again: [[007]] yields [[007]]. *)
Theorem ieee_strings_are_numbers set_order text tbl l s :
  extract_citations_from_text set_order text = Ok tbl ->
  In (IEEE_numeric, l) tbl -> In s l ->
  (exists n v, s = bracketed n /\ Py.isdigit n = true /\ Py.int n = Some v)
  /\ extract_citations_from_text set_order (lit "[abc]")
     = Ok (table_of [] [] [])
  /\ extract_citations_from_text set_order (lit "[007]")
     = Ok (table_of [] [] [lit "[007]"])
  /\ (forall nums p,
         Re.found hyphen_re p = false ->
         ieee_part nums p = Ok (nums ++ [Py.strip p])).
Proof.
  intros H Hl Hs; split; [|split; [|split]].
  - destruct (table_ieee _ _ _ _ H Hl) as (ieee & E & ->).
    apply extract_ieee_Ok in E.
    destruct E as (nums & toks & vals & _ & -> & ND & _ & F & _).
    rewrite (dedupe_bracketed _ ND) in Hs.
    apply in_map_iff in Hs; destruct Hs as (n & <- & Hn).
    clear - F Hn; induction F as [|t v toks vals [D V] F IH].
    + destruct Hn.
    + destruct Hn as [->|Hn]; [exists n, v; auto | apply IH, Hn].
  - vm_compute; reflexivity.
  - vm_compute; reflexivity.
  - intros nums p F; unfold ieee_part; rewrite F; reflexivity.
Qed.

(** The theorem at the text [[007]]. *)
Lemma ieee_strings_are_numbers_witness :
  extract_citations_from_text any_order (lit "[007]")
  = Ok (table_of [] [] [lit "[007]"])
  /\ In (IEEE_numeric, [lit "[007]"]) (table_of [] [] [lit "[007]"])
  /\ In (lit "[007]") [lit "[007]"]
  /\ (exists n v, lit "[007]" = bracketed n
                  /\ Py.isdigit n = true /\ Py.int n = Some v)
  /\ extract_citations_from_text any_order (lit "[abc]")
     = Ok (table_of [] [] [])
  /\ extract_citations_from_text any_order (lit "[007]")
     = Ok (table_of [] [] [lit "[007]"])
  /\ (forall nums p,
         Re.found hyphen_re p = false ->
         ieee_part nums p = Ok (nums ++ [Py.strip p])).
Proof.
  assert (H1 : extract_citations_from_text any_order (lit "[007]")
               = Ok (table_of [] [] [lit "[007]"]))
    by (vm_compute; reflexivity).
  assert (H2 : In (IEEE_numeric, [lit "[007]"])
                  (table_of [] [] [lit "[007]"]))
    by (right; right; left; reflexivity).
  assert (H3 : In (lit "[007]") [lit "[007]"]) by (left; reflexivity).
  split; [exact H1|]. split; [exact H2|]. split; [exact H3|].
  exact (ieee_strings_are_numbers _ _ _ _ _ H1 H2 H3).
Defined.

(* ------------------------------------------------------------------ *)
(** ** Totality (C4) *)

(** C4.  The aggregator is not total: on [[1-2-3]] it raises a
    ValueError.  Whenever it raises, it raises a ValueError from the IEEE
    extractor, for one of two reasons: a part of a bracket group holds a
    dash and has not two sides, and the unpacking into two names stands
    before the [try]; or a number gathered has more digits than [int]
    reads, and the sort key converts it outside a [try].  Each of the
    two makes it raise: so it does on [[1-2-3]] and on a bracket group
    of one number of 4301 digits.  The empty text gives the table of
    three empty sequences. *)
Theorem aggregator_raises_on_two_dashes set_order text e :
  extract_citations_from_text set_order text = Raise e ->
  (e = ValueError /\ (bad_part text \/ long_number text))
  /\ (forall text',
         bad_part text' \/ long_number text' ->
         extract_citations_from_text set_order text' = Raise ValueError)
  /\ extract_citations_from_text set_order (lit "[1-2-3]") = Raise ValueError
  /\ extract_citations_from_text set_order long_text = Raise ValueError
  /\ extract_citations_from_text set_order [] = Ok (table_of [] [] []).
Proof.
  intros H; split; [|split; [|split; [|split]]].
  - assert (E : extract_ieee set_order text = Raise e).
    { unfold extract_citations_from_text in H.
      destruct (extract_ieee set_order text) as [ieee|e0]; [discriminate|].
      cbn in H; inversion H; reflexivity. }
    apply extract_ieee_Raise in E; destruct E as [-> [B|L]].
    + split; [reflexivity | left; exact B].
    + destruct L as (nums & t & En & Ht & _ & L).
      split; [reflexivity | right; exists nums, t; auto].
  - intros text' [(m & p & Hm & Hp & F & S)|(nums & t & En & Ht & L)];
      unfold extract_citations_from_text.
    + rewrite (extract_ieee_bad set_order _ _ _ Hm Hp F S); reflexivity.
    + rewrite (extract_ieee_long set_order _ _ _ En Ht L); reflexivity.
  - vm_compute; reflexivity.
  - vm_compute; reflexivity.
  - vm_compute; reflexivity.
Qed.

(** The theorem at the text [[1-2-3]]. *)
Lemma aggregator_raises_on_two_dashes_witness :
  extract_citations_from_text any_order (lit "[1-2-3]") = Raise ValueError
  /\ (ValueError = ValueError
      /\ (bad_part (lit "[1-2-3]") \/ long_number (lit "[1-2-3]")))
  /\ (forall text',
         bad_part text' \/ long_number text' ->
         extract_citations_from_text any_order text' = Raise ValueError)
  /\ extract_citations_from_text any_order (lit "[1-2-3]") = Raise ValueError
  /\ extract_citations_from_text any_order long_text = Raise ValueError
  /\ extract_citations_from_text any_order [] = Ok (table_of [] [] []).
Proof.
  assert (H1 : extract_citations_from_text any_order (lit "[1-2-3]")
               = Raise ValueError)
    by (vm_compute; reflexivity).
  split; [exact H1|].
  exact (aggregator_raises_on_two_dashes _ _ _ H1).
Defined.

(* ------------------------------------------------------------------ *)
(** ** The IEEE sequence is sorted and without repetition (C5) *)

(** C5.  For every text on which the aggregator returns, the IEEE
    sequence has no repetition; its strings are the distinct numbers
    gathered from all the bracket groups of the text, each between
    brackets, in ascending order of their values.  For
    [[1,3] and [2-4]] the sequence is [[1]], [[2]], [[3]], [[4]]. *)
Theorem ieee_sorted_without_repetition set_order text tbl l :
  extract_citations_from_text set_order text = Ok tbl ->
  In (IEEE_numeric, l) tbl ->
  NoDup l
  /\ (exists nums toks vals,
         for_each (Re.finditer ieee_re text)
           (fun nums m =>
              for_each (Re.split comma_re (Re.group m 1)) ieee_part nums) []
         = Ok nums
         /\ l = List.map bracketed toks
         /\ (forall x, In x toks <-> In x nums)
         /\ Forall2 (fun t v => Py.isdigit t = true /\ Py.int t = Some v)
                    toks vals
         /\ StronglySorted Z.le vals)
  /\ extract_citations_from_text set_order (lit "[1,3] and [2-4]")
     = Ok (table_of [] [] [lit "[1]"; lit "[2]"; lit "[3]"; lit "[4]"]).
Proof.
  intros H Hl.
  destruct (table_ieee _ _ _ _ H Hl) as (ieee & E & ->).
  split; [apply dedupe_NoDup|]. split.
  - apply extract_ieee_Ok in E.
    destruct E as (nums & toks & vals & En & -> & ND & I & F & S).
    exists nums, toks, vals. rewrite (dedupe_bracketed _ ND). auto.
  - unfold extract_citations_from_text; rewrite ieee_example.
    vm_compute; reflexivity.
Qed.

(** The theorem at the text of the example. *)
Lemma ieee_sorted_without_repetition_witness :
  extract_citations_from_text any_order (lit "[1,3] and [2-4]")
  = Ok (table_of [] [] [lit "[1]"; lit "[2]"; lit "[3]"; lit "[4]"])
  /\ In (IEEE_numeric, [lit "[1]"; lit "[2]"; lit "[3]"; lit "[4]"])
        (table_of [] [] [lit "[1]"; lit "[2]"; lit "[3]"; lit "[4]"])
  /\ NoDup [lit "[1]"; lit "[2]"; lit "[3]"; lit "[4]"]
  /\ (exists nums toks vals,
         for_each (Re.finditer ieee_re (lit "[1,3] and [2-4]"))
           (fun nums m =>
              for_each (Re.split comma_re (Re.group m 1)) ieee_part nums) []
         = Ok nums
         /\ [lit "[1]"; lit "[2]"; lit "[3]"; lit "[4]"]
            = List.map bracketed toks
         /\ (forall x, In x toks <-> In x nums)
         /\ Forall2 (fun t v => Py.isdigit t = true /\ Py.int t = Some v)
                    toks vals
         /\ StronglySorted Z.le vals)
  /\ extract_citations_from_text any_order (lit "[1,3] and [2-4]")
     = Ok (table_of [] [] [lit "[1]"; lit "[2]"; lit "[3]"; lit "[4]"]).
Proof.
  assert (H1 : extract_citations_from_text any_order (lit "[1,3] and [2-4]")
               = Ok (table_of [] []
                       [lit "[1]"; lit "[2]"; lit "[3]"; lit "[4]"]))
    by (vm_compute; reflexivity).
  assert (H2 : In (IEEE_numeric, [lit "[1]"; lit "[2]"; lit "[3]"; lit "[4]"])
                  (table_of [] []
                     [lit "[1]"; lit "[2]"; lit "[3]"; lit "[4]"]))
    by (right; right; left; reflexivity).
  split; [exact H1|]. split; [exact H2|].
  exact (ieee_sorted_without_repetition _ _ _ _ H1 H2).
Defined.

(* ------------------------------------------------------------------ *)
(** ** Connector phrases (C6) *)

(** C6.  The phrase [see also] is not stripped in full: the alternative
    [see] stands before it in the pattern and always wins, so
    [(see also Smith, 2020)] yields [also Smith, 2020].  The other
    phrases of the list are stripped, in any case of letters and with
    the colon or comma that follows. *)
Theorem see_also_is_not_stripped set_order :
  _clean_piece (lit "see also Smith, 2020") = lit "also Smith, 2020"
  /\ extract_citations_from_text set_order (lit "(see also Smith, 2020)")
     = Ok (table_of [lit "also Smith, 2020"] [] [])
  /\ Forall (fun phrase =>
               _clean_piece (phrase ++ lit " Smith, 2020") = lit "Smith, 2020")
            [lit "see"; lit "e.g."; lit "e.g"; lit "i.e."; lit "i.e.,";
             lit "cf."; lit "for example"; lit "SEE:"; lit "For Example,"].
Proof.
  split; [|split]; try (vm_compute; reflexivity).
  repeat (apply Forall_cons || apply Forall_nil); vm_compute; reflexivity.
Qed.

(* ------------------------------------------------------------------ *)
(** ** Ranges that cannot be expanded (C7) *)

(** C7.  A part with a dash that is no range from an integer to one
    that is not smaller is skipped when it has two sides: it adds
    nothing and raises nothing, and the loop goes on with the numbers
    gathered so far; so [[5-2]] yields no number, in [[5-2,7]] the 7 is
    still emitted, and a range up to a number of 4301 digits, which
    [int] does not read, is skipped.  When it has not two sides it is
    not skipped: the
    unpacking into two names stands before the [try] and raises a
    ValueError, as for [3-2-1]; on [[3-2-1,7]] the aggregator raises and
    the 7 is not emitted. *)
Theorem bad_range_is_skipped_or_raises set_order (nums : list str) (p : str) :
  Re.found hyphen_re p = true -> ~ expands p ->
  ((exists a b, Re.split hyphen_re p = [a; b]) -> ieee_part nums p = Ok nums)
  /\ ((forall a b, Re.split hyphen_re p <> [a; b]) ->
      ieee_part nums p = Raise ValueError)
  /\ ieee_part nums long_range = Ok nums
  /\ ieee_part nums (lit "3-2-1") = Raise ValueError
  /\ extract_citations_from_text set_order (lit "[3-2-1,7]")
     = Raise ValueError
  /\ extract_citations_from_text set_order (lit "[5-2]")
     = Ok (table_of [] [] [])
  /\ extract_citations_from_text set_order (lit "[5-2,7]")
     = Ok (table_of [] [] [lit "[7]"]).
Proof.
  intros F B; split; [|split; [|split; [|split; [|split; [|split]]]]].
  - intros (a & b & S); unfold ieee_part; rewrite F, S.
    destruct (Py.int (Py.strip a)) as [x|] eqn:Ea; [|reflexivity].
    destruct (Py.int (Py.strip b)) as [y|] eqn:Eb; [|reflexivity].
    destruct (Z.leb_spec x y) as [L|L]; [|reflexivity].
    exfalso; apply B; exists a, b, x, y; auto.
  - intros S; unfold ieee_part; rewrite F.
    destruct (Re.split hyphen_re p) as [|a [|b [|c l]]]; try reflexivity.
    destruct (S a b eq_refl).
  - vm_compute; reflexivity.
  - unfold ieee_part.
    change (Re.found hyphen_re (lit "3-2-1")) with true.
    change (Re.split hyphen_re (lit "3-2-1")) with [lit "3"; lit "2"; lit "1"].
    reflexivity.
  - vm_compute; reflexivity.
  - vm_compute; reflexivity.
  - vm_compute; reflexivity.
Qed.

(** The theorem at the part [3-2-1], met with one number gathered. *)
Lemma bad_range_is_skipped_or_raises_witness :
  Re.found hyphen_re (lit "3-2-1") = true
  /\ ~ expands (lit "3-2-1")
  /\ ((exists a b, Re.split hyphen_re (lit "3-2-1") = [a; b]) ->
      ieee_part [lit "1"] (lit "3-2-1") = Ok [lit "1"])
  /\ ((forall a b, Re.split hyphen_re (lit "3-2-1") <> [a; b]) ->
      ieee_part [lit "1"] (lit "3-2-1") = Raise ValueError)
  /\ ieee_part [lit "1"] long_range = Ok [lit "1"]
  /\ ieee_part [lit "1"] (lit "3-2-1") = Raise ValueError
  /\ extract_citations_from_text any_order (lit "[3-2-1,7]")
     = Raise ValueError
  /\ extract_citations_from_text any_order (lit "[5-2]")
     = Ok (table_of [] [] [])
  /\ extract_citations_from_text any_order (lit "[5-2,7]")
     = Ok (table_of [] [] [lit "[7]"]).
Proof.
  assert (H1 : Re.found hyphen_re (lit "3-2-1") = true)
    by (vm_compute; reflexivity).
  assert (H2 : ~ expands (lit "3-2-1")).
  { intros (a & b & x & y & S & _); vm_compute in S; discriminate S. }
  split; [exact H1|]. split; [exact H2|].
  exact (bad_range_is_skipped_or_raises any_order [lit "1"] _ H1 H2).
Defined.

(* ------------------------------------------------------------------ *)
(** ** The parenthetical example (C8) *)

(** C8.  For the text of the specification the parenthetical family
    holds [Smith & Lee, 2020]. *)
Theorem parenthetical_example set_order :
  exists tbl l,
    extract_citations_from_text set_order
      (lit "The results (see Smith and Lee, 2020, pp. 12-15) were notable.")
    = Ok tbl
    /\ In (APA_parenthetical, l) tbl
    /\ In (lit "Smith & Lee, 2020") l.
Proof.
  exists (table_of [lit "Smith & Lee, 2020"] [] []), [lit "Smith & Lee, 2020"].
  split; [|split]; [vm_compute; reflexivity | left; reflexivity | left; reflexivity].
Qed.

(* ------------------------------------------------------------------ *)
(** ** Deduplication in order of first occurrence (C9) *)

(** C9, counterexample to [dedupe_follows_candidates].  [dedupe] strips
    each candidate before it looks it up.  The first candidate of
    [tab_text] starts with a tab; stripped, it is the third candidate,
    [Smith 2020], which therefore comes out before [Lee 2019], although
    it first occurs after it. *)
Lemma dedupe_follows_candidates_fails : ~ dedupe_follows_candidates.
Proof.
  intros H.
  destruct (H any_order tab_text
              (table_of [lit "Smith 2020"; lit "Lee 2019"] [] []))
    as (ieee & _ & F); [vm_compute; reflexivity|].
  inversion F as [|? ? ? ? (_ & _ & S) _]; subst; clear F.
  inversion S as [|? ? _ Fa]; subst; clear S.
  inversion Fa as [|? ? Lt _]; subst; clear Fa.
  vm_compute in Lt; lia.
Qed.

(** C9, as amended.  For every text on which the aggregator returns and
    every family, the sequence of the family has no two equal strings
    and no empty string; it holds the non-empty strings among the
    candidates of the family stripped of surrounding white space, in the
    order of their first occurrences among the stripped candidates. *)
Theorem dedupe_follows_stripped_candidates set_order text tbl :
  extract_citations_from_text set_order text = Ok tbl ->
  exists ieee,
    extract_ieee set_order text = Ok ieee
    /\ Forall2
         (fun kv cands =>
            NoDup (snd kv) /\ ~ In [] (snd kv)
            /\ (forall x, In x (snd kv)
                          <-> x <> [] /\ In x (List.map Py.strip cands))
            /\ in_order_of (List.map Py.strip cands) (snd kv))
         tbl
         [extract_apa_parenthetical text; extract_apa_narrative text; ieee].
Proof.
  intros H; apply table_Ok in H; destruct H as (ieee & E & ->).
  exists ieee; split; [exact E|].
  assert (D : forall seq,
             NoDup (dedupe seq) /\ ~ In [] (dedupe seq)
             /\ (forall x, In x (dedupe seq)
                           <-> x <> [] /\ In x (List.map Py.strip seq))
             /\ in_order_of (List.map Py.strip seq) (dedupe seq)).
  { intros seq; split; [apply dedupe_NoDup|]. split; [|split].
    - intros I; apply dedupe_In in I; tauto.
    - apply dedupe_In.
    - apply dedupe_order. }
  constructor; [apply D|]. constructor; [apply D|].
  constructor; [apply D | constructor].
Qed.

(** The theorem at the text of the counterexample. *)
Lemma dedupe_follows_stripped_candidates_witness :
  extract_citations_from_text any_order tab_text
  = Ok (table_of [lit "Smith 2020"; lit "Lee 2019"] [] [])
  /\ exists ieee,
       extract_ieee any_order tab_text = Ok ieee
       /\ Forall2
            (fun kv cands =>
               NoDup (snd kv) /\ ~ In [] (snd kv)
               /\ (forall x, In x (snd kv)
                             <-> x <> [] /\ In x (List.map Py.strip cands))
               /\ in_order_of (List.map Py.strip cands) (snd kv))
            (table_of [lit "Smith 2020"; lit "Lee 2019"] [] [])
            [extract_apa_parenthetical tab_text;
             extract_apa_narrative tab_text; ieee].
Proof.
  assert (H1 : extract_citations_from_text any_order tab_text
               = Ok (table_of [lit "Smith 2020"; lit "Lee 2019"] [] []))
    by (vm_compute; reflexivity).
  split; [exact H1|].
  exact (dedupe_follows_stripped_candidates _ _ _ H1).
Defined.

(* ------------------------------------------------------------------ *)
(** ** The names of the narrative extractor (C10) *)

(** C10.  The name of every match of the narrative pattern is one
    capitalized token, two of them joined by an ampersand, or one
    followed by [et al.]; the replacement of the word and changes no
    such name.  For [Smith and Lee (2020)] the narrative family holds
    [Lee, 2020] and not [Smith & Lee, 2020]. *)
Theorem narrative_name_has_no_and set_order text m :
  In m (Re.finditer narrative_re text) ->
  name_shape (Re.group m 1)
  /\ Re.sub and_re (fun _ => lit " & ") (Re.group m 1) = Re.group m 1
  /\ exists tbl l,
       extract_citations_from_text set_order (lit "Smith and Lee (2020)")
       = Ok tbl
       /\ In (APA_narrative, l) tbl
       /\ In (lit "Lee, 2020") l
       /\ ~ In (lit "Smith & Lee, 2020") l.
Proof.
  intros H; destruct (narrative_groups _ _ H) as [L _].
  split; [apply narrative_name_shape, L|].
  split; [apply and_re_identity, narrative_name_no_blank_an, L|].
  exists (table_of [lit "2020"] [lit "Lee, 2020"] []), [lit "Lee, 2020"].
  split; [|split; [|split]].
  - vm_compute; reflexivity.
  - right; left; reflexivity.
  - left; reflexivity.
  - intros [E|[]]; vm_compute in E; discriminate E.
Qed.

(** The theorem at the only match of the narrative pattern in
    [Smith and Lee (2020)]. *)
Lemma narrative_name_has_no_and_witness :
  In (Re.Match 10 20 (lit "Lee (2020)") [(2, lit "2020"); (1, lit "Lee")])
     (Re.finditer narrative_re (lit "Smith and Lee (2020)"))
  /\ name_shape (lit "Lee")
  /\ Re.sub and_re (fun _ => lit " & ") (lit "Lee") = lit "Lee"
  /\ exists tbl l,
       extract_citations_from_text any_order (lit "Smith and Lee (2020)")
       = Ok tbl
       /\ In (APA_narrative, l) tbl
       /\ In (lit "Lee, 2020") l
       /\ ~ In (lit "Smith & Lee, 2020") l.
Proof.
  assert (H1 : In (Re.Match 10 20 (lit "Lee (2020)")
                            [(2, lit "2020"); (1, lit "Lee")])
                  (Re.finditer narrative_re (lit "Smith and Lee (2020)")))
    by (vm_compute; left; reflexivity).
  split; [exact H1|].
  exact (narrative_name_has_no_and any_order _ _ H1).
Defined.

(* ================================================================== *)
(** * Further properties of the code *)
(* ================================================================== *)

(* ------------------------------------------------------------------ *)
(** ** What a text must hold to yield a citation (X1, X2, X3) *)

Section Needs.
Import Re ReSpec ReFacts.

Lemma hits_skipped s : hits (List.map Skipped s) = [].
Proof. induction s; simpl; auto. Qed.

Lemma finditer_needs P r text :
  needs P r -> existsb P text = false -> finditer r text = [].
Proof.
  intros L H; unfold finditer; rewrite scan_no_hit; [apply hits_skipped|].
  intros x s' E.
  destruct (match_at r (0 + List.length x) s' false) as [st|] eqn:M;
    [|reflexivity].
  apply match_at_sound, run_consumes in M.
  destruct M as (w & Ew & _ & Lw); simpl in Ew.
  apply L in Lw; subst text s'.
  rewrite !existsb_app, Lw, orb_true_r in H; discriminate.
Qed.

Lemma needs_chr (P p : char -> bool) :
  (forall c, p c = true -> P c = true) -> needs P (Chr p).
Proof.
  intros H w L; apply lang_chr_inv in L; destruct L as (c & -> & Hc).
  simpl; rewrite (H _ Hc); reflexivity.
Qed.

Lemma needs_seq_l P r1 r2 : needs P r1 -> needs P (Seq r1 r2).
Proof.
  intros H w L; apply lang_seq_inv in L; destruct L as (w1 & w2 & -> & L1 & _).
  rewrite existsb_app, (H _ L1); reflexivity.
Qed.

Lemma needs_seq_r P r1 r2 : needs P r2 -> needs P (Seq r1 r2).
Proof.
  intros H w L; apply lang_seq_inv in L; destruct L as (w1 & w2 & -> & _ & L2).
  rewrite existsb_app, (H _ L2); apply orb_true_r.
Qed.

Lemma needs_grp P i r : needs P r -> needs P (Grp i r).
Proof. intros H w L; inversion L; subst; auto. Qed.

Lemma needs_eqb c : needs (N.eqb c) (chr c).
Proof.
  apply needs_chr; intros x H; apply N.eqb_eq in H; subst; apply N.eqb_refl.
Qed.

Lemma needs_digit_twice : needs Unicode.isdecimal (twice digit).
Proof. apply needs_seq_l, needs_chr; auto. Qed.

Lemma year_needs_digit : needs Unicode.isdecimal RE_YEAR.
Proof. apply needs_seq_r, needs_seq_l, needs_digit_twice. Qed.

Lemma paren_needs_digit : needs Unicode.isdecimal paren_re.
Proof.
  apply needs_seq_r, needs_seq_l, needs_grp.
  apply needs_seq_r, needs_seq_r, needs_seq_l, needs_digit_twice.
Qed.

Lemma narrative_needs_digit : needs Unicode.isdecimal narrative_re.
Proof.
  do 4 apply needs_seq_r. apply needs_seq_l, needs_grp, year_needs_digit.
Qed.

Lemma ieee_needs_digit : needs Unicode.isdecimal ieee_re.
Proof.
  apply needs_seq_r, needs_seq_l, needs_grp, needs_seq_l, needs_seq_l.
  apply needs_chr; auto.
Qed.

Lemma paren_needs_open : needs (N.eqb 40) paren_re.
Proof. apply needs_seq_l, needs_eqb. Qed.

Lemma paren_needs_close : needs (N.eqb 41) paren_re.
Proof. do 2 apply needs_seq_r; apply needs_eqb. Qed.

Lemma narrative_needs_open : needs (N.eqb 40) narrative_re.
Proof. do 2 apply needs_seq_r; apply needs_seq_l, needs_eqb. Qed.

Lemma narrative_needs_close : needs (N.eqb 41) narrative_re.
Proof. do 6 apply needs_seq_r; apply needs_eqb. Qed.

Lemma ieee_needs_open : needs (N.eqb 91) ieee_re.
Proof. apply needs_seq_l, needs_eqb. Qed.

Lemma ieee_needs_close : needs (N.eqb 93) ieee_re.
Proof. do 2 apply needs_seq_r; apply needs_eqb. Qed.

Lemma extract_ieee_no_match set_order text :
  finditer ieee_re text = [] -> extract_ieee set_order text = Ok [].
Proof. intros H; unfold extract_ieee; rewrite H; reflexivity. Qed.

End Needs.

Lemma no_digit_table set_order text :
  existsb Unicode.isdecimal text = false ->
  extract_citations_from_text set_order text = Ok (table_of [] [] []).
Proof.
  intros H; unfold extract_citations_from_text.
  rewrite (extract_ieee_no_match _ _ (finditer_needs _ _ _ ieee_needs_digit H)).
  unfold extract_apa_parenthetical, extract_apa_narrative.
  rewrite (finditer_needs _ _ _ paren_needs_digit H),
    (finditer_needs _ _ _ narrative_needs_digit H).
  reflexivity.
Qed.

Lemma not_In_existsb (c : char) text : ~ In c text -> existsb (N.eqb c) text = false.
Proof.
  intros H; destruct (existsb (N.eqb c) text) eqn:E; [|reflexivity].
  apply existsb_exists in E; destruct E as (x & Hx & E).
  apply N.eqb_eq in E; subst; contradiction.
Qed.

(** X1.  A text without a decimal digit yields no citation: each of the
    three patterns asks for one, so the Citation Table holds three
    empty sequences. *)
Theorem no_digit_no_citation set_order text :
  existsb Unicode.isdecimal text = false ->
  extract_citations_from_text set_order text = Ok (table_of [] [] []).
Proof. apply no_digit_table. Qed.

(** The theorem at a text with parentheses and brackets and no digit. *)
Lemma no_digit_no_citation_witness :
  existsb Unicode.isdecimal (lit "No citation (see above) [a].") = false
  /\ extract_citations_from_text any_order (lit "No citation (see above) [a].")
     = Ok (table_of [] [] []).
Proof.
  assert (H1 : existsb Unicode.isdecimal (lit "No citation (see above) [a].")
               = false)
    by (vm_compute; reflexivity).
  split; [exact H1|].
  exact (no_digit_no_citation any_order _ H1).
Defined.

(** X2.  A text without an opening or without a closing parenthesis
    yields no APA candidate, parenthetical or narrative. *)
Theorem no_parenthesis_no_apa text :
  ~ In 40%N text \/ ~ In 41%N text ->
  extract_apa_parenthetical text = [] /\ extract_apa_narrative text = [].
Proof.
  unfold extract_apa_parenthetical, extract_apa_narrative.
  intros [H|H]; apply not_In_existsb in H.
  - rewrite (finditer_needs _ _ _ paren_needs_open H),
      (finditer_needs _ _ _ narrative_needs_open H); split; reflexivity.
  - rewrite (finditer_needs _ _ _ paren_needs_close H),
      (finditer_needs _ _ _ narrative_needs_close H); split; reflexivity.
Qed.

(** The theorem at a text without an opening parenthesis. *)
Lemma no_parenthesis_no_apa_witness :
  (~ In 40%N (lit "Smith 2020) and [3]") \/ ~ In 41%N (lit "Smith 2020) and [3]"))
  /\ extract_apa_parenthetical (lit "Smith 2020) and [3]") = []
  /\ extract_apa_narrative (lit "Smith 2020) and [3]") = [].
Proof.
  assert (H1 : ~ In 40%N (lit "Smith 2020) and [3]")
               \/ ~ In 41%N (lit "Smith 2020) and [3]")).
  { left; intros H; vm_compute in H.
    repeat (destruct H as [H|H]; [discriminate H|]); exact H. }
  split; [exact H1|].
  exact (no_parenthesis_no_apa _ H1).
Defined.

(** X3.  A text without an opening or without a closing square bracket
    yields no IEEE citation, and [extract_ieee] does not raise on it,
    whatever ranges it holds. *)
Theorem no_bracket_no_ieee set_order text :
  ~ In 91%N text \/ ~ In 93%N text ->
  extract_ieee set_order text = Ok [].
Proof.
  intros [H|H]; apply not_In_existsb in H; apply extract_ieee_no_match.
  - apply (finditer_needs _ _ _ ieee_needs_open H).
  - apply (finditer_needs _ _ _ ieee_needs_close H).
Qed.

(** The theorem at a text with a part of two dashes and no opening
    bracket. *)
Lemma no_bracket_no_ieee_witness :
  (~ In 91%N (lit "Smith (2020), 1-2-3]") \/ ~ In 93%N (lit "Smith (2020), 1-2-3]"))
  /\ extract_ieee any_order (lit "Smith (2020), 1-2-3]") = Ok [].
Proof.
  assert (H1 : ~ In 91%N (lit "Smith (2020), 1-2-3]")
               \/ ~ In 93%N (lit "Smith (2020), 1-2-3]")).
  { left; intros H; vm_compute in H.
    repeat (destruct H as [H|H]; [discriminate H|]); exact H. }
  split; [exact H1|].
  exact (no_bracket_no_ieee any_order _ H1).
Defined.

(* ------------------------------------------------------------------ *)
(** ** [_clean_piece] only trims (X4) *)

Lemma part_of_refl s : part_of s s.
Proof. exists [], []; rewrite app_nil_r; reflexivity. Qed.

Lemma part_of_trans a b c : part_of a b -> part_of b c -> part_of a c.
Proof.
  intros (u & v & ->) (u' & v' & ->).
  exists (u' ++ u), (v ++ v'); rewrite <- !app_assoc; reflexivity.
Qed.

Lemma part_of_suffix x s : part_of s (x ++ s).
Proof. exists x, []; rewrite app_nil_r; reflexivity. Qed.

Lemma part_of_prefix x s : part_of s (s ++ x).
Proof. exists [], x; reflexivity. Qed.

Lemma part_of_In a s c : part_of a s -> In c a -> In c s.
Proof. intros (u & v & ->) H; apply in_or_app; right; apply in_or_app; auto. Qed.

Lemma lstrip_by_part p s : part_of (Py.lstrip_by p s) s.
Proof.
  destruct (PyFacts.lstrip_by_suffix p s) as (w & E & _).
  rewrite E at 2; apply part_of_suffix.
Qed.

Lemma rstrip_by_part p s : part_of (Py.rstrip_by p s) s.
Proof.
  unfold Py.rstrip_by.
  destruct (PyFacts.lstrip_by_suffix p (rev s)) as (w & E & _).
  apply (f_equal (@rev char)) in E; rewrite rev_involutive, rev_app_distr in E.
  rewrite E at 2; apply part_of_prefix.
Qed.

Lemma strip_by_part p s : part_of (Py.strip_by p s) s.
Proof.
  unfold Py.strip_by.
  apply part_of_trans with (b := Py.lstrip_by p s);
    [apply rstrip_by_part | apply lstrip_by_part].
Qed.

Section Connector.
Import Re ReSpec ReFacts ScanFacts.

Lemma needs_alt P r1 r2 : needs P r1 -> needs P r2 -> needs P (Alt r1 r2).
Proof.
  intros H1 H2 w L; apply lang_alt_inv in L; destruct L; auto.
Qed.

Lemma needs_nonempty r w :
  needs (fun _ => true) r -> lang r w -> w <> [].
Proof. intros H L; apply H in L; destruct w; [discriminate | discriminate]. Qed.

Lemma needs_seqs_head P r rs : needs P r -> needs P (seqs (r :: rs)).
Proof. intros H; destruct rs; [exact H | apply needs_seq_l, H]. Qed.

Lemma ichr_nonempty c : needs (fun _ => true) (ichr c).
Proof.
  unfold ichr.
  destruct (Unicode.is_lower_ascii c); [apply needs_chr; reflexivity|].
  destruct (Unicode.is_upper_ascii c); apply needs_chr; reflexivity.
Qed.

Lemma connector_nonempty : needs (fun _ => true) connector_re.
Proof.
  apply needs_seq_r, needs_seq_l.
  repeat apply needs_alt;
    first [ apply (needs_seqs_head _ (ichr _)), ichr_nonempty
          | apply needs_seq_l, (needs_seqs_head _ (ichr _)), ichr_nonempty ].
Qed.

Lemma match_at_bol r pos s adv :
  pos <> 0 -> match_at (Seq Bol r) pos s adv = None.
Proof. intros H; destruct pos; [congruence | reflexivity]. Qed.

Lemma scan_bol r s pos :
  pos <> 0 -> scan (Seq Bol r) pos s 0 = List.map Skipped s.
Proof.
  intros H; apply scan_no_hit; intros x s' _; apply match_at_bol; lia.
Qed.

(** A pattern anchored at the start that matches no empty word is
    replaced at most once, at the start. *)
Lemma sub_bol r repl s :
  needs (fun _ => true) (Seq Bol r) ->
  sub (Seq Bol r) repl s = s
  \/ exists w rest m, s = w ++ rest /\ w <> []
                      /\ sub (Seq Bol r) repl s = repl m ++ rest.
Proof.
  intros Ne; unfold sub.
  destruct (match_at (Seq Bol r) 0 s false) as [st|] eqn:M.
  - right. pose proof (match_at_sound _ _ _ _ _ M) as R.
    apply run_consumes in R; destruct R as (w & E & P & L).
    cbn [m_rest m_pos] in E, P. pose proof (needs_nonempty _ _ Ne L) as Hw.
    exists w, (m_rest st), (mk_match 0 s st); split; [exact E|]. split; [exact Hw|].
    rewrite E at 1. rewrite E in M.
    rewrite (scan_hit _ _ _ _ _ Hw M P), scan_bol
      by (destruct w; [congruence | simpl; lia]).
    cbn [substitute]. rewrite substitute_skipped, <- E; reflexivity.
  - left. rewrite scan_no_hit; [apply substitute_skipped|].
    intros x s' E. destruct x as [|c x]; [simpl in *; subst; exact M|].
    apply match_at_bol; simpl; lia.
Qed.

End Connector.

Lemma clean_piece_part s : part_of (_clean_piece s) s.
Proof.
  unfold _clean_piece.
  apply part_of_trans with (b := Py.strip s); [|apply strip_by_part].
  apply part_of_trans with (b := Re.sub connector_re (fun _ => []) (Py.strip s));
    [apply strip_by_part|].
  destruct (sub_bol _ (fun _ => []) (Py.strip s) connector_nonempty)
    as [E|(w & rest & m & E & _ & E')].
  - change (Re.Seq Re.Bol _) with connector_re in E. rewrite E; apply part_of_refl.
  - change (Re.Seq Re.Bol _) with connector_re in E'. rewrite E', E.
    apply part_of_suffix.
Qed.

(** X4.  [_clean_piece] only trims: what it returns is a contiguous part
    of its argument, and it is empty or neither starts nor ends with a
    space, a full stop, a semicolon or a comma. *)
Theorem clean_piece_trims s :
  part_of (_clean_piece s) s
  /\ (_clean_piece s = [] \/ clean_ends punct (_clean_piece s)).
Proof.
  split; [apply clean_piece_part|].
  destruct (_clean_piece s) as [|c t] eqn:E; [left; reflexivity | right].
  split; [discriminate|]. unfold _clean_piece, Py.strip_chars in E. split.
  - intros c' t' E'; rewrite E' in E.
    apply (PyFacts.strip_by_head _ _ _ _ E).
  - intros u c' E'; rewrite E' in E.
    apply (PyFacts.strip_by_last _ _ _ _ E).
Qed.

(* ------------------------------------------------------------------ *)
(** ** The parenthetical family (X5, X6) *)

Section Origins.
Import Re ReSpec ReFacts ScanFacts.

Lemma scan_skipped_In r s :
  forall pos skip c, In (Skipped c) (scan r pos s skip) -> In c s.
Proof.
  induction s as [|a s IH]; intros pos skip c.
  - simpl. destruct skip; [|intros []].
    destruct (match_at r pos [] false) as [st|]; [|intros []].
    destruct (Nat.eqb (m_pos st) pos).
    + destruct (match_at r pos [] true); simpl; intros H;
        repeat (destruct H as [H|H]; [discriminate H|]); destruct H.
    + simpl; intros [H|[]]; discriminate H.
  - simpl. destruct skip as [|k]; [|intros H; right; apply (IH _ _ _ H)].
    destruct (match_at r pos (a :: s) false) as [st|].
    + destruct (Nat.eqb (m_pos st) pos).
      * destruct (match_at r pos (a :: s) true); simpl.
        -- intros [H|[H|H]]; try discriminate H. right; apply (IH _ _ _ H).
        -- intros [H|[H|H]]; try discriminate H.
           ++ inversion H; left; reflexivity.
           ++ right; apply (IH _ _ _ H).
      * simpl; intros [H|H]; [discriminate H | right; apply (IH _ _ _ H)].
    + simpl; intros [H|H]; [inversion H; left; reflexivity|].
      right; apply (IH _ _ _ H).
Qed.

(** Every match of a scan comes from an attempt at some place of the
    subject. *)
Lemma scan_hits_at r s :
  forall pos skip m,
    In m (hits (scan r pos s skip)) ->
    exists x s' adv st,
      s = x ++ s'
      /\ match_at r (pos + List.length x) s' adv = Some st
      /\ m = mk_match (pos + List.length x) s' st.
Proof.
  assert (Here : forall pos s adv st,
             match_at r pos s adv = Some st ->
             exists x s' adv' st',
               s = x ++ s'
               /\ match_at r (pos + List.length x) s' adv' = Some st'
               /\ mk_match pos s st = mk_match (pos + List.length x) s' st').
  { intros pos s0 adv st H; exists [], s0, adv, st; simpl.
    rewrite Nat.add_0_r; auto. }
  assert (Later : forall pos a s m,
             (exists x s' adv st,
                 s = x ++ s'
                 /\ match_at r (S pos + List.length x) s' adv = Some st
                 /\ m = mk_match (S pos + List.length x) s' st) ->
             exists x s' adv st,
               a :: s = x ++ s'
               /\ match_at r (pos + List.length x) s' adv = Some st
               /\ m = mk_match (pos + List.length x) s' st).
  { intros pos a s0 m (x & s' & adv & st & -> & H & ->).
    exists (a :: x), s', adv, st; simpl.
    rewrite <- Nat.add_succ_comm; auto. }
  induction s as [|a s IH]; intros pos skip m.
  - simpl. destruct skip; [|intros []].
    destruct (match_at r pos [] false) as [st|] eqn:E; [|intros []].
    destruct (Nat.eqb (m_pos st) pos).
    + simpl; intros [<-|H]; [eapply Here; eassumption|].
      destruct (match_at r pos [] true) as [st2|] eqn:E2; [|destruct H].
      destruct H as [<-|[]]; eapply Here; eassumption.
    + simpl; intros [<-|[]]; eapply Here; eassumption.
  - simpl. destruct skip as [|k]; [|intros H; apply Later, (IH _ _ _ H)].
    destruct (match_at r pos (a :: s) false) as [st|] eqn:E.
    + destruct (Nat.eqb (m_pos st) pos).
      * simpl; intros [<-|H]; [eapply Here; eassumption|].
        destruct (match_at r pos (a :: s) true) as [st2|] eqn:E2.
        -- destruct H as [<-|H]; [eapply Here; eassumption|].
           apply Later, (IH _ _ _ H).
        -- simpl in H; apply Later, (IH _ _ _ H).
      * simpl; intros [<-|H]; [eapply Here; eassumption|].
        apply Later, (IH _ _ _ H).
    + simpl; intros H; apply Later, (IH _ _ _ H).
Qed.

Lemma finditer_at r s m :
  In m (finditer r s) ->
  exists x s' st,
    s = x ++ s' /\ run r (MState (List.length x) s' []) st
    /\ m = mk_match (List.length x) s' st.
Proof.
  intros H; apply scan_hits_at in H.
  destruct H as (x & s' & adv & st & E & H & ->).
  apply match_at_sound in H; simpl in *; eauto 6.
Qed.

Lemma substitute_In repl ts c :
  In c (substitute repl ts) ->
  In (Skipped c) ts \/ exists m, In m (hits ts) /\ In c (repl m).
Proof.
  induction ts as [|[a|m] ts IH]; simpl; [tauto| |].
  - intros [->|H]; [left; left; reflexivity|].
    destruct (IH H) as [H'|H']; [left; right; exact H' | right; exact H'].
  - intros H; apply in_app_or in H; destruct H as [H|H].
    + right; exists m; split; [left; reflexivity | exact H].
    + destruct (IH H) as [H'|(m' & Hm & Hc)]; [left; right; exact H'|].
      right; exists m'; split; [right; exact Hm | exact Hc].
Qed.

(** A character of [re.sub(r, repl, s)] is one of [s] or one of a
    replacement. *)
Lemma sub_In r repl s c :
  In c (sub r repl s) ->
  In c s \/ exists m, In m (finditer r s) /\ In c (repl m).
Proof.
  intros H; apply substitute_In in H; destruct H as [H|H]; [left | right; exact H].
  apply (scan_skipped_In _ _ _ _ _ H).
Qed.

Lemma pieces_In ts x c :
  In x (fst (pieces ts) :: snd (pieces ts)) -> In c x -> In (Skipped c) ts.
Proof.
  revert x; induction ts as [|[a|m] ts IH]; intros x; simpl.
  - intros [<-|[]] [].
  - destruct (pieces ts) as [p ps]; simpl in *.
    intros [<-|H] Hc.
    + destruct Hc as [->|Hc]; [left; reflexivity|].
      right; apply (IH p); [left; reflexivity | exact Hc].
    + right; apply (IH x); [right; exact H | exact Hc].
  - destruct (pieces ts) as [p ps]; simpl in *.
    intros [<-|H] Hc; [destruct Hc|].
    right; apply (IH x); assumption.
Qed.

(** A piece of [re.split(r, s)] is made of characters of [s]. *)
Lemma split_In r s x c : In x (split r s) -> In c x -> In c s.
Proof.
  unfold split; intros H Hc.
  apply (scan_skipped_In r s 0 0), (pieces_In _ x); [|exact Hc].
  destruct (pieces (scan r 0 s 0)); exact H.
Qed.

(** The first group of a pattern that starts with it: a word of the
    group's pattern, found in the subject. *)
Lemma first_group_at i r1 r2 s m :
  groups_free r2 = true -> i <> 0 ->
  In m (finditer (Seq (Grp i r1) r2) s) ->
  lang r1 (group m i) /\ part_of (group m i) s.
Proof.
  intros G Hi H; apply finditer_at in H.
  destruct H as (x & s' & st & -> & R & ->).
  apply run_seq_inv in R; destruct R as (st1 & R1 & R2).
  apply run_grp_inv in R1; destruct R1 as (w & st0 & R0 & L & E & ->).
  apply run_groups_free in R2; [|exact G].
  unfold group, mk_match; cbn [m_captures m_groups set_group] in *.
  destruct i as [|i]; [congruence|].
  rewrite R2.
  cbn [lookup]; rewrite Nat.eqb_refl.
  split; [exact L|]. cbn [m_rest] in E; rewrite E.
  exists x, (m_rest st0); reflexivity.
Qed.

(** The group between two parts without groups. *)
Lemma middle_group_at i r0 r1 r2 s m :
  groups_free r0 = true -> groups_free r2 = true -> i <> 0 ->
  In m (finditer (Seq r0 (Seq (Grp i r1) r2)) s) ->
  lang r1 (group m i).
Proof.
  intros G0 G2 Hi H; apply finditer_at in H.
  destruct H as (x & s' & st & -> & R & ->).
  apply run_seq_inv in R; destruct R as (st0 & R0 & R).
  apply run_seq_inv in R; destruct R as (st1 & R1 & R2).
  apply run_grp_inv in R1; destruct R1 as (w & st0' & _ & L & _ & ->).
  apply run_groups_free in R2; [|exact G2].
  unfold group, mk_match; cbn [m_captures m_groups set_group] in *.
  destruct i as [|i]; [congruence|].
  rewrite R2; cbn [lookup]; rewrite Nat.eqb_refl; exact L.
Qed.

Lemma only_chr (P p : char -> bool) :
  (forall c, p c = true -> P c = true) -> only P (Chr p).
Proof.
  intros H w L; apply lang_chr_inv in L; destruct L as (c & -> & Hc).
  simpl; rewrite (H _ Hc); reflexivity.
Qed.

Lemma only_seq P r1 r2 : only P r1 -> only P r2 -> only P (Seq r1 r2).
Proof.
  intros H1 H2 w L; apply lang_seq_inv in L.
  destruct L as (w1 & w2 & -> & L1 & L2).
  rewrite forallb_app, (H1 _ L1), (H2 _ L2); reflexivity.
Qed.

Lemma only_alt P r1 r2 : only P r1 -> only P r2 -> only P (Alt r1 r2).
Proof. intros H1 H2 w L; apply lang_alt_inv in L; destruct L; auto. Qed.

Lemma only_star P g r : only P r -> only P (Star g r).
Proof.
  intros H w L; apply lang_star_inv in L; destruct L as (ws & -> & F).
  induction F as [|w ws Hw _ IH]; simpl; [reflexivity|].
  rewrite forallb_app, (H _ Hw), IH; reflexivity.
Qed.

Lemma only_text P s : forallb P (lit s) = true -> only P (text s).
Proof. intros H w L; apply lang_text in L; subst; exact H. Qed.

Lemma decimal_no_bracket c : Unicode.isdecimal c = true -> no_bracket c = true.
Proof.
  intros H; unfold no_bracket.
  replace (existsb (N.eqb c) (lit "()"))
    with (Unicode.in_ranges [(40, 41)]%N c).
  - rewrite isdecimal_ranges in H.
    rewrite (ranges_disjoint_spec decimal_ranges [(40, 41)]%N c);
      [reflexivity | vm_compute; reflexivity | exact H].
  - change (lit "()") with [40; 41]%N.
    cbv [Unicode.in_ranges Unicode.in_range existsb fst snd].
    unfold char in *.
    destruct (N.eqb_spec c 40), (N.eqb_spec c 41),
      (N.leb_spec 40 c), (N.leb_spec c 41); simpl; try reflexivity; lia.
Qed.

Lemma inside_no_bracket text m :
  In m (finditer paren_re text) -> forallb no_bracket (group m 1) = true.
Proof.
  intros H; apply middle_group_at in H; [|reflexivity|reflexivity|discriminate].
  revert H; generalize (group m 1).
  change (only no_bracket
            (seqs [lazy_star (none_of (lit "()"));
                   Alt (Re.text "19") (Re.text "20"); twice digit;
                   star (none_of (lit "()"))])).
  cbn [seqs].
  apply only_seq; [apply only_star, only_chr; auto|].
  apply only_seq; [apply only_alt; apply only_text; reflexivity|].
  apply only_seq; [apply only_seq; apply only_chr, decimal_no_bracket|].
  apply only_star, only_chr; auto.
Qed.

End Origins.

Section Parenthetical.
Import Re ReSpec ReFacts ScanFacts.

Lemma apa_piece_app results part :
  apa_piece results part = results ++ apa_piece [] part.
Proof.
  unfold apa_piece; destruct (found RE_YEAR (_clean_piece part));
    [reflexivity | rewrite app_nil_r; reflexivity].
Qed.

Lemma apa_pieces_fold parts :
  forall acc,
    fold_left apa_piece parts acc = acc ++ flat_map (apa_piece []) parts.
Proof.
  induction parts as [|p parts IH]; intros acc; simpl.
  - rewrite app_nil_r; reflexivity.
  - rewrite IH, (apa_piece_app acc p), app_assoc; reflexivity.
Qed.

(** The candidates of the parenthetical extractor: what [apa_piece]
    makes of the parts of the groups, in order. *)
Lemma parenthetical_In text s :
  In s (extract_apa_parenthetical text) ->
  exists m part,
    In m (finditer paren_re text)
    /\ In part (split semicolon_re (group m 1))
    /\ apa_piece [] part = [s].
Proof.
  unfold extract_apa_parenthetical.
  assert (G : forall ms acc,
             In s (fold_left
                     (fun results m =>
                        fold_left apa_piece
                          (split semicolon_re (group m 1)) results) ms acc) ->
             In s acc
             \/ exists m part,
                 In m ms /\ In part (split semicolon_re (group m 1))
                 /\ apa_piece [] part = [s]).
  { induction ms as [|m ms IH]; intros acc H; simpl in H; [left; exact H|].
    apply IH in H; destruct H as [H|(m' & part & Hm & Hp & E)].
    - rewrite apa_pieces_fold in H; apply in_app_or in H.
      destruct H as [H|H]; [left; exact H | right].
      apply in_flat_map in H; destruct H as (part & Hp & Hs).
      exists m, part; split; [left; reflexivity|]. split; [exact Hp|].
      unfold apa_piece in *.
      destruct (found RE_YEAR (_clean_piece part)); [|destruct Hs].
      destruct Hs as [<-|[]]; reflexivity.
    - right; exists m', part; split; [right; exact Hm | auto]. }
  intros H; apply G in H; destruct H as [[]|H]; exact H.
Qed.

(** A character of a candidate is one of the part it comes from, a
    space or an ampersand. *)
Lemma apa_piece_chars part s c :
  apa_piece [] part = [s] -> In c s ->
  In c part \/ c = 32%N \/ c = 38%N.
Proof.
  unfold apa_piece.
  destruct (found RE_YEAR (_clean_piece part)); [|discriminate].
  intros E Hc; inversion E; subst s; clear E.
  apply (part_of_In _ _ _ (strip_by_part _ _)) in Hc.
  apply sub_In in Hc.
  destruct Hc as [Hc|(_ & _ & [<-|[]])]; [|right; left; reflexivity].
  apply sub_In in Hc.
  destruct Hc as [Hc|(_ & _ & Hc)].
  2:{ destruct Hc as [<-|[<-|[<-|[]]]]; auto. }
  apply sub_In in Hc.
  assert (Hc' : In c (sub page_re (fun _ => []) (_clean_piece part))).
  { destruct Hc as [Hc|(m & Hm & Hc)]; [exact Hc|].
    apply first_group_at in Hm; [|reflexivity|discriminate].
    apply (part_of_In _ _ _ (proj2 Hm) Hc). }
  apply sub_In in Hc'; destruct Hc' as [Hc'|(_ & _ & [])].
  left; apply (part_of_In _ _ _ (clean_piece_part part) Hc').
Qed.

Lemma part_chars text m part c :
  In m (finditer paren_re text) ->
  In part (split semicolon_re (group m 1)) -> In c part ->
  c <> 40%N /\ c <> 41%N /\ c <> 59%N.
Proof.
  intros Hm Hp Hc.
  pose proof (split_chr (N.eqb 59) (group m 1)) as S.
  change (Chr (N.eqb 59)) with semicolon_re in S.
  rewrite Forall_forall in S; specialize (S _ Hp).
  rewrite forallb_forall in S; specialize (S _ Hc).
  pose proof (inside_no_bracket _ _ Hm) as B.
  rewrite forallb_forall in B; specialize (B _ (split_In _ _ _ _ Hp Hc)).
  unfold no_bracket in B; change (lit "()") with [40; 41]%N in B.
  simpl in B. unfold char in *.
  destruct (N.eqb_spec c 40), (N.eqb_spec c 41), (N.eqb_spec 59 c);
    try discriminate; repeat split; congruence.
Qed.

(** *** Runs of white space *)

Lemma collapsed_app_r u s : collapsed (u ++ s) = true -> collapsed s = true.
Proof.
  induction u as [|c u IH]; simpl; [auto|].
  intros H; apply andb_true_iff in H; apply IH; tauto.
Qed.

Lemma collapsed_app_l s v : collapsed (s ++ v) = true -> collapsed s = true.
Proof.
  induction s as [|c s IH]; simpl; [auto|].
  intros H; apply andb_true_iff in H; destruct H as [H1 H2].
  rewrite (IH H2), andb_true_r.
  destruct s as [|d s]; [reflexivity | exact H1].
Qed.

Lemma collapsed_part a s : part_of a s -> collapsed s = true -> collapsed a = true.
Proof.
  intros (u & v & ->) H; apply collapsed_app_r, collapsed_app_l in H; exact H.
Qed.

Lemma spaces_none_nil pos : match_at spaces_re pos [] false = None.
Proof. reflexivity. Qed.

Lemma spaces_none_head pos c s :
  Unicode.isspace c = false -> match_at spaces_re pos (c :: s) false = None.
Proof.
  intros H; unfold match_at, spaces_re, two_or_more, space.
  rewrite rmatch_seq, rmatch_chr_cons, H; reflexivity.
Qed.

Lemma spaces_none_single pos c s :
  match s with [] => True | d :: _ => Unicode.isspace d = false end ->
  match_at spaces_re pos (c :: s) false = None.
Proof.
  intros H; unfold match_at, spaces_re, two_or_more, space.
  rewrite rmatch_seq, rmatch_chr_cons.
  destruct (Unicode.isspace c); [|reflexivity].
  rewrite rmatch_seq.
  destruct s as [|d s]; [apply rmatch_chr_nil|].
  rewrite rmatch_chr_cons, H; reflexivity.
Qed.

Lemma spaces_match pos c d run t :
  Unicode.isspace c = true -> Unicode.isspace d = true ->
  forallb Unicode.isspace run = true ->
  match t with [] => True | e :: _ => Unicode.isspace e = false end ->
  match_at spaces_re pos ((c :: d :: run) ++ t) false
  = Some (MState (pos + List.length (c :: d :: run)) t []).
Proof.
  intros Hc Hd Hr Ht; unfold match_at, spaces_re, two_or_more, space.
  cbn [app].
  rewrite rmatch_seq, rmatch_chr_cons, Hc, rmatch_seq, rmatch_chr_cons, Hd.
  rewrite rmatch_star; cbn [m_rest].
  apply star_chr_first; [exact Hr | exact Ht | lia |].
  replace (Nat.eqb (S (S pos) + List.length run) pos) with false
    by (symmetry; apply Nat.eqb_neq; lia).
  cbn [andb]. f_equal; f_equal. simpl; lia.
Qed.

Lemma scan_skip_one r pos c s :
  match_at r pos (c :: s) false = None ->
  scan r pos (c :: s) 0 = Skipped c :: scan r (S pos) s 0.
Proof. intros H; cbn [scan]; rewrite H; reflexivity. Qed.

(** After [re.sub] of the runs of two or more white-space characters by
    one space, no two white-space characters are left side by side. *)
Lemma spaces_collapsed_at n :
  forall s pos,
    List.length s <= n ->
    collapsed (substitute (fun _ => lit " ") (scan spaces_re pos s 0)) = true
    /\ (forall c t,
           substitute (fun _ => lit " ") (scan spaces_re pos s 0) = c :: t ->
           Unicode.isspace c = true ->
           exists d s', s = d :: s' /\ Unicode.isspace d = true).
Proof.
  induction n as [|n IH]; intros s pos Hn.
  - destruct s; [|simpl in Hn; lia].
    cbn [scan]; rewrite spaces_none_nil; simpl; split; [reflexivity|].
    intros c t H; discriminate H.
  - destruct s as [|c s].
    { cbn [scan]; rewrite spaces_none_nil; simpl; split; [reflexivity|].
      intros c t H; discriminate H. }
    simpl in Hn.
    destruct (Unicode.isspace c) eqn:Hc.
    + destruct s as [|d s].
      { rewrite scan_skip_one by (apply spaces_none_single; exact I).
        cbn [scan]; rewrite spaces_none_nil; simpl; split; [reflexivity|].
        intros c' t H _; inversion H; subst; eauto. }
      destruct (Unicode.isspace d) eqn:Hd.
      * destruct (PyFacts.lstrip_by_suffix Unicode.isspace s) as (run & E & Hr).
        assert (Ht : match Py.lstrip_by Unicode.isspace s with
                     | [] => True
                     | e :: _ => Unicode.isspace e = false
                     end).
        { destruct (Py.lstrip_by Unicode.isspace s) as [|e t] eqn:L; [exact I|].
          apply (PyFacts.lstrip_by_head _ _ _ _ L). }
        set (t := Py.lstrip_by Unicode.isspace s) in *.
        assert (Lt : List.length t <= n).
        { apply (f_equal (@List.length char)) in E.
          rewrite length_app in E; simpl in Hn; lia. }
        rewrite E.
        change (c :: d :: run ++ t) with ((c :: d :: run) ++ t).
        rewrite (scan_hit spaces_re (c :: d :: run) t pos _
                   ltac:(discriminate) (spaces_match pos c d run t Hc Hd Hr Ht)
                   eq_refl).
        cbn [substitute]; cbv beta.
        destruct (IH t (pos + List.length (c :: d :: run)) Lt) as [C H].
        split.
        -- change (lit " ") with [32%N] in *; cbn [app collapsed].
           rewrite C, andb_true_r.
           destruct (substitute _ _) as [|e u] eqn:Eu; [reflexivity|].
           destruct (Unicode.isspace e) eqn:He; [|rewrite andb_false_r; reflexivity].
           destruct (H e u eq_refl He) as (e' & t' & Et & He').
           rewrite Et in Ht; congruence.
        -- intros c' t' _ _; exists c, (d :: run ++ t); auto.
      * rewrite scan_skip_one by (apply spaces_none_single; exact Hd).
        destruct (IH (d :: s) (S pos) ltac:(simpl in *; lia)) as [C H].
        cbn [substitute]; split.
        -- cbn [collapsed]; rewrite C, andb_true_r.
           destruct (substitute _ _) as [|e u] eqn:Eu; [reflexivity|].
           destruct (Unicode.isspace e) eqn:He; [|rewrite andb_false_r; reflexivity].
           destruct (H e u eq_refl He) as (e' & t' & Et & He').
           inversion Et; subst; congruence.
        -- intros c' t' _ _; exists c, (d :: s); auto.
    + rewrite scan_skip_one by (apply spaces_none_head; exact Hc).
      destruct (IH s (S pos) ltac:(lia)) as [C H].
      cbn [substitute]; split.
      * cbn [collapsed]; rewrite C, Hc, andb_true_r.
        destruct (substitute _ _); reflexivity.
      * intros c' t' E He; inversion E; subst; congruence.
Qed.

Lemma spaces_collapsed s :
  collapsed (sub spaces_re (fun _ => lit " ") s) = true.
Proof. apply (spaces_collapsed_at (List.length s) s 0 (le_n _)). Qed.

Lemma apa_piece_collapsed part s : apa_piece [] part = [s] -> collapsed s = true.
Proof.
  unfold apa_piece.
  destruct (found RE_YEAR (_clean_piece part)); [|discriminate].
  intros E; inversion E; clear E.
  apply (collapsed_part _ _ (strip_by_part _ _)), spaces_collapsed.
Qed.

End Parenthetical.

Lemma table_parenthetical set_order text tbl l :
  extract_citations_from_text set_order text = Ok tbl ->
  In (APA_parenthetical, l) tbl ->
  l = dedupe (extract_apa_parenthetical text).
Proof.
  intros H I; apply table_Ok in H; destruct H as (ieee & _ & ->).
  destruct I as [I|[I|[I|[]]]]; inversion I; reflexivity.
Qed.

Lemma dedupe_part seq s :
  In s (dedupe seq) -> exists y, In y seq /\ part_of s y.
Proof.
  intros H; apply dedupe_In in H; destruct H as [_ H].
  apply in_map_iff in H; destruct H as (y & <- & Hy).
  exists y; split; [exact Hy | apply strip_by_part].
Qed.

(** X5.  No string of the parenthetical family holds a parenthesis or a
    semicolon. *)
Theorem parenthetical_has_no_bracket set_order text tbl l s :
  extract_citations_from_text set_order text = Ok tbl ->
  In (APA_parenthetical, l) tbl -> In s l ->
  ~ In 40%N s /\ ~ In 41%N s /\ ~ In 59%N s.
Proof.
  intros H Hl Hs; rewrite (table_parenthetical _ _ _ _ H Hl) in Hs.
  apply dedupe_part in Hs; destruct Hs as (y & Hy & P).
  apply parenthetical_In in Hy; destruct Hy as (m & part & Hm & Hp & E).
  assert (G : forall c, In c s -> c <> 40%N /\ c <> 41%N /\ c <> 59%N).
  { intros c Hc; apply (part_of_In _ _ _ P) in Hc.
    destruct (apa_piece_chars _ _ _ E Hc) as [Hc'|[->| ->]].
    - apply (part_chars _ _ _ _ Hm Hp Hc').
    - repeat split; discriminate.
    - repeat split; discriminate. }
  repeat split; intros Hc; apply G in Hc; tauto.
Qed.

(** The theorem at a group of two citations. *)
Lemma parenthetical_has_no_bracket_witness :
  extract_citations_from_text any_order
    (lit "(see Smith  and   Lee, 2020; cf. Doe 1999a, p. 4)")
  = Ok (table_of [lit "Smith & Lee, 2020"; lit "Doe 1999a"] [] [])
  /\ In (APA_parenthetical, [lit "Smith & Lee, 2020"; lit "Doe 1999a"])
        (table_of [lit "Smith & Lee, 2020"; lit "Doe 1999a"] [] [])
  /\ In (lit "Doe 1999a") [lit "Smith & Lee, 2020"; lit "Doe 1999a"]
  /\ ~ In 40%N (lit "Doe 1999a") /\ ~ In 41%N (lit "Doe 1999a")
  /\ ~ In 59%N (lit "Doe 1999a").
Proof.
  assert (H1 : extract_citations_from_text any_order
                 (lit "(see Smith  and   Lee, 2020; cf. Doe 1999a, p. 4)")
               = Ok (table_of [lit "Smith & Lee, 2020"; lit "Doe 1999a"]
                       [] []))
    by (vm_compute; reflexivity).
  assert (H2 : In (APA_parenthetical,
                   [lit "Smith & Lee, 2020"; lit "Doe 1999a"])
                  (table_of [lit "Smith & Lee, 2020"; lit "Doe 1999a"] [] []))
    by (left; reflexivity).
  assert (H3 : In (lit "Doe 1999a") [lit "Smith & Lee, 2020"; lit "Doe 1999a"])
    by (right; left; reflexivity).
  split; [exact H1|]. split; [exact H2|]. split; [exact H3|].
  exact (parenthetical_has_no_bracket _ _ _ _ _ H1 H2 H3).
Defined.

(** X6.  In no string of the parenthetical family two white-space
    characters stand side by side. *)
Theorem parenthetical_blanks_collapsed set_order text tbl l s :
  extract_citations_from_text set_order text = Ok tbl ->
  In (APA_parenthetical, l) tbl -> In s l ->
  collapsed s = true.
Proof.
  intros H Hl Hs; rewrite (table_parenthetical _ _ _ _ H Hl) in Hs.
  apply dedupe_part in Hs; destruct Hs as (y & Hy & P).
  apply parenthetical_In in Hy; destruct Hy as (m & part & _ & _ & E).
  apply (collapsed_part _ _ P), (apa_piece_collapsed _ _ E).
Qed.

(** The theorem at a citation written with runs of spaces. *)
Lemma parenthetical_blanks_collapsed_witness :
  extract_citations_from_text any_order
    (lit "(see Smith  and   Lee, 2020; cf. Doe 1999a, p. 4)")
  = Ok (table_of [lit "Smith & Lee, 2020"; lit "Doe 1999a"] [] [])
  /\ In (APA_parenthetical, [lit "Smith & Lee, 2020"; lit "Doe 1999a"])
        (table_of [lit "Smith & Lee, 2020"; lit "Doe 1999a"] [] [])
  /\ In (lit "Smith & Lee, 2020") [lit "Smith & Lee, 2020"; lit "Doe 1999a"]
  /\ collapsed (lit "Smith & Lee, 2020") = true.
Proof.
  assert (H1 : extract_citations_from_text any_order
                 (lit "(see Smith  and   Lee, 2020; cf. Doe 1999a, p. 4)")
               = Ok (table_of [lit "Smith & Lee, 2020"; lit "Doe 1999a"]
                       [] []))
    by (vm_compute; reflexivity).
  assert (H2 : In (APA_parenthetical,
                   [lit "Smith & Lee, 2020"; lit "Doe 1999a"])
                  (table_of [lit "Smith & Lee, 2020"; lit "Doe 1999a"] [] []))
    by (left; reflexivity).
  assert (H3 : In (lit "Smith & Lee, 2020")
                  [lit "Smith & Lee, 2020"; lit "Doe 1999a"])
    by (left; reflexivity).
  split; [exact H1|]. split; [exact H2|]. split; [exact H3|].
  exact (parenthetical_blanks_collapsed _ _ _ _ _ H1 H2 H3).
Defined.

(* ------------------------------------------------------------------ *)
(** ** The narrative family (X7) *)

Section NarrativeFormat.
Import Re ReSpec ReFacts.

Lemma lang_year w : lang RE_YEAR w -> year_shape w.
Proof.
  cbn [RE_YEAR seqs]; intros H.
  apply lang_seq_inv in H; destruct H as (cc & w1 & -> & C & H).
  apply lang_seq_inv in H; destruct H as (dd & o & -> & D & O).
  apply lang_seq_inv in D; destruct D as (d1 & d2 & -> & D1 & D2).
  apply lang_chr_inv in D1, D2.
  destruct D1 as (x1 & -> & X1), D2 as (x2 & -> & X2).
  exists x1, x2, o; split; [|split; [exact X1|split; [exact X2|]]].
  - apply lang_alt_inv in C; destruct C as [C|C]; apply lang_text in C;
      subst cc; [left | right]; reflexivity.
  - apply lang_opt_inv in O; destruct O as [O| ->]; [right | left; reflexivity].
    apply lang_chr_inv in O; destruct O as (l & -> & L); eauto.
Qed.

(** A candidate of the narrative extractor has nothing to strip. *)
Lemma narrative_stripped text y :
  In y (extract_apa_narrative text) ->
  Py.strip y = y /\ exists c t, y = c :: t /\ Unicode.in_range 65 90 c = true.
Proof.
  intros Hy; apply narrative_candidates in Hy.
  destruct Hy as (m & _ & Sh & _ & Y & ->).
  apply name_shape_head in Sh; destruct Sh as (c & t & -> & U).
  apply year_last in Y; destruct Y as (u & e & -> & E).
  split; [|exists c, (t ++ lit ", " ++ u ++ [e]); auto].
  replace ((c :: t) ++ lit ", " ++ u ++ [e])
    with (c :: (t ++ lit ", " ++ u) ++ [e])
    by (simpl; rewrite <- !app_assoc; reflexivity).
  unfold Py.strip; apply PyFacts.strip_by_fix.
  - apply upper_not_space, U.
  - destruct E as [E|E]; [apply decimal_not_space | apply lower_not_space]; exact E.
Qed.

End NarrativeFormat.

Lemma table_narrative set_order text tbl l :
  extract_citations_from_text set_order text = Ok tbl ->
  In (APA_narrative, l) tbl ->
  l = dedupe (extract_apa_narrative text).
Proof.
  intros H I; apply table_Ok in H; destruct H as (ieee & _ & ->).
  destruct I as [I|[I|[I|[]]]]; inversion I; reflexivity.
Qed.

Section NarrativeExact.
Import Re ReSpec ReFacts.

Lemma narrative_map text :
  extract_apa_narrative text
  = List.map name_and_year (finditer narrative_re text).
Proof.
  unfold extract_apa_narrative; rewrite fold_left_append; cbn [app].
  apply map_ext_in; intros m Hm; cbv zeta; unfold name_and_year.
  destruct (narrative_groups _ _ Hm) as [L1 _].
  rewrite (and_re_identity _ (narrative_name_no_blank_an _ L1)); reflexivity.
Qed.

Lemma narrative_dedupe text :
  dedupe (extract_apa_narrative text) = uniq (extract_apa_narrative text).
Proof.
  rewrite dedupe_uniq.
  rewrite (map_ext_in Py.strip (fun x => x))
    by (intros y Hy; apply (narrative_stripped _ _ Hy)).
  rewrite map_id. f_equal.
  assert (H : forall y, In y (extract_apa_narrative text) -> nonempty y = true).
  { intros y Hy; destruct (narrative_stripped _ _ Hy) as (_ & c & t & -> & _).
    reflexivity. }
  revert H; generalize (extract_apa_narrative text); intros l H.
  induction l as [|y l IH]; [reflexivity|]. simpl.
  rewrite (H y (or_introl eq_refl)); f_equal; apply IH.
  intros z Hz; apply H; right; exact Hz.
Qed.

End NarrativeExact.

(** X7.  The narrative family is the list of the distinct strings
    [name, year] of the matches of the narrative pattern, in the order
    of their first matches: neither the replacement of the word and nor
    [dedupe] changes or drops one.  Each name has one of the three
    forms; each year is 19 or 20, two decimal digits and at most one
    small letter. *)
Theorem narrative_family_format set_order text tbl l :
  extract_citations_from_text set_order text = Ok tbl ->
  In (APA_narrative, l) tbl ->
  l = uniq (List.map name_and_year (Re.finditer narrative_re text))
  /\ forall s, In s l ->
       exists name year,
         s = name ++ lit ", " ++ year /\ name_shape name /\ year_shape year.
Proof.
  intros H Hl; rewrite (table_narrative _ _ _ _ H Hl).
  rewrite narrative_dedupe; split; [rewrite narrative_map; reflexivity|].
  intros s Hs; unfold uniq in Hs; apply uniq_from_In in Hs; destruct Hs as [Hs _].
  apply narrative_candidates in Hs.
  destruct Hs as (m & _ & Sh & _ & Y & ->).
  exists (Re.group m 1), (Re.group m 2); split; [reflexivity|].
  split; [exact Sh | apply lang_year, Y].
Qed.

(** The theorem at a text with two narrative citations. *)
Lemma narrative_family_format_witness :
  extract_citations_from_text any_order
    (lit "Jones et al. (2019) argue, as O'Neil & Li (2001b) did.")
  = Ok (table_of [lit "2019"; lit "2001b"]
          [lit "Jones et al., 2019"; lit "O'Neil & Li, 2001b"] [])
  /\ In (APA_narrative, [lit "Jones et al., 2019"; lit "O'Neil & Li, 2001b"])
        (table_of [lit "2019"; lit "2001b"]
           [lit "Jones et al., 2019"; lit "O'Neil & Li, 2001b"] [])
  /\ [lit "Jones et al., 2019"; lit "O'Neil & Li, 2001b"]
     = uniq (List.map name_and_year
               (Re.finditer narrative_re
                  (lit "Jones et al. (2019) argue, as O'Neil & Li (2001b) did.")))
  /\ forall s,
       In s [lit "Jones et al., 2019"; lit "O'Neil & Li, 2001b"] ->
       exists name year,
         s = name ++ lit ", " ++ year /\ name_shape name /\ year_shape year.
Proof.
  assert (H1 : extract_citations_from_text any_order
                 (lit "Jones et al. (2019) argue, as O'Neil & Li (2001b) did.")
               = Ok (table_of [lit "2019"; lit "2001b"]
                       [lit "Jones et al., 2019"; lit "O'Neil & Li, 2001b"]
                       []))
    by (vm_compute; reflexivity).
  assert (H2 : In (APA_narrative,
                   [lit "Jones et al., 2019"; lit "O'Neil & Li, 2001b"])
                  (table_of [lit "2019"; lit "2001b"]
                     [lit "Jones et al., 2019"; lit "O'Neil & Li, 2001b"] []))
    by (right; left; reflexivity).
  split; [exact H1|]. split; [exact H2|].
  exact (narrative_family_format _ _ _ _ H1 H2).
Defined.

(* ------------------------------------------------------------------ *)
(** ** The counts of the rows (X8) *)

Lemma narrative_not_ieee set_order text tbl ln li s :
  extract_citations_from_text set_order text = Ok tbl ->
  In (APA_narrative, ln) tbl -> In (IEEE_numeric, li) tbl ->
  In s ln -> ~ In s li.
Proof.
  intros H Hn Hi Hs Hs'.
  rewrite (table_narrative _ _ _ _ H Hn) in Hs.
  destruct (table_ieee _ _ _ _ H Hi) as (ieee & E & ->).
  apply dedupe_In in Hs; destruct Hs as [_ Hs].
  apply in_map_iff in Hs; destruct Hs as (y & <- & Hy).
  destruct (narrative_stripped _ _ Hy) as (Es & c & t & Ey & U).
  rewrite Es in Hs'; subst y.
  apply extract_ieee_Ok in E.
  destruct E as (nums & toks & vals & _ & -> & ND & _).
  rewrite (dedupe_bracketed _ ND) in Hs'.
  apply in_map_iff in Hs'; destruct Hs' as (n & E & _).
  inversion E; subst c; discriminate U.
Qed.

(** X8.  The count of a row is 1 or 2, never 3: no string is both in the
    narrative and in the IEEE family. *)
Theorem count_is_one_or_two set_order text tbl r :
  extract_citations_from_text set_order text = Ok tbl ->
  In r (extract_rows tbl) ->
  (Count r = 1 \/ Count r = 2)
  /\ forall ln li,
       In (APA_narrative, ln) tbl -> In (IEEE_numeric, li) tbl ->
       ~ (In (Citation r) ln /\ In (Citation r) li).
Proof.
  intros H Hr.
  assert (D : forall ln li,
             In (APA_narrative, ln) tbl -> In (IEEE_numeric, li) tbl ->
             ~ (In (Citation r) ln /\ In (Citation r) li)).
  { intros ln li Hn Hi [A B].
    apply (narrative_not_ieee _ _ _ _ _ _ H Hn Hi A B). }
  split; [|exact D].
  destruct (extract_rows_count tbl r (table_NoDup _ _ _ H) Hr) as [E [B1 _]].
  pose proof H as H'.
  apply table_Ok in H'; destruct H' as (ieee & _ & ->).
  specialize (D _ _ (or_intror (or_introl eq_refl))
                (or_intror (or_intror (or_introl eq_refl)))).
  rewrite E in *; unfold families_with in *; cbn [filter snd] in *.
  destruct (mem (Citation r) (dedupe (extract_apa_narrative text))) eqn:Mn;
    destruct (mem (Citation r) (dedupe ieee)) eqn:Mi;
    destruct (mem (Citation r) (dedupe (extract_apa_parenthetical text)));
    cbn [List.length] in *; try lia.
  all: exfalso; apply D; split; apply mem_In; assumption.
Qed.

(** The theorem at a row that counts 2. *)
Lemma count_is_one_or_two_witness :
  extract_citations_from_text any_order (lit "Smith (2020) (Smith, 2020) [7]")
  = Ok (table_of [lit "2020"; lit "Smith, 2020"] [lit "Smith, 2020"]
          [lit "[7]"])
  /\ In (Row (lit "APA narrative") (lit "Smith, 2020") 2)
        (extract_rows
           (table_of [lit "2020"; lit "Smith, 2020"] [lit "Smith, 2020"]
              [lit "[7]"]))
  /\ (Count (Row (lit "APA narrative") (lit "Smith, 2020") 2) = 1
      \/ Count (Row (lit "APA narrative") (lit "Smith, 2020") 2) = 2)
  /\ forall ln li,
       In (APA_narrative, ln)
          (table_of [lit "2020"; lit "Smith, 2020"] [lit "Smith, 2020"]
             [lit "[7]"]) ->
       In (IEEE_numeric, li)
          (table_of [lit "2020"; lit "Smith, 2020"] [lit "Smith, 2020"]
             [lit "[7]"]) ->
       ~ (In (Citation (Row (lit "APA narrative") (lit "Smith, 2020") 2)) ln
          /\ In (Citation (Row (lit "APA narrative") (lit "Smith, 2020") 2)) li).
Proof.
  assert (H1 : extract_citations_from_text any_order
                 (lit "Smith (2020) (Smith, 2020) [7]")
               = Ok (table_of [lit "2020"; lit "Smith, 2020"]
                       [lit "Smith, 2020"] [lit "[7]"]))
    by (vm_compute; reflexivity).
  assert (H2 : In (Row (lit "APA narrative") (lit "Smith, 2020") 2)
                  (extract_rows
                     (table_of [lit "2020"; lit "Smith, 2020"]
                        [lit "Smith, 2020"] [lit "[7]"])))
    by (vm_compute; right; right; left; reflexivity).
  split; [exact H1|]. split; [exact H2|].
  exact (count_is_one_or_two _ _ _ _ H1 H2).
Defined.

(* ------------------------------------------------------------------ *)
(** ** [dedupe] is idempotent (X9) *)

Lemma strip_by_idem p s : Py.strip_by p (Py.strip_by p s) = Py.strip_by p s.
Proof.
  destruct (Py.strip_by p s) as [|c t] eqn:E; [reflexivity|].
  pose proof (PyFacts.strip_by_head _ _ _ _ E) as Hc.
  destruct t as [|d t].
  - unfold Py.strip_by, Py.rstrip_by; simpl; rewrite Hc; simpl; rewrite Hc.
    reflexivity.
  - destruct (exists_last (l := d :: t) ltac:(discriminate)) as (u & e & Eu).
    rewrite Eu in *.
    apply PyFacts.strip_by_fix; [exact Hc|].
    apply (PyFacts.strip_by_last p s (c :: u) e); exact E.
Qed.

(** [dedupe] leaves alone a list of distinct, stripped, non-empty
    strings. *)
Lemma dedupe_id l :
  NoDup l -> (forall x, In x l -> x <> [] /\ Py.strip x = x) -> dedupe l = l.
Proof.
  intros ND H; rewrite dedupe_uniq.
  rewrite (map_ext_in Py.strip (fun x => x)) by (intros x Hx; apply H, Hx).
  rewrite map_id.
  replace (filter nonempty l) with l.
  - apply uniq_from_id; [exact ND | intros x _ []].
  - clear ND; induction l as [|x l IH]; [reflexivity|]. simpl.
    destruct x as [|c x]; [destruct (H [] (or_introl eq_refl)); congruence|].
    simpl; f_equal; apply IH; intros y Hy; apply H; right; exact Hy.
Qed.

(** X9.  [dedupe] is idempotent. *)
Theorem dedupe_idempotent seq : dedupe (dedupe seq) = dedupe seq.
Proof.
  apply dedupe_id; [apply dedupe_NoDup|].
  intros x Hx; apply dedupe_In in Hx; destruct Hx as [Hne Hx].
  split; [exact Hne|].
  apply in_map_iff in Hx; destruct Hx as (y & <- & _).
  apply strip_by_idem.
Qed.

(* ------------------------------------------------------------------ *)
(** ** The IEEE sequence and the order of the set (X10) *)

Section SetOrder.

Lemma sorted_strict toks :
  NoDup toks ->
  (forall a b, In a toks -> In b toks -> value a = value b -> a = b) ->
  StronglySorted (fun a b => (value a <= value b)%Z) toks ->
  StronglySorted (fun a b => (value a < value b)%Z) toks.
Proof.
  intros ND Inj S; induction S as [|a l S IH F]; constructor.
  - apply IH; [inversion ND; assumption|].
    intros x y Hx Hy; apply Inj; right; assumption.
  - inversion ND as [|? ? Na _]; subst.
    rewrite Forall_forall in *; intros b Hb.
    specialize (F b Hb).
    destruct (Z.eq_dec (value a) (value b)) as [E|E]; [|lia].
    apply Inj in E; [subst; contradiction | left; reflexivity | right; exact Hb].
Qed.

Lemma ieee_two_orders o1 o2 text l1 :
  extract_ieee o1 text = Ok l1 ->
  (forall a b, In (bracketed a) l1 -> In (bracketed b) l1 ->
               value a = value b -> a = b) ->
  extract_ieee o2 text = Ok l1.
Proof.
  intros H1 Inj. apply extract_ieee_Ok in H1.
  destruct H1 as (nums & toks1 & vals1 & En & -> & ND1 & I1 & F1 & S1).
  assert (Num : Forall numeric nums).
  { apply Forall_forall; intros x Hx; apply I1 in Hx.
    clear - F1 Hx; induction F1 as [|t v toks vals [D V] F IH]; [destruct Hx|].
    destruct Hx as [->|Hx]; [split; [exact D | exists v; exact V] | apply IH, Hx]. }
  destruct (extract_ieee_returns_numeric o2 _ _ En Num) as (l2 & H2); rewrite H2.
  apply extract_ieee_Ok in H2.
  destruct H2 as (nums' & toks2 & vals2 & En' & -> & ND2 & I2 & F2 & S2).
  rewrite En in En'; inversion En'; subst nums'; clear En'.
  f_equal; f_equal.
  apply (sorted_unique value toks1 toks2 ND2).
  - intros x; rewrite I1, I2; tauto.
  - apply values_ascending with (vals := vals2); assumption.
  - apply sorted_strict; [exact ND1| |].
    + intros a b Ha Hb; apply Inj; apply in_map; assumption.
    + apply values_ascending with (vals := vals1); assumption.
Qed.

End SetOrder.

(** X10.  When no two distinct numbers of the IEEE sequence have the
    same value, the sequence does not depend on the order in which the
    set is iterated.  When two have, it does: for [[1,01]] the strings
    [[1]] and [[01]] come out in the order of the set. *)
Theorem ieee_order_and_the_set o1 o2 text l1 :
  extract_ieee o1 text = Ok l1 ->
  (forall a b, In (bracketed a) l1 -> In (bracketed b) l1 ->
               value a = value b -> a = b) ->
  extract_ieee o2 text = Ok l1
  /\ extract_ieee any_order (lit "[1,01]") = Ok [lit "[1]"; lit "[01]"]
  /\ extract_ieee longest_first (lit "[1,01]") = Ok [lit "[01]"; lit "[1]"].
Proof.
  intros H Inj; split; [apply (ieee_two_orders o1 o2 _ _ H Inj)|].
  split; vm_compute; reflexivity.
Qed.

(** The theorem at the numbers 1 to 4 and two set orders. *)
Lemma ieee_order_and_the_set_witness :
  extract_ieee any_order (lit "[1,3] and [2-4]")
  = Ok [lit "[1]"; lit "[2]"; lit "[3]"; lit "[4]"]
  /\ (forall a b,
         In (bracketed a) [lit "[1]"; lit "[2]"; lit "[3]"; lit "[4]"] ->
         In (bracketed b) [lit "[1]"; lit "[2]"; lit "[3]"; lit "[4]"] ->
         value a = value b -> a = b)
  /\ extract_ieee longest_first (lit "[1,3] and [2-4]")
     = Ok [lit "[1]"; lit "[2]"; lit "[3]"; lit "[4]"]
  /\ extract_ieee any_order (lit "[1,01]") = Ok [lit "[1]"; lit "[01]"]
  /\ extract_ieee longest_first (lit "[1,01]") = Ok [lit "[01]"; lit "[1]"].
Proof.
  assert (H1 : extract_ieee any_order (lit "[1,3] and [2-4]")
               = Ok [lit "[1]"; lit "[2]"; lit "[3]"; lit "[4]"])
    by (vm_compute; reflexivity).
  assert (H2 : forall a b,
             In (bracketed a) [lit "[1]"; lit "[2]"; lit "[3]"; lit "[4]"] ->
             In (bracketed b) [lit "[1]"; lit "[2]"; lit "[3]"; lit "[4]"] ->
             value a = value b -> a = b).
  { intros a b Ha Hb E.
    assert (G : forall x,
               In (bracketed x) [lit "[1]"; lit "[2]"; lit "[3]"; lit "[4]"] ->
               In x [lit "1"; lit "2"; lit "3"; lit "4"]).
    { intros x Hx.
      change [lit "[1]"; lit "[2]"; lit "[3]"; lit "[4]"]
        with (List.map bracketed [lit "1"; lit "2"; lit "3"; lit "4"]) in Hx.
      apply in_map_iff in Hx; destruct Hx as (y & Ey & Hy).
      apply bracketed_inj in Ey; subst; exact Hy. }
    apply G in Ha, Hb.
    destruct Ha as [<-|[<-|[<-|[<-|[]]]]]; destruct Hb as [<-|[<-|[<-|[<-|[]]]]];
      try reflexivity; vm_compute in E; discriminate E. }
  split; [exact H1|]. split; [exact H2|].
  exact (ieee_order_and_the_set any_order longest_first _ _ H1 H2).
Defined.

(* ------------------------------------------------------------------ *)
(** ** The IEEE family holds what is written (X11) *)

Module RoundTrip.
Import Py IntFacts.

Lemma int_digits_uint_pos d :
  forall p b,
    int_digits (N.pos p) b (uint_digits d)
    = if match d with Decimal.Nil => negb b | _ => false end then None
      else Some (N.pos (Pos.of_uint_acc d p)).
Proof.
  induction d; intros p b; cbn [uint_digits Pos.of_uint_acc];
    try (destruct b; reflexivity);
    match goal with
    | |- int_digits ?acc b (?c :: ?r) = _ =>
        change (int_digits acc b (c :: r))
          with (int_digits (10 * acc + (c - 48)) true r)
    end;
    match goal with
    | |- int_digits ?a true _ = Some (N.pos (Pos.of_uint_acc d ?q)) =>
        replace a with (N.pos q) by lia
    end;
    rewrite IHd; destruct d; reflexivity.
Qed.

Lemma int_digits_uint d :
  forall b,
    int_digits 0 b (uint_digits d)
    = if match d with Decimal.Nil => negb b | _ => false end then None
      else Some (Pos.of_uint d).
Proof.
  induction d; intros b; cbn [uint_digits Pos.of_uint];
    try (destruct b; reflexivity);
    match goal with
    | |- int_digits ?acc b (?c :: ?r) = _ =>
        change (int_digits acc b (c :: r))
          with (int_digits (10 * acc + (c - 48)) true r)
    end.
  - change (10 * 0 + (48 - 48))%N with 0%N; rewrite IHd.
    destruct d; reflexivity.
  - change (10 * 0 + (49 - 48))%N with (N.pos 1); rewrite int_digits_uint_pos.
    destruct d; reflexivity.
  - change (10 * 0 + (50 - 48))%N with (N.pos 2); rewrite int_digits_uint_pos.
    destruct d; reflexivity.
  - change (10 * 0 + (51 - 48))%N with (N.pos 3); rewrite int_digits_uint_pos.
    destruct d; reflexivity.
  - change (10 * 0 + (52 - 48))%N with (N.pos 4); rewrite int_digits_uint_pos.
    destruct d; reflexivity.
  - change (10 * 0 + (53 - 48))%N with (N.pos 5); rewrite int_digits_uint_pos.
    destruct d; reflexivity.
  - change (10 * 0 + (54 - 48))%N with (N.pos 6); rewrite int_digits_uint_pos.
    destruct d; reflexivity.
  - change (10 * 0 + (55 - 48))%N with (N.pos 7); rewrite int_digits_uint_pos.
    destruct d; reflexivity.
  - change (10 * 0 + (56 - 48))%N with (N.pos 8); rewrite int_digits_uint_pos.
    destruct d; reflexivity.
  - change (10 * 0 + (57 - 48))%N with (N.pos 9); rewrite int_digits_uint_pos.
    destruct d; reflexivity.
Qed.

Lemma int_digits_pos p b :
  int_digits 0 b (uint_digits (Pos.to_uint p)) = Some (N.pos p).
Proof.
  rewrite int_digits_uint, DecimalPos.Unsigned.of_to.
  pose proof (DecimalPos.Unsigned.to_uint_nonnil p) as H.
  destruct (Pos.to_uint p); [congruence|..]; reflexivity.
Qed.

Lemma str_of_int_inv z t :
  str_of_int z = Some t ->
  t = decimal z
  /\ (N.of_nat (digit_count (decimal z)) <= int_max_str_digits)%N.
Proof.
  unfold str_of_int.
  destruct (N.ltb_spec int_max_str_digits
              (N.of_nat (digit_count (decimal z)))) as [L|L];
    [discriminate | intros E; inversion E; auto].
Qed.

(** [int(str(z))] is [z]. *)
Lemma int_str_of_int z t : str_of_int z = Some t -> int t = Some z.
Proof.
  intros E; apply str_of_int_inv in E; destruct E as [-> L].
  destruct z as [|p|p]; [reflexivity| |].
  - rewrite int_unsigned by (apply (decimal_digits (Z.pos p)); lia).
    rewrite (int_literal_short _ L).
    cbn [decimal]; rewrite int_digits_pos; reflexivity.
  - cbn [decimal] in *; unfold int.
    pose proof (uint_digits_decimal (Pos.to_uint p)) as D.
    rewrite strip_by_none.
    + rewrite digit_count_cons in L.
      change (Unicode.isdecimal 45) with false in L; cbv iota in L.
      rewrite (int_literal_short _ L), int_digits_pos; reflexivity.
    + cbn [forallb]; rewrite (digits_not_int_space _ D); reflexivity.
Qed.

End RoundTrip.

(** What [int] reads is below ten to the power of the limit, and [str]
    writes what is below it. *)
Module Magnitude.
Import Py IntFacts.

Lemma decimal_in_le zeros c d :
  Unicode.decimal_in zeros c = Some d -> (d <= 9)%N.
Proof.
  induction zeros as [|z zs IH]; cbn [Unicode.decimal_in]; [discriminate|].
  unfold Unicode.in_range.
  destruct (N.leb_spec z c) as [A|A]; cbn [andb]; [|exact IH].
  destruct (N.leb_spec c (z + 9)) as [B|B]; [|exact IH].
  intros E; inversion E; unfold char in *; lia.
Qed.

Lemma int_digits_bounds s :
  forall acc b n,
    int_digits acc b s = Some n ->
    (acc * 10 ^ N.of_nat (digit_count s) <= n
     /\ n < (acc + 1) * 10 ^ N.of_nat (digit_count s))%N.
Proof.
  induction s as [|c s IH]; intros acc b n; cbn [int_digits].
  - destruct b; [|discriminate]. intros E; inversion E; subst.
    change (N.of_nat (digit_count [])) with 0%N; rewrite N.pow_0_r; lia.
  - rewrite digit_count_cons.
    destruct (N.eqb_spec c 95) as [->|U].
    + change (Unicode.isdecimal 95) with false; cbv iota.
      destruct b; [apply IH | discriminate].
    + unfold Unicode.isdecimal.
      destruct (Unicode.decimal_value c) as [d|] eqn:D; [|discriminate].
      intros E; apply IH in E; apply decimal_in_le in D.
      rewrite Nat2N.inj_succ, N.pow_succ_r'.
      remember (10 ^ N.of_nat (digit_count s))%N as k; nia.
Qed.

Lemma int_literal_lt s n :
  int_literal s = Some n -> (n < 10 ^ int_max_str_digits)%N.
Proof.
  intros H; apply int_literal_Some in H; destruct H as [L E].
  apply int_digits_bounds in E; destruct E as [_ E].
  rewrite N.add_0_l, N.mul_1_l in E.
  apply (N.lt_le_trans _ _ _ E), N.pow_le_mono_r; [discriminate | exact L].
Qed.

(** What [int] reads has at most [int_max_str_digits] digits. *)
Lemma int_lt s v :
  int s = Some v -> (Z.abs v < Z.of_N (10 ^ int_max_str_digits))%Z.
Proof.
  unfold int.
  assert (G : forall m, option_map Z.of_N m = Some v ->
                        (forall n, m = Some n -> (n < 10 ^ int_max_str_digits)%N) ->
                        (Z.abs v < Z.of_N (10 ^ int_max_str_digits))%Z).
  { intros [m|]; cbn [option_map]; intros X B; inversion X.
    specialize (B m eq_refl); lia. }
  assert (G' : forall m, option_map (fun n => Z.opp (Z.of_N n)) m = Some v ->
                         (forall n, m = Some n -> (n < 10 ^ int_max_str_digits)%N) ->
                         (Z.abs v < Z.of_N (10 ^ int_max_str_digits))%Z).
  { intros [m|]; cbn [option_map]; intros X B; inversion X.
    specialize (B m eq_refl); lia. }
  destruct (strip_by int_space s) as [|c t].
  - intros X; apply (G _ X); intros n; apply int_literal_lt.
  - destruct c as [|p];
      [intros X; apply (G _ X); intros n; apply int_literal_lt|].
    repeat (destruct p as [p|p|];
            try (intros X; first [apply (G _ X) | apply (G' _ X)];
                 intros n; apply int_literal_lt)).
Qed.

Ltac head_digit :=
  match goal with
  | I : int_digits 0 false (?c :: ?r) = Some _ |- _ =>
      change (int_digits 0 false (c :: r)) with (int_digits (c - 48) true r)
        in I;
      apply int_digits_bounds in I; destruct I as [I _];
      rewrite digit_count_cons;
      change (Unicode.isdecimal c) with true; cbv iota;
      rewrite Nat2N.inj_succ, N.pow_succ_r';
      remember (10 ^ N.of_nat (digit_count r))%N as k; lia
  end.

(** The decimal of a positive number starts with no zero. *)
Lemma uint_lower p :
  (10 ^ N.of_nat (digit_count (uint_digits (Pos.to_uint p)))
   <= 10 * N.pos p)%N.
Proof.
  pose proof (RoundTrip.int_digits_pos p false) as I.
  pose proof (DecimalPos.Unsigned.to_of (Pos.to_uint p)) as U.
  rewrite DecimalPos.Unsigned.of_to in U; cbn [N.to_uint] in U.
  destruct (Pos.to_uint p) as [|d|d|d|d|d|d|d|d|d|d] eqn:E;
    cbn [uint_digits] in *; try head_digit.
  - discriminate I.
  - exfalso. rewrite DecimalFacts.unorm_D0 in U.
    unfold Decimal.unorm in U.
    destruct (Decimal.nzhead d) as [|u|u|u|u|u|u|u|u|u|u] eqn:Z;
      try discriminate U.
    + inversion U; subst d.
      apply (DecimalPos.Unsigned.to_uint_nonzero p); exact E.
    + exact (DecimalFacts.nzhead_nonzero d u Z).
Qed.

(** [str] returns for an integer of at most [int_max_str_digits]
    digits. *)
Lemma str_of_int_lt z :
  (Z.abs z < Z.of_N (10 ^ int_max_str_digits))%Z ->
  str_of_int z = Some (decimal z).
Proof.
  intros B; unfold str_of_int.
  destruct (N.ltb_spec int_max_str_digits
              (N.of_nat (digit_count (decimal z)))) as [L|L];
    [exfalso | reflexivity].
  assert (P : forall p,
             (int_max_str_digits
              < N.of_nat (digit_count (uint_digits (Pos.to_uint p))))%N ->
             (10 ^ int_max_str_digits <= N.pos p)%N).
  { intros p Lp; pose proof (uint_lower p) as W.
    apply N.le_succ_l in Lp.
    apply (N.pow_le_mono_r 10) in Lp; [|discriminate].
    rewrite N.pow_succ_r' in Lp.
    remember (10 ^ int_max_str_digits)%N as k.
    remember (10 ^ N.of_nat (digit_count (uint_digits (Pos.to_uint p))))%N
      as k'.
    lia. }
  destruct z as [|p|p]; cbn [decimal] in L.
  - vm_compute in L; discriminate L.
  - apply P in L; remember (10 ^ int_max_str_digits)%N as k; lia.
  - rewrite digit_count_cons in L.
    change (Unicode.isdecimal 45) with false in L; cbv iota in L.
    apply P in L; remember (10 ^ int_max_str_digits)%N as k; lia.
Qed.

(** [str] returns for every integer between two that [int] reads. *)
Lemma str_between sa sb x y z :
  int sa = Some x -> int sb = Some y -> (x <= z <= y)%Z ->
  str_of_int z = Some (decimal z).
Proof.
  intros Ea Eb Hz; apply str_of_int_lt.
  apply int_lt in Ea, Eb.
  remember (10 ^ int_max_str_digits)%N as k; lia.
Qed.

End Magnitude.

Section Expansion.
Import Re.

Lemma for_each_incl {A B} (body : list B -> A -> result (list B)) xs :
  (forall s x s', body s x = Ok s' -> incl s s') ->
  forall s s', for_each xs body s = Ok s' -> incl s s'.
Proof.
  intros M; induction xs as [|x xs IH]; intros s s' H; simpl in H.
  - inversion H; apply incl_refl.
  - destruct (body s x) as [s1|] eqn:E; simpl in H; [|discriminate].
    apply incl_tran with (m := s1); [apply (M _ _ _ E) | apply (IH _ _ H)].
Qed.

(** What the body adds for one element of a loop that only adds stays
    until the end. *)
Lemma for_each_In {A B} (body : list B -> A -> result (list B)) xs x :
  (forall s x s', body s x = Ok s' -> incl s s') ->
  In x xs ->
  forall s s', for_each xs body s = Ok s' ->
               exists s0 s1, body s0 x = Ok s1 /\ incl s1 s'.
Proof.
  intros M; induction xs as [|y xs IH]; intros Hx s s' H; [destruct Hx|].
  simpl in H. destruct (body s y) as [s1|] eqn:E; simpl in H; [|discriminate].
  destruct Hx as [->|Hx].
  - exists s, s1; split; [exact E | apply (for_each_incl body xs M _ _ H)].
  - apply (IH Hx _ _ H).
Qed.

Lemma ieee_part_incl nums p nums' : ieee_part nums p = Ok nums' -> incl nums nums'.
Proof.
  unfold ieee_part. destruct (found hyphen_re p).
  - destruct (split hyphen_re p) as [|a [|b [|c l]]]; try discriminate.
    destruct (Py.int (Py.strip a)) as [x|];
      [|intros H; inversion H; apply incl_refl].
    destruct (Py.int (Py.strip b)) as [y|];
      [|intros H; inversion H; apply incl_refl].
    destruct (Z.leb _ _); [|intros H; inversion H; apply incl_refl].
    destruct (map_option Py.str_of_int (Py.range x (y + 1)));
      intros H; inversion H; [apply incl_appl | ]; apply incl_refl.
  - intros H; inversion H; apply incl_appl, incl_refl.
Qed.

Lemma range_In a b z : (a <= z < b)%Z -> In z (Py.range a b).
Proof.
  intros H; unfold Py.range; apply in_map_iff.
  exists (Z.to_nat (z - a)); split; [lia|].
  apply in_seq; lia.
Qed.

Lemma In_range a b z : In z (Py.range a b) -> (a <= z < b)%Z.
Proof.
  unfold Py.range; intros H; apply in_map_iff in H.
  destruct H as (i & <- & Hi); apply in_seq in Hi; lia.
Qed.

Lemma map_option_all {A B : Type} (f : A -> option B) (g : A -> B) l :
  (forall x, In x l -> f x = Some (g x)) ->
  map_option f l = Some (List.map g l).
Proof.
  induction l as [|x l IH]; intros H; cbn [map_option List.map];
    [reflexivity|].
  rewrite (H x (or_introl eq_refl)), IH; [reflexivity|].
  intros y Hy; apply H; right; exact Hy.
Qed.

(** Inside a range read by [int], [str] never raises. *)
Lemma range_strs sa sb x y :
  Py.int sa = Some x -> Py.int sb = Some y ->
  map_option Py.str_of_int (Py.range x (y + 1))
  = Some (List.map Py.decimal (Py.range x (y + 1))).
Proof.
  intros Ea Eb; apply map_option_all; intros z Hz.
  apply In_range in Hz.
  apply (Magnitude.str_between _ _ _ _ _ Ea Eb); lia.
Qed.

Lemma ieee_part_single nums p nums' :
  found hyphen_re p = false ->
  ieee_part nums p = Ok nums' -> In (Py.strip p) nums'.
Proof.
  unfold ieee_part; intros ->; intros H; inversion H.
  apply in_or_app; right; left; reflexivity.
Qed.

Lemma ieee_part_range nums p nums' a b x y z :
  found hyphen_re p = true -> split hyphen_re p = [a; b] ->
  Py.int (Py.strip a) = Some x -> Py.int (Py.strip b) = Some y ->
  (x <= z <= y)%Z ->
  ieee_part nums p = Ok nums' -> In (Py.decimal z) nums'.
Proof.
  unfold ieee_part; intros -> -> Ea Eb Hz.
  rewrite Ea, Eb, (range_strs _ _ _ _ Ea Eb).
  replace (Z.leb x y) with true by (symmetry; apply Z.leb_le; lia).
  intros H; inversion H.
  apply in_or_app; right; apply in_map, range_In; lia.
Qed.

Lemma ieee_loops_In text nums m p :
  for_each (finditer ieee_re text)
    (fun nums m => for_each (split comma_re (group m 1)) ieee_part nums) []
  = Ok nums ->
  In m (finditer ieee_re text) ->
  In p (split comma_re (group m 1)) ->
  exists s0 s1, ieee_part s0 p = Ok s1 /\ incl s1 nums.
Proof.
  intros E Hm Hp.
  assert (M : forall s (x : match_obj) s',
             for_each (split comma_re (group x 1)) ieee_part s = Ok s' ->
             incl s s').
  { intros s x s'; apply for_each_incl; exact ieee_part_incl. }
  destruct (for_each_In _ _ m M Hm _ _ E) as (t0 & t1 & E1 & I1).
  destruct (for_each_In _ _ p ieee_part_incl Hp _ _ E1) as (s0 & s1 & E2 & I2).
  exists s0, s1; split; [exact E2 | apply incl_tran with (m := t1); assumption].
Qed.

End Expansion.

Section Written.
Import Re.

Lemma ieee_part_written text m p nums nums' :
  In m (finditer ieee_re text) -> In p (split comma_re (group m 1)) ->
  Forall (written text) nums ->
  ieee_part nums p = Ok nums' -> Forall (written text) nums'.
Proof.
  intros Hm Hp Hn; unfold ieee_part.
  destruct (found hyphen_re p) eqn:F.
  - destruct (split hyphen_re p) as [|a [|b [|c l]]] eqn:S; try discriminate.
    destruct (Py.int (Py.strip a)) as [x|] eqn:Ea;
      [|intros H; inversion H; subst; assumption].
    destruct (Py.int (Py.strip b)) as [y|] eqn:Eb;
      [|intros H; inversion H; subst; assumption].
    destruct (Z.leb x y); [|intros H; inversion H; subst; assumption].
    destruct (map_option Py.str_of_int (Py.range x (y + 1))) as [strs|] eqn:Es;
      intros H; inversion H; subst; [|assumption].
    apply Forall_app; split; [assumption|].
    apply Forall_forall; intros t Ht.
    destruct (map_option_In _ _ _ _ Es Ht) as (z & Hz & Ez).
    apply In_range in Hz.
    exists m, p; split; [exact Hm|]. split; [exact Hp|]. right.
    exists a, b, x, y, z.
    split; [exact F|]. split; [exact S|].
    split; [exact Ea|]. split; [exact Eb|]. split; [lia | exact Ez].
  - intros H; inversion H; subst.
    apply Forall_app; split; [assumption|]. constructor; [|constructor].
    exists m, p; split; [exact Hm|]. split; [exact Hp|]. left; auto.
Qed.

Lemma ieee_nums_written text nums :
  for_each (finditer ieee_re text)
    (fun nums m => for_each (split comma_re (group m 1)) ieee_part nums) []
  = Ok nums ->
  Forall (written text) nums.
Proof.
  apply (for_each_invariant (Forall (written text))
           (fun m => In m (finditer ieee_re text))).
  - intros s m s' Hm Hs.
    apply (for_each_invariant (Forall (written text))
             (fun p => In p (split comma_re (group m 1)))); [| |exact Hs].
    + intros s0 p s1 Hp Hs0; apply (ieee_part_written _ _ _ _ _ Hm Hp Hs0).
    + apply Forall_forall; auto.
  - apply Forall_forall; auto.
  - constructor.
Qed.

Lemma written_In text nums t :
  for_each (finditer ieee_re text)
    (fun nums m => for_each (split comma_re (group m 1)) ieee_part nums) []
  = Ok nums ->
  written text t -> In t nums.
Proof.
  intros En (m & p & Hm & Hp & W).
  destruct (ieee_loops_In _ _ _ _ En Hm Hp) as (s0 & s1 & E & Inc).
  apply Inc.
  destruct W as [[F ->]|(a & b & x & y & z & F & S & Ea & Eb & Hz & Et)].
  - apply (ieee_part_single _ _ _ F E).
  - rewrite (IntFacts.str_of_int_Some _ _ Et).
    apply (ieee_part_range _ _ _ _ _ _ _ _ F S Ea Eb Hz E).
Qed.

Lemma ieee_key_str_of_int z t :
  (0 <= z)%Z -> Py.str_of_int z = Some t -> ieee_key t = Ok (KInt z).
Proof.
  intros H E; unfold ieee_key.
  rewrite (IntFacts.digits_isdigit _ (IntFacts.str_of_int_digits _ _ H E)).
  rewrite (RoundTrip.int_str_of_int _ _ E); reflexivity.
Qed.

End Written.

(** X11.  When [extract_ieee] returns, its strings are, between brackets,
    exactly the strings written in the bracket groups of the text: the
    parts without a dash, stripped, and [str(z)] for every integer [z]
    from the first to the second side of a part with one dash, when
    [int] reads the two sides.  Between two integers that [int] reads,
    [str] raises for none and gives the decimal.  When [str] returns for
    a natural number, the sort key of the string is that number. *)
Theorem ieee_family_is_what_is_written set_order text out :
  extract_ieee set_order text = Ok out ->
  (forall s, In s out <-> exists t, s = bracketed t /\ written text t)
  /\ (forall sa sb x y z,
         Py.int sa = Some x -> Py.int sb = Some y -> (x <= z <= y)%Z ->
         Py.str_of_int z = Some (Py.decimal z))
  /\ (forall z t,
         (0 <= z)%Z -> Py.str_of_int z = Some t -> ieee_key t = Ok (KInt z)).
Proof.
  intros H; split;
    [|split; [exact Magnitude.str_between | exact ieee_key_str_of_int]].
  apply extract_ieee_Ok in H.
  destruct H as (nums & toks & vals & En & -> & _ & I & _).
  pose proof (ieee_nums_written _ _ En) as W; rewrite Forall_forall in W.
  intros s; split.
  - intros Hs; apply in_map_iff in Hs; destruct Hs as (t & <- & Ht).
    exists t; split; [reflexivity | apply W, I, Ht].
  - intros (t & -> & Ht); apply in_map, I, (written_In _ _ _ En Ht).
Qed.

(** The theorem at a text with a list and a range. *)
Lemma ieee_family_is_what_is_written_witness :
  extract_ieee any_order (lit "[1,3] and [2-4]")
  = Ok [lit "[1]"; lit "[2]"; lit "[3]"; lit "[4]"]
  /\ (forall s,
         In s [lit "[1]"; lit "[2]"; lit "[3]"; lit "[4]"]
         <-> exists t, s = bracketed t /\ written (lit "[1,3] and [2-4]") t)
  /\ (forall sa sb x y z,
         Py.int sa = Some x -> Py.int sb = Some y -> (x <= z <= y)%Z ->
         Py.str_of_int z = Some (Py.decimal z))
  /\ (forall z t,
         (0 <= z)%Z -> Py.str_of_int z = Some t -> ieee_key t = Ok (KInt z)).
Proof.
  assert (H1 : extract_ieee any_order (lit "[1,3] and [2-4]")
               = Ok [lit "[1]"; lit "[2]"; lit "[3]"; lit "[4]"])
    by (vm_compute; reflexivity).
  split; [exact H1|].
  exact (ieee_family_is_what_is_written _ _ _ H1).
Defined.

(* ------------------------------------------------------------------ *)
(** ** The data frame (X12) *)

Section Frame.

Lemma str_ltb_irrefl a : str_ltb a a = false.
Proof.
  destruct (str_ltb a a) eqn:E; [|reflexivity].
  pose proof (str_ltb_asym _ _ E); congruence.
Qed.

Lemma str_ltb_total a b : str_ltb a b = false -> str_ltb b a = false -> a = b.
Proof.
  revert b; induction a as [|x a IH]; intros [|y b]; simpl; try congruence.
  destruct (N.ltb_spec x y), (N.ltb_spec y x), (N.eqb_spec x y), (N.eqb_spec y x);
    simpl; try lia; try congruence.
  intros H1 H2; f_equal; [assumption | apply IH; assumption].
Qed.

Lemma by_type_citation_asym a b :
  by_type_citation a b = true -> by_type_citation b a = false.
Proof.
  unfold by_type_citation; intros H.
  apply orb_true_iff in H; destruct H as [H|H].
  - rewrite (str_ltb_asym _ _ H); simpl.
    destruct (str_eqb (Type_ b) (Type_ a)) eqn:E; [|reflexivity].
    apply str_eqb_eq in E; rewrite E, str_ltb_irrefl in H; discriminate.
  - apply andb_true_iff in H; destruct H as [E H].
    apply str_eqb_eq in E; rewrite E, str_ltb_irrefl, str_eqb_refl.
    simpl; apply str_ltb_asym, H.
Qed.

Lemma by_type_citation_trans a b c :
  by_type_citation b a = false -> by_type_citation c b = false ->
  by_type_citation c a = false.
Proof.
  unfold by_type_citation; intros H1 H2.
  apply orb_false_iff in H1, H2; destruct H1 as [T1 C1], H2 as [T2 C2].
  rewrite (str_leb_trans _ _ _ T1 T2); simpl.
  destruct (str_eqb (Type_ c) (Type_ a)) eqn:E; [|reflexivity]. simpl.
  apply str_eqb_eq in E; rewrite E in *.
  assert (Type_ b = Type_ a) as Eb by (apply str_ltb_total; assumption).
  rewrite Eb, str_eqb_refl in *; simpl in *.
  apply (str_leb_trans _ _ _ C1 C2).
Qed.

Lemma by_type_citation_total a b :
  by_type_citation a b = false -> by_type_citation b a = false ->
  row_key a = row_key b.
Proof.
  unfold by_type_citation, row_key; intros H1 H2.
  apply orb_false_iff in H1, H2; destruct H1 as [T1 C1], H2 as [T2 C2].
  assert (Type_ a = Type_ b) as E by (apply str_ltb_total; assumption).
  rewrite E, str_eqb_refl in *; simpl in *.
  f_equal; apply str_ltb_total; assumption.
Qed.

Lemma row_eqb_key a b : row_eqb a b = true -> row_key a = row_key b.
Proof.
  unfold row_eqb, row_key; intros H.
  apply andb_true_iff in H; destruct H as [H _].
  apply andb_true_iff in H; destruct H as [H1 H2].
  apply str_eqb_eq in H1, H2; congruence.
Qed.

(** Rows with distinct keys lose nothing to [drop_duplicates]. *)
Lemma drop_duplicates_id rows :
  forall seen,
    NoDup (List.map row_key rows) ->
    (forall r, In r rows -> ~ In (row_key r) (List.map row_key seen)) ->
    drop_duplicates_from seen rows = rows.
Proof.
  induction rows as [|r rows IH]; intros seen ND H; simpl; [reflexivity|].
  inversion ND as [|? ? Nr ND']; subst.
  destruct (existsb (row_eqb r) seen) eqn:E.
  - apply existsb_exists in E; destruct E as (r' & Hr' & E).
    apply row_eqb_key in E.
    exfalso; apply (H r (or_introl eq_refl)); rewrite E; apply in_map, Hr'.
  - f_equal; apply IH; [exact ND'|].
    intros x Hx [Hk|Hk].
    + apply Nr; rewrite Hk; apply in_map, Hx.
    + apply (H x (or_intror Hx) Hk).
Qed.

Lemma keys_of_rows buckets :
  List.map row_key (extract_rows buckets) = flatten buckets.
Proof.
  unfold extract_rows; rewrite map_map; unfold row_key; simpl.
  rewrite (map_ext _ (fun x => x)) by (intros [a b]; reflexivity).
  apply map_id.
Qed.

Lemma NoDup_map_pair (k : str) (l : list str) :
  NoDup l -> NoDup (List.map (fun it => (k, it)) l).
Proof.
  induction 1 as [|x l Hx _ IH]; simpl; constructor; [|exact IH].
  intros H; apply in_map_iff in H; destruct H as (y & E & Hy).
  inversion E; subst; contradiction.
Qed.

Lemma NoDup_app_intro {A} (l1 l2 : list A) :
  NoDup l1 -> NoDup l2 -> (forall x, In x l1 -> ~ In x l2) -> NoDup (l1 ++ l2).
Proof.
  induction 1 as [|x l1 Hx _ IH]; intros N2 D; simpl; [exact N2|].
  constructor.
  - intros H; apply in_app_or in H; destruct H as [H|H]; [contradiction|].
    apply (D x (or_introl eq_refl) H).
  - apply IH; [exact N2|]. intros y Hy; apply D; right; exact Hy.
Qed.

Variable set_order : str -> N.

(** No two rows of a Citation Table have the same type and citation. *)
Lemma rows_distinct text tbl :
  extract_citations_from_text set_order text = Ok tbl ->
  NoDup (List.map row_key (extract_rows tbl)).
Proof.
  intros H; rewrite keys_of_rows.
  apply table_Ok in H; destruct H as (ieee & _ & ->).
  unfold flatten; cbn [flat_map fst snd]; rewrite app_nil_r.
  assert (K : forall (k1 k2 : str) (l1 : list str) x,
             k1 <> k2 -> In x (List.map (fun it => (k1, it)) l1) ->
             forall l2 : list str,
               ~ In x (List.map (fun it => (k2, it)) l2)).
  { intros k1 k2 l1 x D H1 l2 H2.
    apply in_map_iff in H1, H2.
    destruct H1 as (a & <- & _), H2 as (b & E & _); inversion E; congruence. }
  assert (D12 : Py.replace_char 95 32 APA_parenthetical
                <> Py.replace_char 95 32 APA_narrative)
    by (vm_compute; discriminate).
  assert (D13 : Py.replace_char 95 32 APA_parenthetical
                <> Py.replace_char 95 32 IEEE_numeric)
    by (vm_compute; discriminate).
  assert (D23 : Py.replace_char 95 32 APA_narrative
                <> Py.replace_char 95 32 IEEE_numeric)
    by (vm_compute; discriminate).
  apply NoDup_app_intro; [apply NoDup_map_pair, dedupe_NoDup| |].
  - apply NoDup_app_intro; try (apply NoDup_map_pair, dedupe_NoDup).
    intros x Hx; apply (K _ _ _ x D23 Hx).
  - intros x Hx H'; apply in_app_or in H'; destruct H' as [H'|H'];
      revert H'; [apply (K _ _ _ x D12 Hx) | apply (K _ _ _ x D13 Hx)].
Qed.

Lemma sorted_rows_strict l :
  NoDup (List.map row_key l) ->
  ascending by_type_citation l ->
  StronglySorted (fun a b => by_type_citation a b = true) l.
Proof.
  intros ND S; induction S as [|a l S IH F]; constructor.
  - apply IH; inversion ND; assumption.
  - inversion ND as [|? ? Na _]; subst.
    rewrite Forall_forall in *; intros b Hb; specialize (F b Hb).
    destruct (by_type_citation a b) eqn:E; [reflexivity|].
    exfalso; apply Na; rewrite (by_type_citation_total _ _ E F).
    apply in_map, Hb.
Qed.

Lemma rows_origin tbl r :
  In r (extract_rows tbl) ->
  exists fam seq,
    In (fam, seq) tbl /\ Type_ r = Py.replace_char 95 32 fam
    /\ In (Citation r) seq.
Proof.
  unfold extract_rows; intros H.
  apply in_map_iff in H; destruct H as ([ty cit] & <- & H); simpl.
  unfold flatten in H; apply in_flat_map in H.
  destruct H as ([fam seq] & Hf & H); simpl in H.
  apply in_map_iff in H; destruct H as (it & E & Hit); inversion E; subst.
  exists fam, seq; auto.
Qed.

Lemma frame_sorted text tbl :
  extract_citations_from_text set_order text = Ok tbl ->
  extract_rows tbl <> [] ->
  exists records,
    df (extract_rows tbl) = Frame records
    /\ Permutation records (extract_rows tbl)
    /\ StronglySorted (fun a b => by_type_citation a b = true) records.
Proof.
  intros H Ne. pose proof (rows_distinct _ _ H) as ND.
  exists (sort_values (extract_rows tbl)).
  assert (P : Permutation (sort_values (extract_rows tbl)) (extract_rows tbl))
    by apply sort_by_perm.
  split; [|split; [exact P|]].
  - unfold df, drop_duplicates.
    rewrite (drop_duplicates_id _ [] ND) by (intros r _ []).
    destruct (extract_rows tbl); [congruence | reflexivity].
  - apply sorted_rows_strict.
    + apply (Permutation_NoDup (l := List.map row_key (extract_rows tbl)));
        [symmetry; apply Permutation_map, P | exact ND].
    + apply sort_by_ascending with (dom := fun _ => True).
      * intros a b _ _; apply by_type_citation_asym.
      * intros a b c _ _ _; apply by_type_citation_trans.
      * apply Forall_forall; auto.
Qed.

End Frame.

(** X12.  When the Citation Table holds a citation, the data frame keeps
    every row ([drop_duplicates] drops none), in strictly ascending
    order of type and citation; each record comes from a citation of
    the table and bears the name of its family with spaces for
    underscores. *)
Theorem frame_is_sorted_rows set_order text tbl :
  extract_citations_from_text set_order text = Ok tbl ->
  extract_rows tbl <> [] ->
  exists records,
    df (extract_rows tbl) = Frame records
    /\ Permutation records (extract_rows tbl)
    /\ StronglySorted (fun a b => by_type_citation a b = true) records
    /\ Forall (fun r => exists fam seq,
                   In (fam, seq) tbl
                   /\ Type_ r = Py.replace_char 95 32 fam
                   /\ In (Citation r) seq) records.
Proof.
  intros H Ne; destruct (frame_sorted _ _ _ H Ne) as (l & E & P & S).
  exists l; split; [exact E|]. split; [exact P|]. split; [exact S|].
  apply Forall_forall; intros r Hr.
  apply rows_origin, (Permutation_in _ P), Hr.
Qed.

(** The theorem at a text with a narrative citation and two numbers. *)
Lemma frame_is_sorted_rows_witness :
  extract_citations_from_text any_order (lit "Smith (2020) [10] [9]")
  = Ok (table_of [lit "2020"] [lit "Smith, 2020"] [lit "[9]"; lit "[10]"])
  /\ extract_rows
       (table_of [lit "2020"] [lit "Smith, 2020"] [lit "[9]"; lit "[10]"])
     <> []
  /\ exists records,
       df (extract_rows
             (table_of [lit "2020"] [lit "Smith, 2020"]
                [lit "[9]"; lit "[10]"]))
       = Frame records
       /\ Permutation records
            (extract_rows
               (table_of [lit "2020"] [lit "Smith, 2020"]
                  [lit "[9]"; lit "[10]"]))
       /\ StronglySorted (fun a b => by_type_citation a b = true) records
       /\ Forall (fun r => exists fam seq,
                      In (fam, seq)
                         (table_of [lit "2020"] [lit "Smith, 2020"]
                            [lit "[9]"; lit "[10]"])
                      /\ Type_ r = Py.replace_char 95 32 fam
                      /\ In (Citation r) seq) records.
Proof.
  assert (H1 : extract_citations_from_text any_order
                 (lit "Smith (2020) [10] [9]")
               = Ok (table_of [lit "2020"] [lit "Smith, 2020"]
                       [lit "[9]"; lit "[10]"]))
    by (vm_compute; reflexivity).
  assert (H2 : extract_rows
                 (table_of [lit "2020"] [lit "Smith, 2020"]
                    [lit "[9]"; lit "[10]"])
               <> [])
    by (intros E; vm_compute in E; discriminate E).
  split; [exact H1|]. split; [exact H2|].
  exact (frame_is_sorted_rows _ _ _ H1 H2).
Defined.

(* ------------------------------------------------------------------ *)
(** ** The text of a document (X13, X14) *)

Lemma join_part sep texts t : In t texts -> part_of t (join sep texts).
Proof.
  induction texts as [|a texts IH]; intros H; [destruct H|].
  destruct texts as [|b texts].
  - destruct H as [->|[]]; apply part_of_refl.
  - change (join sep (a :: b :: texts)) with (a ++ sep ++ join sep (b :: texts)).
    destruct H as [->|H]; [apply part_of_prefix|].
    apply part_of_trans with (b := join sep (b :: texts)); [apply IH, H|].
    rewrite app_assoc; apply part_of_suffix.
Qed.

Lemma join_In sep texts c :
  In c (join sep texts) -> In c sep \/ exists t, In t texts /\ In c t.
Proof.
  induction texts as [|a texts IH]; intros H; [destruct H|].
  destruct texts as [|b texts].
  - right; exists a; split; [left; reflexivity | exact H].
  - change (join sep (a :: b :: texts))
      with (a ++ sep ++ join sep (b :: texts)) in H.
    apply in_app_or in H; destruct H as [H|H];
      [right; exists a; split; [left; reflexivity | exact H]|].
    apply in_app_or in H; destruct H as [H|H]; [left; exact H|].
    destruct (IH H) as [H'|(t & Ht & Hc)]; [left; exact H'|].
    right; exists t; split; [right; exact Ht | exact Hc].
Qed.

Lemma read_docx_text_join doc : read_docx_text doc = join [10%N] (texts_of doc).
Proof. reflexivity. Qed.

(** X13.  [read_docx_text] keeps every text: each paragraph and each
    cell is a contiguous part of the text read, which holds no
    character besides theirs and the line feeds; a document without
    paragraphs and cells reads as the empty string. *)
Theorem read_docx_text_keeps_texts doc :
  (forall t, In t (texts_of doc) -> part_of t (read_docx_text doc))
  /\ (forall c, In c (read_docx_text doc) ->
                c = 10%N \/ exists t, In t (texts_of doc) /\ In c t)
  /\ (texts_of doc = [] -> read_docx_text doc = []).
Proof.
  rewrite read_docx_text_join; split; [|split].
  - intros t; apply join_part.
  - intros c H; apply join_In in H; destruct H as [[<-|[]]|H]; auto.
  - intros ->; reflexivity.
Qed.

(** X14.  For a document none of whose paragraphs and cells holds a
    decimal digit, the Citation Table of the text read is empty, and
    the data frame of its rows is not built: sorting it by [Type]
    raises KeyError. *)
Theorem document_without_digits set_order doc :
  (forall t, In t (texts_of doc) -> existsb Unicode.isdecimal t = false) ->
  extract_citations_from_text set_order (read_docx_text doc)
  = Ok (table_of [] [] [])
  /\ df (extract_rows (table_of [] [] [])) = KeyError (lit "Type").
Proof.
  intros H; split; [|reflexivity].
  apply no_digit_table.
  destruct (existsb Unicode.isdecimal (read_docx_text doc)) eqn:E; [|reflexivity].
  apply existsb_exists in E; destruct E as (c & Hc & D).
  rewrite read_docx_text_join in Hc; apply join_In in Hc.
  destruct Hc as [[<-|[]]|(t & Ht & Hc)]; [vm_compute in D; discriminate|].
  specialize (H t Ht).
  assert (existsb Unicode.isdecimal t = true)
    by (apply existsb_exists; exists c; auto).
  congruence.
Qed.

(** The theorem at a document of two paragraphs and a table. *)
Lemma document_without_digits_witness :
  (forall t, In t (texts_of plain_doc) -> existsb Unicode.isdecimal t = false)
  /\ extract_citations_from_text any_order (read_docx_text plain_doc)
     = Ok (table_of [] [] [])
  /\ df (extract_rows (table_of [] [] [])) = KeyError (lit "Type").
Proof.
  assert (H1 : forall t, In t (texts_of plain_doc) ->
                         existsb Unicode.isdecimal t = false).
  { intros t H; vm_compute in H.
    repeat (destruct H as [H|H]; [subst t; vm_compute; reflexivity|]).
    destruct H. }
  split; [exact H1|].
  exact (document_without_digits any_order _ H1).
Defined.
